(** * Lepton: schema validation and binary (hex) codec

    A shallow embedding of the Lepton schema nodes (src/lib/primitive,
    src/lib/wrapper, src/lib/errors.ts, utils.ts) and the properties of
    their validate ([parse]) / [encode] / [decode] operations.

    Layout
    - [JS]      the fragment of the ECMAScript platform the library calls:
                strings, hex printing and parsing, the 32-bit operators,
                UTF-8, values and their properties
    - errors.ts [LeptonError] and the result of a call
    - utils.ts  [encodeVarInt], [decodeVarInt]
    - the schema nodes, one module per class, and their dispatch
    - the notions the statements use
    - the theorems.

    Conventions of the embedding
    - The wire format is what the source has: a string of hex characters,
      sliced two characters at a time and read with [parseInt(_, 16)].
    - A call returns [Ok] or throws: a [LeptonError] with its message and
      path, or an error of the platform.
    - A Number is an IEEE 754 double.  An integer-valued number is its value
      in [Z]; the arithmetic the library does on it is exact there, as it is
      on doubles for the byte widths 1, 2, 4 and the bit widths 1 to 32.
      The shift and mask operators work on 32 bits, as in ECMAScript.  A
      number that is not an integer is an odd significand at a negative
      binary exponent.  The two zeros are one value.  Storing a number in
      binary64 or binary32 rounds to nearest, ties to even; a number is
      printed with the shortest digits that read back as the same double.
    - [Number(length)] of a length prefix is the nearest double.  Where the
      library compares it with the length of a string or counts up to it,
      it is taken as the length itself: they differ from 2^53 on, beyond
      the length of a string or an array of the platform.  Where it is
      printed, the double is printed.
    - An object is the ordered list of its own properties, in the order of
      enumeration: array indices first, ascending, then the other keys as
      they were added.  Inherited properties are functions, which are not
      among the values modelled: [key in input] is the test of an own
      property, and what is stated through it is stated for plain objects
      and for keys that Object.prototype does not have.  [key in shape],
      which decides what a strict object refuses and what [pick] keeps,
      counts the names of Object.prototype in. *)

From Stdlib Require Import ZArith List String Ascii Bool Lia.
Import ListNotations.
Open Scope Z_scope.
Set Warnings "-register-all".

(* ================================================================== *)
(** * The platform *)
(* ================================================================== *)

Module JS.

(** A JavaScript string is a sequence of UTF-16 code units; a code unit is a
    16-bit integer held in [Z].  The wire format of Lepton is such a string
    (two lowercase hex characters per byte). *)
Definition jsstring := list Z.

(** [js "ab"] is the string literal "ab". *)
Definition js (s : string) : jsstring :=
  map (fun a => Z.of_N (N_of_ascii a)) (list_ascii_of_string s).

Definition jsstring_eqb (a b : jsstring) : bool :=
  if list_eq_dec Z.eq_dec a b then true else false.

(** [s.slice(0, n)] and [s.slice(n)] for [n >= 0]. *)
Definition sliceTo (n : nat) (s : jsstring) : jsstring := firstn n s.
Definition sliceFrom (n : nat) (s : jsstring) : jsstring := skipn n s.

(** [s.length] as a number. *)
Definition len (s : jsstring) : Z := Z.of_nat (List.length s).

(** ** Number.prototype.toString(radix) on integers *)

(** The character of a digit [0 <= d < 16], lowercase. *)
Definition hexDigit (d : Z) : Z := if d <? 10 then 48 + d else 87 + d.

(** Digits of [z >= 0] in [radix], most significant first; [fuel] bounds
    their number. *)
Fixpoint digits (radix : Z) (fuel : nat) (z : Z) : jsstring :=
  match fuel with
  | O => []
  | S f => if z <? radix then [hexDigit z]
           else digits radix f (z / radix) ++ [hexDigit (z mod radix)]
  end.

Definition digitsFuel (z : Z) : nat := S (Z.to_nat (Z.log2 z)).

(** [z.toString(radix)]: a minus sign and the digits of the magnitude. *)
Definition toStringRadix (radix z : Z) : jsstring :=
  if z <? 0 then 45 :: digits radix (digitsFuel (- z)) (- z)
  else digits radix (digitsFuel z) z.

Definition toString16 : Z -> jsstring := toStringRadix 16.
Definition toString10 : Z -> jsstring := toStringRadix 10.

(** [s.padStart(n, "0")]. *)
Definition padStart0 (n : nat) (s : jsstring) : jsstring :=
  repeat 48 (n - List.length s) ++ s.

(** [b.toString(16).padStart(2, "0")], the two characters of one byte. *)
Definition hex2 (b : Z) : jsstring := padStart0 2 (toString16 b).

(** ** parseInt(s, 16) *)

(** The value of a hex digit character, either case. *)
Definition digitValue (c : Z) : option Z :=
  if (48 <=? c) && (c <=? 57) then Some (c - 48)
  else if (97 <=? c) && (c <=? 102) then Some (c - 87)
  else if (65 <=? c) && (c <=? 70) then Some (c - 55)
  else None.

(** StrWhiteSpaceChar: WhiteSpace and LineTerminator code units. *)
Definition isWhiteSpace (c : Z) : bool :=
  (c =? 9) || (c =? 10) || (c =? 11) || (c =? 12) || (c =? 13) || (c =? 32)
  || (c =? 160) || (c =? 5760) || ((8192 <=? c) && (c <=? 8202))
  || (c =? 8232) || (c =? 8233) || (c =? 8239) || (c =? 8287)
  || (c =? 12288) || (c =? 65279).

Fixpoint trimStart (s : jsstring) : jsstring :=
  match s with
  | c :: s' => if isWhiteSpace c then trimStart s' else s
  | [] => []
  end.

(** The longest prefix of hex digits, as a number; [acc] is [None] until a
    digit has been read. *)
Fixpoint parseDigits (s : jsstring) (acc : option Z) : option Z :=
  match s with
  | [] => acc
  | c :: s' =>
      match digitValue c with
      | Some d => parseDigits s' (Some (16 * match acc with Some a => a | None => 0 end + d))
      | None => acc
      end
  end.

Definition stripHexPrefix (s : jsstring) : jsstring :=
  match s with
  | 48 :: 120 :: s' => s'
  | 48 :: 88 :: s' => s'
  | _ => s
  end.

(** [parseInt(s, 16)]; [None] is NaN. *)
Definition parseInt16 (s : jsstring) : option Z :=
  let s := trimStart s in
  let '(neg, s) :=
    match s with
    | 45 :: s' => (true, s')
    | 43 :: s' => (false, s')
    | _ => (false, s)
    end in
  match parseDigits (stripHexPrefix s) None with
  | Some v => Some (if neg then - v else v)
  | None => None
  end.

(** ** 32-bit integer operators *)

(** ToInt32 of an integer-valued number. *)
Definition ToInt32 (z : Z) : Z := (z + 2 ^ 31) mod 2 ^ 32 - 2 ^ 31.

(** The integer a bitwise operator sees in the result of [parseInt]: NaN
    counts as 0. *)
Definition orZero (n : option Z) : Z :=
  match n with Some z => z | None => 0 end.

(** [a << b], [a >> b], [a & b], [a | b] on integer-valued numbers. *)
Definition shl (a b : Z) : Z := ToInt32 (Z.shiftl (ToInt32 a) (b mod 32)).
Definition shr (a b : Z) : Z := Z.shiftr (ToInt32 a) (b mod 32).
Definition band (a b : Z) : Z := Z.land (ToInt32 a) (ToInt32 b).
Definition bor (a b : Z) : Z := Z.lor (ToInt32 a) (ToInt32 b).

(** ** UTF-8 (TextEncoder, TextDecoder) *)

Definition isHighSurrogate (c : Z) : bool := (55296 <=? c) && (c <=? 56319).
Definition isLowSurrogate (c : Z) : bool := (56320 <=? c) && (c <=? 57343).

(** The scalar values of a string (USVString conversion): a surrogate pair
    is one code point, a lone surrogate becomes U+FFFD. *)
Fixpoint toScalarValues (s : jsstring) : list Z :=
  match s with
  | [] => []
  | c :: s' =>
      if isHighSurrogate c then
        match s' with
        | d :: s'' =>
            if isLowSurrogate d
            then (65536 + (c - 55296) * 1024 + (d - 56320)) :: toScalarValues s''
            else 65533 :: toScalarValues s'
        | [] => [65533]
        end
      else if isLowSurrogate c then 65533 :: toScalarValues s'
      else c :: toScalarValues s'
  end.

Definition utf8EncodeScalar (cp : Z) : list Z :=
  if cp <? 128 then [cp]
  else if cp <? 2048 then [192 + cp / 64; 128 + cp mod 64]
  else if cp <? 65536 then [224 + cp / 4096; 128 + (cp / 64) mod 64; 128 + cp mod 64]
  else [240 + cp / 262144; 128 + (cp / 4096) mod 64; 128 + (cp / 64) mod 64; 128 + cp mod 64].

(** [new TextEncoder().encode(s)] for a string [s]: its UTF-8 bytes. *)
Definition utf8Encode (s : jsstring) : list Z :=
  flat_map utf8EncodeScalar (toScalarValues s).

(** The state of the UTF-8 decoder of the Encoding standard. *)
Record utf8State := mkUtf8State {
  utf8CodePoint : Z;
  utf8BytesNeeded : Z;
  utf8BytesSeen : Z;
  utf8Lower : Z;
  utf8Upper : Z
}.

Definition utf8Initial : utf8State := mkUtf8State 0 0 0 128 191.

(** A byte read when no bytes are needed: a code point, the start of a
    sequence, or an error (U+FFFD). *)
Definition utf8Lead (b : Z) : list Z * utf8State :=
  if b <=? 127 then ([b], utf8Initial)
  else if (194 <=? b) && (b <=? 223) then ([], mkUtf8State (Z.land b 31) 1 0 128 191)
  else if (224 <=? b) && (b <=? 239) then
    ([], mkUtf8State (Z.land b 15) 2 0 (if b =? 224 then 160 else 128)
                     (if b =? 237 then 159 else 191))
  else if (240 <=? b) && (b <=? 244) then
    ([], mkUtf8State (Z.land b 7) 3 0 (if b =? 240 then 144 else 128)
                     (if b =? 244 then 143 else 191))
  else ([65533], utf8Initial).

(** The decoder run over the bytes, errors replaced by U+FFFD.  A byte that
    breaks a sequence is put back and read again in the initial state. *)
Fixpoint utf8Run (bytes : list Z) (st : utf8State) : list Z :=
  match bytes with
  | [] => if utf8BytesNeeded st =? 0 then [] else [65533]
  | b :: rest =>
      if utf8BytesNeeded st =? 0 then
        let '(out, st') := utf8Lead b in out ++ utf8Run rest st'
      else if (b <? utf8Lower st) || (utf8Upper st <? b) then
        let '(out, st') := utf8Lead b in 65533 :: out ++ utf8Run rest st'
      else
        let cp := Z.lor (Z.shiftl (utf8CodePoint st) 6) (Z.land b 63) in
        if utf8BytesSeen st + 1 =? utf8BytesNeeded st then cp :: utf8Run rest utf8Initial
        else utf8Run rest (mkUtf8State cp (utf8BytesNeeded st) (utf8BytesSeen st + 1) 128 191)
  end.

Definition fromScalarValue (cp : Z) : jsstring :=
  if cp <? 65536 then [cp]
  else [55296 + (cp - 65536) / 1024; 56320 + (cp - 65536) mod 1024].

(** [new TextDecoder().decode(bytes)]: UTF-8, not fatal, a leading byte order
    mark dropped. *)
Definition utf8Decode (bytes : list Z) : jsstring :=
  let cps := utf8Run bytes utf8Initial in
  let cps := match cps with 65279 :: cps' => cps' | _ => cps end in
  flat_map fromScalarValue cps.

(** ToUint8, the conversion of a store into a Uint8Array, on the result of
    [parseInt]. *)
Definition ToUint8_nan (n : option Z) : Z :=
  match n with Some z => z mod 256 | None => 0 end.

(** ** Numbers *)

(** A Number is an IEEE 754 double: an integer, NaN, an infinity, or a
    finite number that is not an integer, [NFrac negative m e] for
    [m * 2^e] with [m] odd and [e < 0], negated when [negative].  An
    integer [NInt z] is held exactly; zero has one sign. *)
Inductive number :=
| NInt (z : Z)
| NNaN
| NInfinity (negative : bool)
| NFrac (negative : bool) (m : positive) (e : Z).

(** *** IEEE 754 binary interchange formats *)

Record binaryFormat := mkFormat {
  expBits : Z;   (** width of the exponent field *)
  fracBits : Z   (** width of the trailing significand field *)
}.

Definition binary64 : binaryFormat := mkFormat 11 52.
Definition binary32 : binaryFormat := mkFormat 8 23.

Definition bias (f : binaryFormat) : Z := 2 ^ (expBits f - 1) - 1.

(** The exponent of the last place of the subnormal numbers. *)
Definition emin (f : binaryFormat) : Z := 1 - bias f - fracBits f.

Definition infinityBits (f : binaryFormat) : Z := (2 ^ expBits f - 1) * 2 ^ fracBits f.

Definition signBit (f : binaryFormat) (negative : bool) : Z :=
  if negative then 2 ^ (expBits f + fracBits f) else 0.

(** The exponent and significand fields, as one integer, of the value of the
    format nearest to [p / q] (for [p >= 0], [q > 0]), ties to the even
    significand; a carry out of the significand runs into the exponent, and
    what passes the largest finite value is the infinity. *)
Definition roundMagnitude (f : binaryFormat) (p q : Z) : Z :=
  if p <=? 0 then 0
  else
    let g := Z.log2 p - Z.log2 q in
    let l := if (if 0 <=? g then q * 2 ^ g <=? p else q <=? p * 2 ^ (- g)) then g else g - 1 in
    let e := Z.max (l - fracBits f) (emin f) in
    let num := if 0 <=? e then p else p * 2 ^ (- e) in
    let den := if 0 <=? e then q * 2 ^ e else q in
    let quo := num / den in
    let rem := num mod den in
    let quo := if (den <? 2 * rem) || ((2 * rem =? den) && Z.odd quo) then quo + 1 else quo in
    Z.min ((e - emin f) * 2 ^ fracBits f + quo) (infinityBits f).

(** The bits of a number stored in the format ([setFloat64], [setFloat32]
    of a DataView); NaN is stored as the quiet NaN without payload. *)
Definition numberBits (f : binaryFormat) (n : number) : Z :=
  match n with
  | NNaN => infinityBits f + 2 ^ (fracBits f - 1)
  | NInfinity negative => signBit f negative + infinityBits f
  | NInt z => signBit f (z <? 0) + roundMagnitude f (Z.abs z) 1
  | NFrac negative m e =>
      signBit f negative
      + (if e <? 0 then roundMagnitude f (Zpos m) (2 ^ (- e))
         else roundMagnitude f (Zpos m * 2 ^ e) 1)
  end.

(** [m] without its trailing zero bits, at most [k] of them, and how many of
    the [k] are left. *)
Fixpoint reduce (m : positive) (k : nat) : positive * nat :=
  match k, m with
  | S k', xO m' => reduce m' k'
  | _, _ => (m, k)
  end.

Definition signed (negative : bool) (z : Z) : Z := if negative then - z else z.

(** The number [m * 2^e], negated when [negative]. *)
Definition dyadic (negative : bool) (m e : Z) : number :=
  match m with
  | Zpos p =>
      if 0 <=? e then NInt (signed negative (m * 2 ^ e))
      else
        let '(p', k) := reduce p (Z.to_nat (- e)) in
        match k with
        | O => NInt (signed negative (Zpos p'))
        | _ => NFrac negative p' (- Z.of_nat k)
        end
  | _ => NInt 0
  end.

(** The number a bit pattern of the format stands for ([getFloat64],
    [getFloat32]). *)
Definition bitsNumber (f : binaryFormat) (bits : Z) : number :=
  let magnitude := bits mod 2 ^ (expBits f + fracBits f) in
  let negative := Z.odd (bits / 2 ^ (expBits f + fracBits f)) in
  let field := magnitude / 2 ^ fracBits f in
  let frac := magnitude mod 2 ^ fracBits f in
  if field =? 2 ^ expBits f - 1 then
    if frac =? 0 then NInfinity negative else NNaN
  else if field =? 0 then dyadic negative frac (emin f)
  else dyadic negative (2 ^ fracBits f + frac) (field - 1 + emin f).

(** The Number value of the rational [p / q], negated when [negative]. *)
Definition numberOfRational (negative : bool) (p q : Z) : number :=
  bitsNumber binary64 (signBit binary64 negative + roundMagnitude binary64 p q).

(** [Number(z)] for a bigint [z]. *)
Definition numberOfBigInt (z : Z) : number := numberOfRational (z <? 0) (Z.abs z) 1.

(** The [k] bytes of a bit pattern, most significant first, and back. *)
Fixpoint bytesBE (k : nat) (bits : Z) : list Z :=
  match k with
  | O => []
  | S k' => bytesBE k' (bits / 256) ++ [bits mod 256]
  end.

(** The number a sequence of bytes writes in base 256, most significant
    first. *)
Definition bigEndian (bytes : list Z) : Z :=
  fold_left (fun a b => a * 256 + b) bytes 0.

(** A finite number as a sign and a fraction. *)
Definition rationalOf (n : number) : option (bool * Z * Z) :=
  match n with
  | NInt z => Some (z <? 0, Z.abs z, 1)
  | NFrac negative m e =>
      Some (negative, if e <? 0 then Zpos m else Zpos m * 2 ^ e,
            if e <? 0 then 2 ^ (- e) else 1)
  | _ => None
  end.

(** *** Number::toString *)

(** The [n] with [10^(n-1) <= p / q < 10^n], for [p, q > 0]. *)
Fixpoint decimalExponentUp (fuel : nat) (p q n : Z) : Z :=
  match fuel with
  | O => n
  | S fuel' => if q * 10 ^ n <=? p then decimalExponentUp fuel' p q (n + 1) else n
  end.

Fixpoint decimalExponentDown (fuel : nat) (p q n : Z) : Z :=
  match fuel with
  | O => n
  | S fuel' => if p * 10 ^ (1 - n) <? q then decimalExponentDown fuel' p q (n - 1) else n
  end.

Definition decimalExponent (p q : Z) : Z :=
  if q <=? p then decimalExponentUp (Z.to_nat (Z.log2 p) + 1) p q 1
  else decimalExponentDown (Z.to_nat (Z.log2 q) + 1) p q 0.

(** Whether [s * 10^(n-k)] is read back as the double whose magnitude bits
    are [bits]. *)
Definition roundsTo (bits s n k : Z) : bool :=
  (if 0 <=? n - k then roundMagnitude binary64 (s * 10 ^ (n - k)) 1
   else roundMagnitude binary64 s (10 ^ (k - n))) =? bits.

(** The digits [s] of the shortest decimal [s * 10^(n-k)] that is read back
    as the same double, and their number [k]: of the two [k]-digit decimals
    around [p / q] one that is read back as that double, the nearer when
    both are, the even one when they are as near. *)
Fixpoint shortest (fuel : nat) (bits p q n k : Z) : Z * Z :=
  match fuel with
  | O => (0, k)
  | S fuel' =>
      let '(a, b) := if 0 <=? n - k then (p, q * 10 ^ (n - k)) else (p * 10 ^ (k - n), q) in
      let lo := a / b in
      let r := a mod b in
      let hi := lo + 1 in
      let okLo := (10 ^ (k - 1) <=? lo) && roundsTo bits lo n k in
      let okHi := negb (r =? 0) && roundsTo bits hi n k in
      if okLo && okHi then
        (if (2 * r <? b) || ((2 * r =? b) && Z.even lo) then lo else hi, k)
      else if okLo then (lo, k)
      else if okHi then (hi, k)
      else shortest fuel' bits p q n (k + 1)
  end.

(** Number::toString(x, 10) for a finite [x = p / q > 0], with its sign. *)
Definition finiteText (negative : bool) (p q : Z) : jsstring :=
  let bits := roundMagnitude binary64 p q in
  let n := decimalExponent p q in
  let '(s, k) := shortest 17 bits p q n 1 in
  let '(s, n) := if s =? 10 ^ k then (1, n + 1) else (s, n) in
  let ds := toString10 s in
  let k := len ds in
  let body :=
    if (k <=? n) && (n <=? 21) then ds ++ repeat 48 (Z.to_nat (n - k))
    else if (0 <? n) && (n <=? 21) then
      firstn (Z.to_nat n) ds ++ [46] ++ skipn (Z.to_nat n) ds
    else if (-6 <? n) && (n <=? 0) then
      [48; 46] ++ repeat 48 (Z.to_nat (- n)) ++ ds
    else
      let e := n - 1 in
      let exponent := [101; if e <? 0 then 45 else 43] ++ toString10 (Z.abs e) in
      if k =? 1 then ds ++ exponent
      else firstn 1 ds ++ [46] ++ skipn 1 ds ++ exponent in
  if negative then 45 :: body else body.

(** [String(n)] for a number: an integer below 2^53 is printed with all its
    digits, which are its shortest digits. *)
Definition numberToString (n : number) : jsstring :=
  match n with
  | NNaN => js "NaN"
  | NInfinity false => js "Infinity"
  | NInfinity true => js "-Infinity"
  | NInt z => if Z.abs z <? 2 ^ 53 then toString10 z else finiteText (z <? 0) (Z.abs z) 1
  | NFrac negative m e =>
      if e <? 0 then finiteText negative (Zpos m) (2 ^ (- e))
      else finiteText negative (Zpos m * 2 ^ e) 1
  end.

(** [parseFloat(n.toFixed(precision))]: [toFixed] prints the multiple of
    [10^-precision] nearest to the number, the larger in magnitude of two as
    near, and the text of the number itself from 10^21 on; [parseFloat]
    reads it back. *)
Definition roundFixed (n : number) (precision : Z) : number :=
  match rationalOf n with
  | Some (negative, p, q) =>
      if q * 10 ^ 21 <=? p then n
      else numberOfRational negative ((2 * p * 10 ^ precision + q) / (2 * q)) (10 ^ precision)
  | None => n
  end.

(** *** StringToNumber *)

(** The digits of [radix] at the front of a string: their value, their
    number and what follows. *)
Fixpoint takeDigits (radix : Z) (s : jsstring) (acc : Z) (count : Z) : Z * Z * jsstring :=
  match s with
  | c :: s' =>
      match digitValue c with
      | Some d => if d <? radix then takeDigits radix s' (acc * radix + d) (count + 1)
                  else (acc, count, s)
      | None => (acc, count, s)
      end
  | [] => (acc, count, s)
  end.

(** StrUnsignedDecimalLiteral, but for Infinity: digits, a fraction, an
    exponent. *)
Definition unsignedDecimal (negative : bool) (s : jsstring) : number :=
  let '(ip, ni, r1) := takeDigits 10 s 0 0 in
  let '(fp, nf, r2, dot) :=
    match r1 with
    | 46 :: r => let '(fp, nf, r2) := takeDigits 10 r 0 0 in (fp, nf, r2, true)
    | _ => (0, 0, r1, false)
    end in
  if (ni =? 0) && (nf =? 0) then NNaN
  else
    let mantissa := ip * 10 ^ nf + fp in
    let exponent :=
      match r2 with
      | [] => Some 0
      | c :: r =>
          if (c =? 101) || (c =? 69) then
            let '(neg, r) :=
              match r with
              | 45 :: r' => (true, r')
              | 43 :: r' => (false, r')
              | _ => (false, r)
              end in
            match takeDigits 10 r 0 0 with
            | (x, nx, []) => if nx =? 0 then None else Some (if neg then - x else x)
            | _ => None
            end
          else None
      end in
    match exponent with
    | None => NNaN
    | Some x =>
        let scale := x - nf in
        if 0 <=? scale then numberOfRational negative (mantissa * 10 ^ scale) 1
        else numberOfRational negative mantissa (10 ^ (- scale))
    end.

Definition wholeDigits (radix : Z) (s : jsstring) : number :=
  match takeDigits radix s 0 0 with
  | (x, nx, []) => if nx =? 0 then NNaN else numberOfRational false x 1
  | _ => NNaN
  end.

(** [Number(s)] for a string [s] (StringToNumber). *)
Definition stringToNumber (s : jsstring) : number :=
  let s := trimStart (rev (trimStart (rev s))) in
  match s with
  | [] => NInt 0
  | 48 :: 120 :: s' | 48 :: 88 :: s' => wholeDigits 16 s'
  | 48 :: 111 :: s' | 48 :: 79 :: s' => wholeDigits 8 s'
  | 48 :: 98 :: s' | 48 :: 66 :: s' => wholeDigits 2 s'
  | _ =>
      let '(negative, s) :=
        match s with
        | 45 :: s' => (true, s')
        | 43 :: s' => (false, s')
        | _ => (false, s)
        end in
      if jsstring_eqb s (js "Infinity") then NInfinity negative
      else unsignedDecimal negative s
  end.

Definition isNaN (n : number) : bool :=
  match n with NNaN => true | _ => false end.

(** [a === b] on numbers. *)
Definition numberEq (a b : number) : bool :=
  match a, b with
  | NInt x, NInt y => x =? y
  | NInfinity x, NInfinity y => Bool.eqb x y
  | NFrac n m e, NFrac n' m' e' => Bool.eqb n n' && (m =? m')%positive && (e =? e')
  | _, _ => false
  end.

(** ** Values *)

(** The values the library is applied to: plain data.  An object is the
    list of its own enumerable string-keyed properties in enumeration order,
    all of them data properties; its prototype is Object.prototype, an
    array's is Array.prototype. *)
Inductive Value :=
| VUndefined
| VNull
| VBool (b : bool)
| VNum (n : number)
| VBigInt (z : Z)
| VStr (s : jsstring)
| VArr (elems : list Value)
| VObj (props : list (jsstring * Value)).

(** [typeof v] *)
Definition typeOf (v : Value) : jsstring :=
  match v with
  | VUndefined => js "undefined"
  | VNull => js "object"
  | VBool _ => js "boolean"
  | VNum _ => js "number"
  | VBigInt _ => js "bigint"
  | VStr _ => js "string"
  | VArr _ => js "object"
  | VObj _ => js "object"
  end.

(** [parseInt]'s result as a number value. *)
Definition numberOfParse (n : option Z) : number :=
  match n with Some z => NInt z | None => NNaN end.

(** [parts.join(sep)] on strings. *)
Fixpoint join (sep : jsstring) (parts : list jsstring) : jsstring :=
  match parts with
  | [] => []
  | [p] => p
  | p :: parts' => p ++ sep ++ join sep parts'
  end.

Fixpoint lookup {A} (key : jsstring) (props : list (jsstring * A)) : option A :=
  match props with
  | [] => None
  | (k, v) :: props' => if jsstring_eqb k key then Some v else lookup key props'
  end.

(** All the results, when there is one for each. *)
Fixpoint allSome {A} (l : list (option A)) : option (list A) :=
  match l with
  | [] => Some []
  | Some a :: l' => option_map (cons a) (allSome l')
  | None :: _ => None
  end.

(** [String(v)], also the conversion of a template literal; [None] when it
    throws a TypeError.  An array is joined; an object is printed by
    Object.prototype.toString unless it has a property [toString] of its
    own, which being data is not callable, and then neither [toString] nor
    [valueOf] gives a primitive. *)
Fixpoint ToString (v : Value) : option jsstring :=
  match v with
  | VUndefined => Some (js "undefined")
  | VNull => Some (js "null")
  | VBool true => Some (js "true")
  | VBool false => Some (js "false")
  | VNum n => Some (numberToString n)
  | VBigInt z => Some (toString10 z)
  | VStr s => Some s
  | VArr elems =>
      option_map (join (js ","))
        (allSome (map (fun e => match e with
                                | VUndefined | VNull => Some []
                                | _ => ToString e
                                end) elems))
  | VObj props =>
      match lookup (js "toString") props with
      | Some _ => None
      | None => Some (js "[object Object]")
      end
  end.

(** [Number(v)], the conversion of an argument to a number; [None] when it
    throws a TypeError. *)
Definition ToNumber (v : Value) : option number :=
  match v with
  | VUndefined => Some NNaN
  | VNull => Some (NInt 0)
  | VBool b => Some (NInt (if b then 1 else 0))
  | VNum n => Some n
  | VBigInt _ => None
  | VStr s => Some (stringToNumber s)
  | VArr _ | VObj _ => option_map stringToNumber (ToString v)
  end.

(** [new TextEncoder().encode(v)] for any argument: an undefined argument
    takes the default, the empty string; others are converted to a string. *)
Definition TextEncoder_encode (v : Value) : option (list Z) :=
  match v with
  | VUndefined => Some []
  | _ => option_map utf8Encode (ToString v)
  end.

(** ** Properties *)

(** The key of array index [i]. *)
Definition indexKey (i : nat) : jsstring := toString10 (Z.of_nat i).

(** The names every plain object inherits from Object.prototype. *)
Definition objectPrototypeNames : list jsstring :=
  [js "constructor"; js "__defineGetter__"; js "__defineSetter__";
   js "hasOwnProperty"; js "__lookupGetter__"; js "__lookupSetter__";
   js "isPrototypeOf"; js "propertyIsEnumerable"; js "toString"; js "valueOf";
   js "__proto__"; js "toLocaleString"].

Definition inObjectPrototype (key : jsstring) : bool :=
  existsb (jsstring_eqb key) objectPrototypeNames.

(** The array index a key is the canonical text of, if any: an integer from
    0 to 2^32 - 2. *)
Definition asArrayIndex (key : jsstring) : option Z :=
  match key with
  | [] => None
  | _ =>
      match takeDigits 10 key 0 0 with
      | (i, _, []) =>
          if jsstring_eqb (toString10 i) key && (i <? 2 ^ 32 - 1) then Some i else None
      | _ => None
      end
  end.

(** The element of an array (or the character of a string) under an index
    key, counting from [i]. *)
Fixpoint lookupIndex {A} (key : jsstring) (i : nat) (elems : list A) : option A :=
  match elems with
  | [] => None
  | e :: elems' => if jsstring_eqb (indexKey i) key then Some e
                   else lookupIndex key (S i) elems'
  end.

(** The own property [key] of a value, if it has one. *)
Definition getOwnProperty (v : Value) (key : jsstring) : option Value :=
  match v with
  | VObj props => lookup key props
  | VArr elems =>
      if jsstring_eqb key (js "length") then Some (VNum (NInt (Z.of_nat (List.length elems))))
      else lookupIndex key 0 elems
  | VStr s =>
      if jsstring_eqb key (js "length") then Some (VNum (NInt (len s)))
      else option_map (fun c => VStr [c]) (lookupIndex key 0 s)
  | _ => None
  end.

(** Whether [v] has an own property [key].  For a key that the prototype of
    [v] does not have this is [key in v]; the inherited names (those of
    Object.prototype on a plain object, and of Array.prototype on an
    array), whose values are functions, are outside the values modelled, and
    what is stated through [hasProperty] is stated for other keys. *)
Definition hasProperty (key : jsstring) (v : Value) : bool :=
  match getOwnProperty v key with Some _ => true | None => false end.

(** [v[key]] for an own property, undefined when there is none; for [v]
    other than undefined and null. *)
Definition getProperty (v : Value) (key : jsstring) : Value :=
  match getOwnProperty v key with Some x => x | None => VUndefined end.

(** [Object.keys(v)], for an object or an array [v]. *)
Definition objectKeys (v : Value) : list jsstring :=
  match v with
  | VObj props => map fst props
  | VArr elems => map indexKey (seq 0 (List.length elems))
  | _ => []
  end.

(** [key in shape] for a plain object [shape] given by its own properties:
    an own or an inherited name. *)
Definition inShape {A} (key : jsstring) (shape : list (jsstring * A)) : bool :=
  match lookup key shape with Some _ => true | None => inObjectPrototype key end.

(** A property that the object has is assigned in place; a new one is put
    at the end. *)
Fixpoint assign {A} (props : list (jsstring * A)) (key : jsstring) (v : A)
  : list (jsstring * A) :=
  match props with
  | [] => [(key, v)]
  | (k, x) :: props' =>
      if jsstring_eqb k key then (k, v) :: props'
      else (k, x) :: assign props' key v
  end.

(** A new property whose key is the array index [i] goes before the first
    property that is not an array index or is a larger one: an object
    enumerates its array indices first, in ascending order. *)
Fixpoint insertIndexed {A} (props : list (jsstring * A)) (i : Z) (key : jsstring) (v : A)
  : list (jsstring * A) :=
  match props with
  | [] => [(key, v)]
  | (k, x) :: props' =>
      match asArrayIndex k with
      | Some j => if j <? i then (k, x) :: insertIndexed props' i key v
                  else (key, v) :: props
      | None => (key, v) :: props
      end
  end.

(** [result[key] = v] on the properties of a plain object, for a key other
    than [__proto__]. *)
Definition setProperty {A} (props : list (jsstring * A)) (key : jsstring) (v : A)
  : list (jsstring * A) :=
  match asArrayIndex key, lookup key props with
  | Some i, None => insertIndexed props i key v
  | _, _ => assign props key v
  end.

(** The strings a [for ... of] loop over a string yields: its code points. *)
Fixpoint codePointStrings (s : jsstring) : list jsstring :=
  match s with
  | [] => []
  | c :: s' =>
      if isHighSurrogate c then
        match s' with
        | d :: s'' => if isLowSurrogate d then [c; d] :: codePointStrings s''
                      else [c] :: codePointStrings s'
        | [] => [[c]]
        end
      else [c] :: codePointStrings s'
  end.

End JS.
Import JS.

(* ================================================================== *)
(** * errors.ts *)
(* ================================================================== *)

Record LeptonIssue := mkIssue {
  issuePath : list jsstring;
  issueMessage : jsstring
}.

Record LeptonError := mkError {
  message : jsstring;
  path : list jsstring;
  issues : list LeptonIssue
}.

(** [LeptonError.create(message)], the path left to its default. *)
Definition LeptonError_create (message : jsstring) : LeptonError :=
  mkError message [] [mkIssue [] message].

(** What a call can throw: a [LeptonError], or an error of the platform
    (a TypeError and the like). *)
Inductive exn :=
| LeptonErr (e : LeptonError)
| NativeError.

Inductive result (A : Type) :=
| Ok (a : A)
| Throw (e : exn).
Arguments Ok {A} a.
Arguments Throw {A} e.

Definition bind {A B} (r : result A) (k : A -> result B) : result B :=
  match r with
  | Ok a => k a
  | Throw e => Throw e
  end.

Notation "'let*' x ':=' r 'in' k" := (bind r (fun x => k))
  (at level 10, x pattern, r at level 100, k at level 200).

(** [throw LeptonError.create(message)] *)
Definition throwLepton {A} (message : jsstring) : result A :=
  Throw (LeptonErr (LeptonError_create message)).

(** The catch clause of the containers:
    [if (err instanceof LeptonError) err.path = [key, ...err.path]; throw err]. *)
Definition withPath {A} (key : jsstring) (r : result A) : result A :=
  match r with
  | Throw (LeptonErr e) =>
      Throw (LeptonErr (mkError (message e) (key :: path e) (issues e)))
  | _ => r
  end.

(* ================================================================== *)
(** * utils.ts *)
(* ================================================================== *)

(** The loop of [encodeVarInt]: while [value > 0n], emit the low seven bits,
    with the continuation bit when more follow.  [fuel] bounds the number of
    iterations. *)
Fixpoint encodeVarIntLoop (fuel : nat) (value : Z) : jsstring :=
  match fuel with
  | O => []
  | S f =>
      if 0 <? value then
        let byte := Z.land value 127 in
        let value := Z.shiftr value 7 in
        let byte := if 0 <? value then bor byte 128 else byte in
        hex2 byte ++ encodeVarIntLoop f value
      else []
  end.

(** [encodeVarInt(value: bigint): string] *)
Definition encodeVarInt (value : Z) : jsstring :=
  if value =? 0 then js "00"
  else encodeVarIntLoop (S (Z.to_nat (Z.log2 value))) value.

(** The first loop of [decodeVarInt]: the bytes read, two characters at a
    time, up to and including the first whose high bit is clear, or to the
    end of the input. *)
Fixpoint readVarIntBytes (encoded : jsstring) : list (option Z) :=
  match encoded with
  | [] => []
  | [c1] => [parseInt16 [c1]]
  | c1 :: c2 :: rest =>
      let byte := parseInt16 [c1; c2] in
      if band (orZero byte) 128 =? 0 then [byte]
      else byte :: readVarIntBytes rest
  end.

(** The second loop: [value |= BigInt(byte & 0x7f) << shift; shift += 7n]. *)
Fixpoint assembleVarInt (bytes : list (option Z)) (value shift : Z) : Z :=
  match bytes with
  | [] => value
  | byte :: bytes' =>
      assembleVarInt bytes'
        (Z.lor value (Z.shiftl (band (orZero byte) 127) shift)) (shift + 7)
  end.

(** [decodeVarInt(encoded: string): [bigint, string]] *)
Definition decodeVarInt (encoded : jsstring) : Z * jsstring :=
  let bytes := readVarIntBytes encoded in
  let bytesUsed := List.length bytes in
  (assembleVarInt bytes 0 0, sliceFrom (bytesUsed * 2) encoded).


(* ================================================================== *)
(** * The schema nodes *)
(* ================================================================== *)

(** A member of a TypeScript enum object: a string or a number. *)
Inductive enumMember :=
| EString (s : jsstring)
| ENumber (n : number).

(** A schema is a tree of nodes; an object's shape lists its fields in the
    order [Object.entries] enumerates them.  The width of an integer node is
    a number of bytes, that of a bit-width node a number of bits.  A native
    enum holds the enum object it was created from, as the list of its
    properties in enumeration order. *)
Inductive LeptonType :=
| LeptonSignedInt (width : nat)
| LeptonUnsignedInt (width : nat)
| LeptonBits (bitWidth : Z)
| LeptonBigInt
| LeptonBoolean
| LeptonString
| LeptonEnum (values : list jsstring)
| LeptonObject (shape : list (jsstring * LeptonType)) (isStrict : bool)
| LeptonOptional (wrappedType : LeptonType)
| LeptonNullable (wrappedType : LeptonType)
| LeptonArray (elementType : LeptonType)
| LeptonDouble
| LeptonFloat
| LeptonNativeEnum (enumObject : list (jsstring * enumMember)).

(** [typeof v === "number" && Number.isInteger(v)] *)
Definition asInteger (v : Value) : option Z :=
  match v with
  | VNum (NInt z) => Some z
  | _ => None
  end.

Definition expectedGot (what : string) (v : Value) : jsstring :=
  js "Expected " ++ js what ++ js ", got " ++ typeOf v.

(** [bytes.slice(i * 2, i * 2 + 2)] read as a hex number. *)
Definition byteAt (bytes : jsstring) (i : nat) : option Z :=
  parseInt16 (sliceTo 2 (sliceFrom (i * 2) bytes)).

(** ** primitive/integer.ts *)

Module SignedInt.
Definition bits (width : nat) : Z := Z.of_nat width * 8.
Definition minValue (width : nat) : Z := - 2 ^ (bits width - 1).
Definition maxValue (width : nat) : Z := 2 ^ (bits width - 1) - 1.

Definition outOfRange (width : nat) : jsstring :=
  js "Value out of range for signed int" ++ toString10 (bits width)
  ++ js ": must be between " ++ toString10 (minValue width)
  ++ js " and " ++ toString10 (maxValue width).

Definition parse (width : nat) (input : Value) : result Value :=
  match asInteger input with
  | None => throwLepton (expectedGot "integer" input)
  | Some z =>
      if (z <? minValue width) || (maxValue width <? z)
      then throwLepton (outOfRange width)
      else Ok input
  end.

Definition encode (width : nat) (value : Value) : result jsstring :=
  match asInteger value with
  | None => throwLepton (expectedGot "integer" value)
  | Some z =>
      if (z <? minValue width) || (maxValue width <? z)
      then throwLepton (outOfRange width)
      else
        let z := if z <? 0 then 2 ^ bits width + z else z in
        Ok (padStart0 (width * 2) (toString16 z))
  end.

Definition rawDecode (width : nat) (bytes : jsstring) : result (Value * jsstring) :=
  if len bytes <? Z.of_nat width * 2
  then throwLepton (js "Not enough bytes to decode int" ++ toString10 (bits width))
  else
    let value := parseInt16 (sliceTo (width * 2) bytes) in
    let isNegative := negb (band (orZero value) (shl 1 (bits width - 1)) =? 0) in
    let value := if isNegative then option_map (fun z => z - 2 ^ bits width) value
                 else value in
    Ok (VNum (numberOfParse value), sliceFrom (width * 2) bytes).
End SignedInt.

Module UnsignedInt.
Definition bits (width : nat) : Z := Z.of_nat width * 8.
Definition maxValue (width : nat) : Z := 2 ^ bits width - 1.

Definition outOfRange (width : nat) : jsstring :=
  js "Value out of range for unsigned uint" ++ toString10 (bits width)
  ++ js ": must be between 0 and " ++ toString10 (maxValue width).

Definition parse (width : nat) (input : Value) : result Value :=
  match asInteger input with
  | None => throwLepton (expectedGot "integer" input)
  | Some z =>
      if (z <? 0) || (maxValue width <? z)
      then throwLepton (outOfRange width)
      else Ok input
  end.

Definition encode (width : nat) (value : Value) : result jsstring :=
  match asInteger value with
  | None => throwLepton (expectedGot "integer" value)
  | Some z =>
      if (z <? 0) || (maxValue width <? z)
      then throwLepton (outOfRange width)
      else Ok (padStart0 (width * 2) (toString16 z))
  end.

Definition rawDecode (width : nat) (bytes : jsstring) : result (Value * jsstring) :=
  if len bytes <? Z.of_nat width * 2
  then throwLepton (js "Not enough bytes to decode uint" ++ toString10 (bits width))
  else
    let value := parseInt16 (sliceTo (width * 2) bytes) in
    Ok (VNum (numberOfParse value), sliceFrom (width * 2) bytes).
End UnsignedInt.

(** ** primitive/bits.ts *)

Module Bits.
(** [this.maxValue = (1 << bitWidth) - 1] *)
Definition maxValue (bitWidth : Z) : Z := shl 1 bitWidth - 1.

(** The check of the constructor. *)
Definition construct (bitWidth : Z) : result LeptonType :=
  if (bitWidth <=? 0) || (32 <? bitWidth)
  then throwLepton (js "Bit width must be between 1 and 32, got " ++ toString10 bitWidth)
  else Ok (LeptonBits bitWidth).

Definition outOfRange (bitWidth : Z) : jsstring :=
  js "Value out of range for " ++ toString10 bitWidth
  ++ js "-bit integer: must be between 0 and " ++ toString10 (maxValue bitWidth).

(** [Math.ceil(this.bitWidth / 8)] *)
Definition bytesNeeded (bitWidth : Z) : nat := Z.to_nat ((bitWidth + 7) / 8).

Definition parse (bitWidth : Z) (input : Value) : result Value :=
  match asInteger input with
  | None => throwLepton (expectedGot "integer" input)
  | Some z =>
      if (z <? 0) || (maxValue bitWidth <? z)
      then throwLepton (outOfRange bitWidth)
      else Ok input
  end.

Definition encode (bitWidth : Z) (value : Value) : result jsstring :=
  match asInteger value with
  | None => throwLepton (expectedGot "integer" value)
  | Some z =>
      if (z <? 0) || (maxValue bitWidth <? z)
      then throwLepton (outOfRange bitWidth)
      else
        let n := bytesNeeded bitWidth in
        Ok (flat_map
              (fun i : nat =>
                 let shift := Z.max 0 ((Z.of_nat n - Z.of_nat i - 1) * 8) in
                 hex2 (band (shr z shift) 255))
              (seq 0 n))
  end.

Definition rawDecode (bitWidth : Z) (bytes : jsstring) : result (Value * jsstring) :=
  let n := bytesNeeded bitWidth in
  if len bytes <? Z.of_nat n * 2
  then throwLepton (js "Not enough bytes to decode " ++ toString10 bitWidth ++ js "-bit integer")
  else
    let value :=
      fold_left (fun value i => bor (shl value 8) (orZero (byteAt bytes i))) (seq 0 n) 0 in
    let value :=
      if negb (Z.rem bitWidth 8 =? 0) then band value (shl 1 bitWidth - 1) else value in
    Ok (VNum (NInt value), sliceFrom (n * 2) bytes).
End Bits.

(** ** primitive/bigint.ts *)

Module BigInt.
Definition parse (input : Value) : result Value :=
  match input with
  | VBigInt _ => Ok input
  | _ => throwLepton (expectedGot "bigint" input)
  end.

Definition encode (value : Value) : result jsstring :=
  match value with
  | VBigInt z => Ok (encodeVarInt z)
  | _ => throwLepton (expectedGot "bigint" value)
  end.

Definition rawDecode (bytes : jsstring) : result (Value * jsstring) :=
  let '(value, rest) := decodeVarInt bytes in Ok (VBigInt value, rest).
End BigInt.

(** ** primitive/boolean.ts *)

Module Boolean.
Definition parse (input : Value) : result Value :=
  match input with
  | VBool b => Ok (VBool (if b then true else false))
  | _ => throwLepton (expectedGot "boolean" input)
  end.

Definition encode (value : Value) : result jsstring :=
  match value with
  | VBool b => Ok (hex2 (if b then 1 else 0))
  | _ => throwLepton (expectedGot "boolean" value)
  end.

Definition rawDecode (bytes : jsstring) : result (Value * jsstring) :=
  if len bytes <? 2 then throwLepton (js "Not enough bytes to decode boolean")
  else
    let value := parseInt16 (sliceTo 2 bytes) in
    let truthy := match value with Some z => negb (z =? 0) | None => false end in
    Ok (VBool truthy, sliceFrom 2 bytes).
End Boolean.

(** ** primitive/string.ts *)

Module String_.
Definition parse (input : Value) : result Value :=
  match input with
  | VStr _ => Ok input
  | _ => throwLepton (expectedGot "string" input)
  end.

(** No check of the argument: the text encoder converts it. *)
Definition encode (value : Value) : result jsstring :=
  match TextEncoder_encode value with
  | Some utf8Bytes =>
      Ok (encodeVarInt (Z.of_nat (List.length utf8Bytes)) ++ flat_map hex2 utf8Bytes)
  | None => Throw NativeError
  end.

(** [strLength = Number(length)] is [length] itself below 2^53; from there
    on it is at least 2^53, more than half the length a string can have, so
    that the test on [rest.length] is the test against [length]; the message
    prints [strLength]. *)
Definition rawDecode (bytes : jsstring) : result (Value * jsstring) :=
  let '(length, rest) := decodeVarInt bytes in
  if len rest <? length * 2
  then throwLepton (js "Not enough bytes to decode string of length "
                    ++ numberToString (numberOfBigInt length))
  else
    let strLength := Z.to_nat length in
    let strBytes := map (fun i => ToUint8_nan (byteAt rest i)) (seq 0 strLength) in
    Ok (VStr (utf8Decode strBytes), sliceFrom (strLength * 2) rest).
End String_.

(** ** primitive/enum.ts *)

Module Enum.
Definition isString (v : Value) : bool :=
  match v with VStr _ => true | _ => false end.

Definition stringOf (v : Value) : jsstring :=
  match v with VStr s => s | _ => [] end.

(** [new Set(values).size !== values.length] fails: no value occurs twice. *)
Fixpoint unique (values : list jsstring) : bool :=
  match values with
  | [] => true
  | v :: values' => negb (existsb (jsstring_eqb v) values') && unique values'
  end.

(** The constructor, applied to any argument. *)
Definition construct (values : Value) : result LeptonType :=
  match values with
  | VUndefined | VNull => throwLepton (js "Enum values cannot be null or undefined")
  | VArr elems =>
      if (List.length elems =? 0)%nat then throwLepton (js "Enum must have at least one value")
      else if negb (forallb isString elems)
      then throwLepton (js "All enum values must be of the same type (string)")
      else if negb (unique (map stringOf elems))
      then throwLepton (js "Enum values must be unique")
      else Ok (LeptonEnum (map stringOf elems))
  | _ => throwLepton (js "Enum values must be an array")
  end.

(** [this.valueMap.has(key)] *)
Definition has (values : list jsstring) (key : jsstring) : bool :=
  existsb (jsstring_eqb key) values.

(** [String(input)] throws a TypeError on some objects. *)
Definition parse (values : list jsstring) (input : Value) : result Value :=
  match ToString input with
  | Some text =>
      if negb (has values text)
      then throwLepton (js "Invalid enum value. Expected one of: " ++ join (js ", ") values
                        ++ js ", got: " ++ text)
      else Ok input
  | None => Throw NativeError
  end.

(** [this.values.indexOf(value)]: strict equality, -1 when absent. *)
Fixpoint indexOfFrom (values : list jsstring) (value : jsstring) (i : Z) : Z :=
  match values with
  | [] => -1
  | v :: values' => if jsstring_eqb v value then i else indexOfFrom values' value (i + 1)
  end.

Definition indexOf (values : list jsstring) (value : Value) : Z :=
  match value with
  | VStr s => indexOfFrom values s 0
  | _ => -1
  end.

Definition encode (values : list jsstring) (value : Value) : result jsstring :=
  let* _ := parse values value in
  let index := indexOf values value in
  Ok (padStart0 2 (toString16 index)).

(** [this.values[index]] for a number [index]. *)
Definition at_ (values : list jsstring) (index : option Z) : Value :=
  match index with
  | Some i =>
      if i <? 0 then VUndefined
      else match nth_error values (Z.to_nat i) with
           | Some s => VStr s
           | None => VUndefined
           end
  | None => VUndefined
  end.

Definition rawDecode (values : list jsstring) (bytes : jsstring)
  : result (Value * jsstring) :=
  if len bytes <? 2 then throwLepton (js "Not enough bytes to decode enum value")
  else
    let index := parseInt16 (sliceTo 2 bytes) in
    if match index with Some i => Z.of_nat (List.length values) <=? i | None => false end
    then throwLepton (js "Invalid enum index: " ++ numberToString (numberOfParse index))
    else Ok (at_ values index, sliceFrom 2 bytes).

(** [exclude(values)] and [extract(values)], on the options of the
    receiver. *)
Definition exclude (options : list jsstring) (values : list jsstring) : result LeptonType :=
  let filteredValues := filter (fun val => negb (has values val)) options in
  if (List.length filteredValues =? 0)%nat
  then throwLepton (js "Cannot exclude all values from an enum")
  else construct (VArr (map VStr filteredValues)).

Fixpoint extractCheck (options : list jsstring) (values : list jsstring) : result unit :=
  match values with
  | [] => Ok tt
  | val :: values' =>
      if negb (has options val)
      then throwLepton (js "Value " ++ [34] ++ val ++ [34] ++ js " is not in the enum")
      else extractCheck options values'
  end.

Definition extract (options : list jsstring) (values : list jsstring) : result LeptonType :=
  let* _ := extractCheck options values in
  if (List.length values =? 0)%nat
  then throwLepton (js "Cannot create an enum with no values")
  else construct (VArr (map VStr values)).

(** [get options()] *)
Definition options (t : LeptonType) : list jsstring :=
  match t with LeptonEnum values => values | _ => [] end.
End Enum.

(** ** primitive/double.ts *)

Module Double.
Definition parse (input : Value) : result Value :=
  match input with
  | VNum _ => Ok input
  | _ => throwLepton (expectedGot "number" input)
  end.

(** No check of the argument: [view.setFloat64(0, value, false)] converts
    it to a number, and the eight bytes of the buffer are printed. *)
Definition encode (value : Value) : result jsstring :=
  match ToNumber value with
  | Some n => Ok (flat_map hex2 (bytesBE 8 (numberBits binary64 n)))
  | None => Throw NativeError
  end.

Definition rawDecode (bytes : jsstring) : result (Value * jsstring) :=
  if len bytes <? 16 then throwLepton (js "Not enough bytes to decode double")
  else
    let stored := map (fun i => ToUint8_nan (byteAt bytes i)) (seq 0 8) in
    Ok (VNum (bitsNumber binary64 (bigEndian stored)), sliceFrom 16 bytes).
End Double.

(** ** primitive/float.ts *)

Module Float.
(** The part of [str] after its first "." and before the next, when
    [str] has a ".": [str.split(".")[1]]. *)
Fixpoint untilDot (s : jsstring) : jsstring :=
  match s with
  | [] => []
  | c :: s' => if c =? 46 then [] else c :: untilDot s'
  end.

Fixpoint fracPart (str : jsstring) : option jsstring :=
  match str with
  | [] => None
  | c :: str' => if c =? 46 then Some (untilDot str') else fracPart str'
  end.

(** [roundToPrecision(value, precision)] of utils.ts, on any argument:
    [value.toString()] throws on undefined and null and on an object whose
    own [toString] is data, [value.toFixed] is missing on what is not a
    number. *)
Definition roundToPrecision (value : Value) (precision : Z) : result Value :=
  match value with
  | VNum (NInt 0) => Ok (VNum (NInt 0))
  | VUndefined | VNull => Throw NativeError
  | _ =>
      match ToString value with
      | None => Throw NativeError
      | Some str =>
          match fracPart str with
          | Some frac =>
              if precision <? len frac then
                match value with
                | VNum n => Ok (VNum (roundFixed n precision))
                | _ => Throw NativeError
                end
              else Ok value
          | None => Ok value
          end
      end
  end.

Definition precision : Z := 7.

Definition parse (input : Value) : result Value :=
  match input with
  | VNum _ => roundToPrecision input precision
  | _ => throwLepton (expectedGot "number" input)
  end.

(** No check of the argument: [view.setFloat32(0, value, false)] converts
    what [roundToPrecision] returns to a number. *)
Definition encode (value : Value) : result jsstring :=
  let* value := roundToPrecision value precision in
  match ToNumber value with
  | Some n => Ok (flat_map hex2 (bytesBE 4 (numberBits binary32 n)))
  | None => Throw NativeError
  end.

Definition rawDecode (bytes : jsstring) : result (Value * jsstring) :=
  if len bytes <? 8 then throwLepton (js "Not enough bytes to decode float")
  else
    let stored := map (fun i => ToUint8_nan (byteAt bytes i)) (seq 0 4) in
    let* value := roundToPrecision (VNum (bitsNumber binary32 (bigEndian stored))) precision in
    Ok (value, sliceFrom 8 bytes).
End Float.

(** ** primitive/enum.ts: the native enum *)

Module NativeEnum.
Definition valueOf (member : enumMember) : Value :=
  match member with EString s => VStr s | ENumber n => VNum n end.

Definition isNumber (member : enumMember) : bool :=
  match member with ENumber _ => true | EString _ => false end.

(** [Object.keys(enumObject).filter((k) => isNaN(Number(k)))] *)
Definition enumKeys (enumObject : list (jsstring * enumMember)) : list jsstring :=
  filter (fun k => isNaN (stringToNumber k)) (map fst enumObject).

(** [create(enumObject)] *)
Definition create (enumObject : list (jsstring * enumMember)) : result LeptonType :=
  if (List.length (enumKeys enumObject) =? 0)%nat
  then throwLepton (js "No valid enum keys found")
  else Ok (LeptonNativeEnum enumObject).

(** [typeof enumObject[keys[0]] === "number"] *)
Definition isNumericEnum (enumObject : list (jsstring * enumMember)) : bool :=
  match enumKeys enumObject with
  | key :: _ => match lookup key enumObject with
                | Some member => isNumber member
                | None => false
                end
  | [] => false
  end.

(** [member === input] *)
Definition same (member : enumMember) (input : Value) : bool :=
  match member, input with
  | EString s, VStr s' => jsstring_eqb s s'
  | ENumber n, VNum n' => numberEq n n'
  | _, _ => false
  end.

Definition memberText (member : enumMember) : jsstring :=
  match member with EString s => s | ENumber n => numberToString n end.

(** [input = Number(input)] on a numeric enum given a string that reads as
    a number. *)
Definition coerce (enumObject : list (jsstring * enumMember)) (input : Value) : Value :=
  match input with
  | VStr s =>
      if isNumericEnum enumObject && negb (isNaN (stringToNumber s))
      then VNum (stringToNumber s) else input
  | _ => input
  end.

Definition parse (enumObject : list (jsstring * enumMember)) (input : Value)
  : result Value :=
  let input := coerce enumObject input in
  if existsb (fun key => match lookup key enumObject with
                         | Some member => same member input
                         | None => false
                         end) (enumKeys enumObject)
  then Ok input
  else
    match ToString input with
    | Some text =>
        throwLepton (js "Invalid enum value. Expected one of: "
                     ++ join (js ", ")
                          (map (fun key => match lookup key enumObject with
                                           | Some member => memberText member
                                           | None => []
                                           end) (enumKeys enumObject))
                     ++ js ", got: " ++ text)
    | None => Throw NativeError
    end.

(** [Object.values(enumObject).filter((val) =>
      (typeof val === "string") === !isNumericEnum || typeof val === "number")] *)
Definition validValues (enumObject : list (jsstring * enumMember)) : list enumMember :=
  filter (fun val => Bool.eqb (negb (isNumber val)) (negb (isNumericEnum enumObject))
                     || isNumber val)
         (map snd enumObject).

(** [validValues.indexOf(value)] *)
Fixpoint indexOfFrom (members : list enumMember) (value : Value) (i : Z) : Z :=
  match members with
  | [] => -1
  | member :: members' =>
      if same member value then i else indexOfFrom members' value (i + 1)
  end.

Definition encode (enumObject : list (jsstring * enumMember)) (value : Value)
  : result jsstring :=
  let* _ := parse enumObject value in
  let valueIndex := indexOfFrom (validValues enumObject) value 0 in
  if valueIndex =? -1 then
    match ToString value with
    | Some text => throwLepton (js "Could not encode enum value: " ++ text)
    | None => Throw NativeError
    end
  else Ok (padStart0 2 (toString16 valueIndex)).

(** [validValues[index]] for a number [index]. *)
Definition at_ (members : list enumMember) (index : option Z) : Value :=
  match index with
  | Some i =>
      if i <? 0 then VUndefined
      else match nth_error members (Z.to_nat i) with
           | Some member => valueOf member
           | None => VUndefined
           end
  | None => VUndefined
  end.

Definition rawDecode (enumObject : list (jsstring * enumMember)) (bytes : jsstring)
  : result (Value * jsstring) :=
  if len bytes <? 2 then throwLepton (js "Not enough bytes to decode enum value")
  else
    let index := parseInt16 (sliceTo 2 bytes) in
    let validValues := validValues enumObject in
    if match index with Some i => Z.of_nat (List.length validValues) <=? i | None => false end
    then throwLepton (js "Invalid enum index: " ++ numberToString (numberOfParse index))
    else Ok (at_ validValues index, sliceFrom 2 bytes).
End NativeEnum.

(** ** The methods of a node, as the containers call them *)

Record methods := mkMethods {
  m_parse : Value -> result Value;
  m_encode : Value -> result jsstring;
  m_rawDecode : jsstring -> result (Value * jsstring);
  (** [schema instanceof LeptonOptional] *)
  m_isOptional : bool
}.

(** ** wrapper/optional.ts *)

Module Optional.
Definition parse (wrappedType : methods) (input : Value) : result Value :=
  match input with
  | VUndefined => Ok VUndefined
  | _ => m_parse wrappedType input
  end.

Definition encode (wrappedType : methods) (value : Value) : result jsstring :=
  match value with
  | VUndefined => Ok (js "00")
  | _ => let* inner := m_encode wrappedType value in Ok (js "01" ++ inner)
  end.

Definition rawDecode (wrappedType : methods) (bytes : jsstring)
  : result (Value * jsstring) :=
  if len bytes <? 2
  then throwLepton (js "Not enough bytes to decode optional presence flag")
  else
    let presenceFlag := parseInt16 (sliceTo 2 bytes) in
    let rest := sliceFrom 2 bytes in
    match presenceFlag with
    | Some 0 => Ok (VUndefined, rest)
    | _ => m_rawDecode wrappedType rest
    end.
End Optional.

(** ** wrapper/nullable.ts *)

Module Nullable.
Definition parse (wrappedType : methods) (input : Value) : result Value :=
  match input with
  | VNull => Ok VNull
  | _ => m_parse wrappedType input
  end.

Definition encode (wrappedType : methods) (value : Value) : result jsstring :=
  match value with
  | VNull => Ok (js "01")
  | _ => let* inner := m_encode wrappedType value in Ok (js "00" ++ inner)
  end.

Definition rawDecode (wrappedType : methods) (bytes : jsstring)
  : result (Value * jsstring) :=
  if len bytes <? 2 then throwLepton (js "Not enough bytes to decode nullable flag")
  else
    let nullFlag := parseInt16 (sliceTo 2 bytes) in
    let rest := sliceFrom 2 bytes in
    match nullFlag with
    | Some 1 => Ok (VNull, rest)
    | _ => m_rawDecode wrappedType rest
    end.
End Nullable.

(** ** wrapper/array.ts *)

Module Array.
(** The loop of [parse], from index [i]. *)
Fixpoint parseFrom (elementType : methods) (i : nat) (input : list Value)
  : result (list Value) :=
  match input with
  | [] => Ok []
  | x :: input' =>
      let* v := withPath (indexKey i) (m_parse elementType x) in
      let* vs := parseFrom elementType (S i) input' in
      Ok (v :: vs)
  end.

Definition parse (elementType : methods) (input : Value) : result Value :=
  match input with
  | VArr elems => let* vs := parseFrom elementType 0 elems in Ok (VArr vs)
  | _ => throwLepton (expectedGot "array" input)
  end.

(** [for (const element of value) result += this.elementType.encode(element)] *)
Fixpoint encodeElements (elementType : methods) (elements : list Value)
  : result jsstring :=
  match elements with
  | [] => Ok []
  | x :: elements' =>
      let* b := m_encode elementType x in
      let* bs := encodeElements elementType elements' in
      Ok (b ++ bs)
  end.

(** No check of the argument.  An array is encoded; a string has a length
    and is iterated by code point; any other value makes [value.length],
    [BigInt(undefined)] or the iteration throw a platform error. *)
Definition encode (elementType : methods) (value : Value) : result jsstring :=
  match value with
  | VArr elems =>
      let* bs := encodeElements elementType elems in
      Ok (encodeVarInt (Z.of_nat (List.length elems)) ++ bs)
  | VStr s =>
      let* bs := encodeElements elementType (map VStr (codePointStrings s)) in
      Ok (encodeVarInt (len s) ++ bs)
  | _ => Throw NativeError
  end.

(** The loop of [_rawDecode]: [count] more elements, the next at index [i]. *)
Fixpoint decodeElements (elementType : methods) (count : nat) (i : nat)
  (remaining : jsstring) : result (list Value * jsstring) :=
  match count with
  | O => Ok ([], remaining)
  | S count' =>
      let* (element, nextRemaining) :=
        withPath (indexKey i) (m_rawDecode elementType remaining) in
      let* (elements, rest) := decodeElements elementType count' (S i) nextRemaining in
      Ok (element :: elements, rest)
  end.

(** [arrayLength = Number(length)] is [length] itself below 2^53, more
    elements than an array holds. *)
Definition rawDecode (elementType : methods) (bytes : jsstring)
  : result (Value * jsstring) :=
  let '(length, rest) := decodeVarInt bytes in
  let arrayLength := Z.to_nat length in
  let* (res, remaining) := decodeElements elementType arrayLength 0 rest in
  Ok (VArr res, remaining).
End Array.

(** ** primitive/object.ts *)

Module Object_.
(** [typeof input === "object" && input !== null] *)
Definition isObject (v : Value) : bool :=
  match v with VArr _ | VObj _ => true | _ => false end.

(** [Object.keys(inputObj).filter((key) => !(key in this.shape))] *)
Definition extraKeys {A} (shape : list (jsstring * A)) (input : Value) : list jsstring :=
  filter (fun key => negb (inShape key shape)) (objectKeys input).

(** The loop of [parse] over the entries of the shape; [res] is the
    object [result] built so far. *)
Fixpoint parseFields (entries : list (jsstring * methods)) (input : Value)
  (res : list (jsstring * Value)) : result Value :=
  match entries with
  | [] => Ok (VObj res)
  | (key, schema) :: entries' =>
      if negb (hasProperty key input) && negb (m_isOptional schema)
      then throwLepton (js "Missing required property: " ++ key)
      else if hasProperty key input then
        let* v := withPath key (m_parse schema (getProperty input key)) in
        parseFields entries' input (setProperty res key v)
      else parseFields entries' input res
  end.

Definition parse (entries : list (jsstring * methods)) (isStrict : bool) (input : Value)
  : result Value :=
  if negb (isObject input) then throwLepton (expectedGot "object" input)
  else if isStrict && negb (List.length (extraKeys entries input) =? 0)%nat
  then throwLepton (js "Unrecognized key(s) in object: "
                    ++ join (js ", ") (extraKeys entries input))
  else parseFields entries input [].

(** The loop of [encode]: reading a property of undefined or null is a
    platform error. *)
Fixpoint encodeFields (entries : list (jsstring * methods)) (value : Value)
  : result jsstring :=
  match entries with
  | [] => Ok []
  | (key, schema) :: entries' =>
      match value with
      | VUndefined | VNull => Throw NativeError
      | _ =>
          let* b := m_encode schema (getProperty value key) in
          let* bs := encodeFields entries' value in
          Ok (b ++ bs)
      end
  end.

Definition encode (entries : list (jsstring * methods)) (value : Value) : result jsstring :=
  encodeFields entries value.

(** The loop of [_rawDecode]. *)
Fixpoint decodeFields (entries : list (jsstring * methods))
  (res : list (jsstring * Value)) (remaining : jsstring)
  : result (Value * jsstring) :=
  match entries with
  | [] => Ok (VObj res, remaining)
  | (key, schema) :: entries' =>
      let* (fieldValue, nextRemaining) := withPath key (m_rawDecode schema remaining) in
      decodeFields entries' (setProperty res key fieldValue) nextRemaining
  end.

Definition rawDecode (entries : list (jsstring * methods)) (bytes : jsstring)
  : result (Value * jsstring) :=
  decodeFields entries [] bytes.

(** *** Derivations, on the shape and the strictness of the receiver *)

(** [{...first, ...second}] *)
Definition mergeShapes {A} (first second : list (jsstring * A)) : list (jsstring * A) :=
  fold_left (fun acc e => setProperty acc (fst e) (snd e)) second first.

Definition strict (shape : list (jsstring * LeptonType)) (isStrict : bool) : LeptonType :=
  LeptonObject shape true.

Definition extend (shape : list (jsstring * LeptonType)) (isStrict : bool)
  (added : list (jsstring * LeptonType)) : LeptonType :=
  LeptonObject (mergeShapes shape added) isStrict.

(** [pick(keys)]: a key that the shape has goes into the new shape with
    its schema.  A key that the shape only inherits from Object.prototype
    goes in as well, with the inherited method for a schema, and the key
    [__proto__] sets the prototype of the new shape: the new shape is then
    not a shape of schemas, and the result is [None]. *)
Definition pick (shape : list (jsstring * LeptonType)) (isStrict : bool)
  (keys : list jsstring) : option LeptonType :=
  if existsb (fun key => match lookup key shape with
                         | Some _ => jsstring_eqb key (js "__proto__")
                         | None => inObjectPrototype key
                         end) keys
  then None
  else
    Some (LeptonObject
            (fold_left (fun newShape key =>
                          match lookup key shape with
                          | Some schema => setProperty newShape key schema
                          | None => newShape
                          end) keys [])
            isStrict).

Definition omit (shape : list (jsstring * LeptonType)) (isStrict : bool)
  (keys : list jsstring) : LeptonType :=
  LeptonObject
    (filter (fun e => negb (existsb (jsstring_eqb (fst e)) keys)) shape)
    isStrict.

Definition merge (shape : list (jsstring * LeptonType)) (isStrict : bool)
  (shape' : list (jsstring * LeptonType)) (isStrict' : bool) : LeptonType :=
  LeptonObject (mergeShapes shape shape') (isStrict || isStrict').

Definition partial (shape : list (jsstring * LeptonType)) (isStrict : bool) : LeptonType :=
  LeptonObject
    (map (fun e => match snd e with
                   | LeptonOptional _ => e
                   | schema => (fst e, LeptonOptional schema)
                   end) shape)
    isStrict.
End Object_.

(** ** types.ts: the methods of every node *)

Fixpoint methodsOf (t : LeptonType) : methods :=
  match t with
  | LeptonSignedInt width =>
      mkMethods (SignedInt.parse width) (SignedInt.encode width)
                (SignedInt.rawDecode width) false
  | LeptonUnsignedInt width =>
      mkMethods (UnsignedInt.parse width) (UnsignedInt.encode width)
                (UnsignedInt.rawDecode width) false
  | LeptonBits bitWidth =>
      mkMethods (Bits.parse bitWidth) (Bits.encode bitWidth) (Bits.rawDecode bitWidth) false
  | LeptonBigInt => mkMethods BigInt.parse BigInt.encode BigInt.rawDecode false
  | LeptonBoolean => mkMethods Boolean.parse Boolean.encode Boolean.rawDecode false
  | LeptonString => mkMethods String_.parse String_.encode String_.rawDecode false
  | LeptonEnum values =>
      mkMethods (Enum.parse values) (Enum.encode values) (Enum.rawDecode values) false
  | LeptonObject shape isStrict =>
      let entries := map (fun e => let '(key, schema) := e in (key, methodsOf schema)) shape in
      mkMethods (Object_.parse entries isStrict) (Object_.encode entries)
                (Object_.rawDecode entries) false
  | LeptonOptional wrappedType =>
      let m := methodsOf wrappedType in
      mkMethods (Optional.parse m) (Optional.encode m) (Optional.rawDecode m) true
  | LeptonNullable wrappedType =>
      let m := methodsOf wrappedType in
      mkMethods (Nullable.parse m) (Nullable.encode m) (Nullable.rawDecode m) false
  | LeptonArray elementType =>
      let m := methodsOf elementType in
      mkMethods (Array.parse m) (Array.encode m) (Array.rawDecode m) false
  | LeptonDouble => mkMethods Double.parse Double.encode Double.rawDecode false
  | LeptonFloat => mkMethods Float.parse Float.encode Float.rawDecode false
  | LeptonNativeEnum enumObject =>
      mkMethods (NativeEnum.parse enumObject) (NativeEnum.encode enumObject)
                (NativeEnum.rawDecode enumObject) false
  end.

Definition parse (t : LeptonType) : Value -> result Value := m_parse (methodsOf t).
Definition encode (t : LeptonType) : Value -> result jsstring := m_encode (methodsOf t).
Definition rawDecode (t : LeptonType) : jsstring -> result (Value * jsstring) :=
  m_rawDecode (methodsOf t).

(** [decode(bytes)]: [_rawDecode], the remainder dropped, then [parse]. *)
Definition decode (t : LeptonType) (bytes : jsstring) : result Value :=
  let* (value, _) := rawDecode t bytes in
  parse t value.

(** The factory functions. *)
Definition int8 := LeptonSignedInt 1.
Definition int16 := LeptonSignedInt 2.
Definition int32 := LeptonSignedInt 4.
Definition uint8 := LeptonUnsignedInt 1.
Definition uint16 := LeptonUnsignedInt 2.
Definition uint32 := LeptonUnsignedInt 4.
Definition bits (width : Z) : result LeptonType := Bits.construct width.
Definition object (shape : list (jsstring * LeptonType)) : LeptonType :=
  LeptonObject shape false.


(* ================================================================== *)
(** * Notions used by the statements *)
(* ================================================================== *)

(** A sequence of bytes on the wire: two hex characters per byte. *)
Definition byteString (bytes : list Z) : jsstring := flat_map hex2 bytes.

Definition isByte (b : Z) : Prop := 0 <= b < 256.

(** The two hex characters of a byte, high digit first. *)
Definition hexPair (b : Z) : jsstring := [hexDigit (b / 16); hexDigit (b mod 16)].

(** The [k] hex digits of [z], most significant first. *)
Fixpoint hexFixed (k : nat) (z : Z) : jsstring :=
  match k with
  | O => []
  | S k' => hexFixed k' (z / 16) ++ [hexDigit (z mod 16)]
  end.

(** The integer whose base-128 digits, least significant first, are the low
    seven bits of the bytes. *)
Fixpoint lowSevenBits (bytes : list Z) : Z :=
  match bytes with
  | [] => 0
  | b :: bytes' => b mod 128 + 128 * lowSevenBits bytes'
  end.

(** The primitive codecs whose [encode] checks its argument. *)
Definition checkedPrimitive (t : LeptonType) : bool :=
  match t with
  | LeptonSignedInt _ | LeptonUnsignedInt _ | LeptonBits _
  | LeptonBigInt | LeptonBoolean | LeptonEnum _ => true
  | _ => false
  end.

Fixpoint uniqueKeys {A} (shape : list (jsstring * A)) : bool :=
  match shape with
  | [] => true
  | (k, _) :: shape' =>
      match lookup k shape' with Some _ => false | None => uniqueKeys shape' end
  end.

Definition factoryWidth (width : nat) : bool :=
  ((width =? 1) || (width =? 2) || (width =? 4))%nat.

(** Field names that no plain object inherits: for them [key in input] is
    the test of an own property. *)
Definition plainKeys {A} (shape : list (jsstring * A)) : bool :=
  forallb (fun e => negb (inObjectPrototype (fst e))) shape.

(** Schemas as the factories make them: integer widths of 1, 2 or 4 bytes,
    bit widths the constructor admits, enums that pass their constructor and
    whose indices fit one byte, native enums that pass [create] and whose
    indices fit one byte, objects with distinct field names, none of them a
    name of Object.prototype. *)
Fixpoint wellFormed (t : LeptonType) : bool :=
  match t with
  | LeptonSignedInt width | LeptonUnsignedInt width => factoryWidth width
  | LeptonBits bitWidth => (1 <=? bitWidth) && (bitWidth <=? 32)
  | LeptonBigInt | LeptonBoolean | LeptonString | LeptonDouble | LeptonFloat => true
  | LeptonEnum values =>
      negb (List.length values =? 0)%nat && Enum.unique values
      && (List.length values <=? 256)%nat
  | LeptonNativeEnum enumObject =>
      negb (List.length (NativeEnum.enumKeys enumObject) =? 0)%nat
      && (List.length (NativeEnum.validValues enumObject) <=? 256)%nat
  | LeptonObject shape _ =>
      uniqueKeys shape && plainKeys shape
      && forallb (fun e => let '(_, schema) := e in wellFormed schema) shape
  | LeptonOptional wrappedType | LeptonNullable wrappedType => wellFormed wrappedType
  | LeptonArray elementType => wellFormed elementType
  end.

(** A Unicode scalar value: a code point that is not a surrogate. *)
Definition isScalarValue (cp : Z) : Prop :=
  0 <= cp < 1114112 /\ ~ (55296 <= cp <= 57343).

(** Surrogates come in pairs, a high one followed by a low one. *)
Fixpoint pairedSurrogates (s : jsstring) : bool :=
  match s with
  | [] => true
  | c :: s' =>
      if isHighSurrogate c then
        match s' with
        | d :: s'' => isLowSurrogate d && pairedSurrogates s''
        | [] => false
        end
      else negb (isLowSurrogate c) && pairedSurrogates s'
  end.

(** A string of 16-bit code units without a lone surrogate and without a
    leading byte order mark. *)
Definition wellFormedString (s : jsstring) : bool :=
  forallb (fun c => (0 <=? c) && (c <? 65536)) s
  && pairedSurrogates s
  && match s with 65279 :: _ => false | _ => true end.

Fixpoint oddPart (m : positive) : positive :=
  match m with
  | xO m' => oddPart m'
  | _ => m
  end.

(** The numbers that a binary format holds exactly.  With [binary64] these
    are the Numbers. *)
Definition inFormat (f : binaryFormat) (n : number) : bool :=
  match n with
  | NNaN | NInfinity _ => true
  | NInt z =>
      match Z.abs z with
      | Zpos m => (Zpos (oddPart m) <? 2 ^ (fracBits f + 1)) && (Zpos m <? 2 ^ (bias f + 1))
      | _ => true
      end
  | NFrac _ m e =>
      match m with xO _ => false | _ => true end
      && (e <? 0) && (emin f <=? e) && (Zpos m <? 2 ^ (fracBits f + 1))
  end.

(** A number whose text has no more fractional digits than the float codec
    keeps: [roundToPrecision] returns it as it is. *)
Definition withinPrecision (n : number) : bool :=
  match Float.fracPart (numberToString n) with
  | Some frac => len frac <=? Float.precision
  | None => true
  end.

(** The values whose leaves the wire carries unchanged under a schema: a
    big integer is not negative, a string is well formed, an enum slot holds
    a string, a double slot a Number, a float slot a number that binary32
    holds exactly and whose text has at most seven fractional digits, the
    slot of a numeric native enum no string; an object slot holds a plain
    object. *)
Fixpoint representable (t : LeptonType) (v : Value) {struct t} : bool :=
  match t with
  | LeptonBigInt => match v with VBigInt z => 0 <=? z | _ => false end
  | LeptonString => match v with VStr s => wellFormedString s | _ => false end
  | LeptonEnum _ => Enum.isString v
  | LeptonDouble => match v with VNum n => inFormat binary64 n | _ => false end
  | LeptonFloat =>
      match v with VNum n => inFormat binary32 n && withinPrecision n | _ => false end
  | LeptonNativeEnum enumObject =>
      negb (NativeEnum.isNumericEnum enumObject && Enum.isString v)
  | LeptonObject shape _ =>
      match v with
      | VObj _ =>
          forallb (fun e => let '(key, schema) := e in
                            representable schema (getProperty v key)) shape
      | _ => false
      end
  | LeptonOptional wrappedType =>
      match v with VUndefined => true | _ => representable wrappedType v end
  | LeptonNullable wrappedType =>
      match v with VNull => true | _ => representable wrappedType v end
  | LeptonArray elementType =>
      match v with VArr elems => forallb (representable elementType) elems | _ => false end
  | _ => true
  end.

(** Equality of values up to object properties that hold undefined: an
    object with a property set to undefined and one without it are the same
    (and the order of the properties does not count). *)
Inductive sameValue : Value -> Value -> Prop :=
| sameValue_refl v : sameValue v v
| sameValue_array elems elems' :
    Forall2 sameValue elems elems' -> sameValue (VArr elems) (VArr elems')
| sameValue_object props props' :
    (forall key, sameValue (getProperty (VObj props) key) (getProperty (VObj props') key)) ->
    sameValue (VObj props) (VObj props').

(** What [parse] makes of the field [key] of [v] under the methods [m] of its
    schema; undefined when it makes nothing of it. *)
Definition fieldResult (v : Value) (key : jsstring) (m : methods) : Value :=
  match m_parse m (getProperty v key) with
  | Ok y => y
  | Throw _ => VUndefined
  end.

(** A round trip through a node: [encode] succeeds on [v], and from its
    bytes, whatever follows them, [_rawDecode] reads a value [r] and leaves
    what followed; [parse] accepts [r] as it is, and [r] is the same as
    [v']. *)
Definition roundTrips (m : methods) (v v' : Value) : Prop :=
  exists bytes r,
    m_encode m v = Ok bytes /\
    (forall rest, m_rawDecode m (bytes ++ rest) = Ok (r, rest)) /\
    m_parse m r = Ok r /\
    sameValue r v'.

(** Every object node of a schema has distinct field names. *)
Fixpoint distinctFields (t : LeptonType) : bool :=
  match t with
  | LeptonObject shape _ =>
      uniqueKeys shape
      && forallb (fun e => let '(_, schema) := e in distinctFields schema) shape
  | LeptonOptional wrappedType | LeptonNullable wrappedType => distinctFields wrappedType
  | LeptonArray elementType => distinctFields elementType
  | _ => true
  end.

(** The two fields of an object node, [this.shape] and [this.isStrict]. *)
Definition shapeOf (t : LeptonType) : list (jsstring * LeptonType) :=
  match t with LeptonObject shape _ => shape | _ => [] end.

Definition isStrictOf (t : LeptonType) : bool :=
  match t with LeptonObject _ isStrict => isStrict | _ => false end.


(** [p] holds of every node of a schema. *)
Fixpoint forallNodes (p : LeptonType -> bool) (t : LeptonType) : bool :=
  p t &&
  match t with
  | LeptonObject shape _ =>
      forallb (fun e => let '(_, schema) := e in forallNodes p schema) shape
  | LeptonOptional wrappedType | LeptonNullable wrappedType => forallNodes p wrappedType
  | LeptonArray elementType => forallNodes p elementType
  | _ => true
  end.

Definition isFloat (t : LeptonType) : bool :=
  match t with LeptonFloat => true | _ => false end.

Definition isNativeEnum (t : LeptonType) : bool :=
  match t with LeptonNativeEnum _ => true | _ => false end.

(** The field names of an object node are names that no plain object
    inherits. *)
Definition plainNode (t : LeptonType) : bool :=
  match t with LeptonObject shape _ => plainKeys shape | _ => true end.

(** Every object node of a schema has field names that no plain object
    inherits. *)
Definition plainFields (t : LeptonType) : bool := forallNodes plainNode t.

(** No array stands where the schema has an object node: the objects the
    schema reads are plain objects, whose properties [hasProperty] and
    [getProperty] give for the field names of [plainFields]. *)
Fixpoint plainObjects (t : LeptonType) (v : Value) {struct t} : bool :=
  match t with
  | LeptonObject shape _ =>
      match v with
      | VArr _ => false
      | _ => forallb (fun e => let '(key, schema) := e in
                               plainObjects schema (getProperty v key)) shape
      end
  | LeptonOptional wrappedType | LeptonNullable wrappedType => plainObjects wrappedType v
  | LeptonArray elementType =>
      match v with VArr elems => forallb (plainObjects elementType) elems | _ => true end
  | _ => true
  end.

(** Values that [String] and template literals print: no object in them
    has a property [toString] of its own. *)
Fixpoint printable (v : Value) : bool :=
  match v with
  | VArr elems => forallb printable elems
  | VObj props =>
      match lookup (js "toString") props with Some _ => false | None => true end
      && forallb (fun e => let '(_, x) := e in printable x) props
  | _ => true
  end.
(* ================================================================== *)
(** * Facts about the platform operations *)
(* ================================================================== *)

Lemma jsstring_eqb_eq a b : jsstring_eqb a b = true <-> a = b.
Proof.
  unfold jsstring_eqb. destruct (list_eq_dec Z.eq_dec a b); split; congruence.
Qed.

Lemma jsstring_eqb_refl a : jsstring_eqb a a = true.
Proof. apply jsstring_eqb_eq. reflexivity. Qed.

Lemma jsstring_eqb_neq a b : jsstring_eqb a b = false <-> a <> b.
Proof.
  unfold jsstring_eqb. destruct (list_eq_dec Z.eq_dec a b); split; congruence.
Qed.

(** A property of bytes that a computation checks on each of the 256. *)
Lemma byte_check (f : Z -> bool) :
  forallb f (map Z.of_nat (seq 0 256)) = true ->
  forall b, isByte b -> f b = true.
Proof.
  intros H b [Hlo Hhi]. rewrite forallb_forall in H. apply H.
  apply in_map_iff. exists (Z.to_nat b). split; [lia|].
  apply in_seq. lia.
Qed.

Lemma hex2_pair b : isByte b -> hex2 b = hexPair b.
Proof.
  intros Hb. apply jsstring_eqb_eq.
  revert b Hb. apply byte_check. vm_compute. reflexivity.
Qed.

Lemma parseInt16_pair b : isByte b -> parseInt16 (hexPair b) = Some b.
Proof.
  intros Hb.
  assert (H : (match parseInt16 (hexPair b) with Some z => z =? b | None => false end) = true).
  { revert b Hb. apply byte_check. vm_compute. reflexivity. }
  destruct (parseInt16 (hexPair b)); [|discriminate].
  apply Z.eqb_eq in H. congruence.
Qed.

Lemma ToInt32_small z : - 2 ^ 31 <= z < 2 ^ 31 -> ToInt32 z = z.
Proof.
  intros H. unfold ToInt32. rewrite Z.mod_small; lia.
Qed.

Lemma band_small a b :
  - 2 ^ 31 <= a < 2 ^ 31 -> - 2 ^ 31 <= b < 2 ^ 31 -> band a b = Z.land a b.
Proof. intros. unfold band. rewrite !ToInt32_small; auto. Qed.

Lemma bor_small a b :
  - 2 ^ 31 <= a < 2 ^ 31 -> - 2 ^ 31 <= b < 2 ^ 31 -> bor a b = Z.lor a b.
Proof. intros. unfold bor. rewrite !ToInt32_small; auto. Qed.

Lemma byteString_cons b bytes : byteString (b :: bytes) = hex2 b ++ byteString bytes.
Proof. reflexivity. Qed.

Lemma byteString_length bytes :
  Forall isByte bytes -> List.length (byteString bytes) = (2 * List.length bytes)%nat.
Proof.
  induction 1 as [|b bytes Hb _ IH]; [reflexivity|].
  rewrite byteString_cons, length_app, IH, hex2_pair by assumption. simpl. lia.
Qed.

(** One step of the first loop of [decodeVarInt] on a well-formed byte. *)
Lemma readVarIntBytes_byte b rest :
  isByte b ->
  readVarIntBytes (hex2 b ++ rest) =
    if Z.land b 128 =? 0 then [Some b] else Some b :: readVarIntBytes rest.
Proof.
  intros Hb. rewrite hex2_pair by assumption.
  change (hexPair b ++ rest) with (hexDigit (b / 16) :: hexDigit (b mod 16) :: rest).
  cbn [readVarIntBytes].
  change [hexDigit (b / 16); hexDigit (b mod 16)] with (hexPair b).
  rewrite parseInt16_pair by assumption. cbn [orZero].
  rewrite band_small by (unfold isByte in Hb; lia). reflexivity.
Qed.

Lemma land_128_high b : 128 <= b < 256 -> (Z.land b 128 =? 0) = false.
Proof.
  intros Hb.
  assert (H : forall b, isByte b -> ((b <? 128) || negb (Z.land b 128 =? 0)) = true).
  { apply byte_check. vm_compute. reflexivity. }
  specialize (H b ltac:(unfold isByte; lia)).
  destruct (b <? 128) eqn:E; [apply Z.ltb_lt in E; lia|].
  simpl in H. now apply negb_true_iff in H.
Qed.

Lemma land_128_low b : 0 <= b < 128 -> (Z.land b 128 =? 0) = true.
Proof.
  intros Hb.
  assert (H : forall b, isByte b -> ((128 <=? b) || (Z.land b 128 =? 0)) = true).
  { apply byte_check. vm_compute. reflexivity. }
  specialize (H b ltac:(unfold isByte; lia)).
  destruct (128 <=? b) eqn:E; [apply Z.leb_le in E; lia|]. exact H.
Qed.

Lemma land_127_byte b : isByte b -> Z.land b 127 = b mod 128.
Proof. intros _. change 127 with (Z.ones 7). now rewrite Z.land_ones by lia. Qed.

(** Or-ing in bits that all lie above those of [value] adds them. *)
Lemma lor_above value x shift :
  0 <= shift -> 0 <= value < 2 ^ shift ->
  Z.lor value (x * 2 ^ shift) = value + x * 2 ^ shift.
Proof.
  intros Hs Hv.
  assert (Hland : Z.land value (x * 2 ^ shift) = 0).
  { apply Z.bits_inj'. intros n Hn. rewrite Z.land_spec, Z.bits_0.
    destruct (Z.lt_ge_cases n shift) as [Hlt|Hge].
    - rewrite Z.mul_pow2_bits_low by lia. apply andb_false_r.
    - replace (Z.testbit value n) with false; [reflexivity|].
      symmetry. destruct (Z.eq_dec value 0) as [->|Hnz]; [apply Z.bits_0|].
      apply Z.bits_above_log2; [lia|].
      apply Z.lt_le_trans with shift; [|lia]. apply Z.log2_lt_pow2; lia. }
  rewrite <- Z.lxor_lor by exact Hland.
  symmetry. apply Z.add_nocarry_lxor. exact Hland.
Qed.

(** The value the second loop assembles from well-formed bytes. *)
Lemma assembleVarInt_bytes bytes : forall value shift,
  Forall isByte bytes -> 0 <= shift -> 0 <= value < 2 ^ shift ->
  assembleVarInt (map Some bytes) value shift = value + 2 ^ shift * lowSevenBits bytes.
Proof.
  induction bytes as [|b bytes IH]; intros value shift Hall Hs Hv.
  - simpl. lia.
  - inversion Hall as [|? ? Hb Hall']; subst.
    cbn [map assembleVarInt lowSevenBits orZero].
    rewrite band_small by (unfold isByte in Hb; lia).
    rewrite land_127_byte by assumption.
    assert (Hm : 0 <= b mod 128 < 128) by (apply Z.mod_pos_bound; lia).
    rewrite Z.shiftl_mul_pow2 by lia.
    rewrite lor_above by lia.
rewrite IH; [|assumption|lia|].
    + rewrite Z.pow_add_r by lia. change (2 ^ 7) with 128. lia.
    + rewrite Z.pow_add_r by lia. change (2 ^ 7) with 128. nia.
Qed.

Lemma encodeVarIntLoop_zero fuel : encodeVarIntLoop fuel 0 = [].
Proof. destruct fuel; reflexivity. Qed.

(** The loop of [encodeVarInt] writes bytes that the first loop of
    [decodeVarInt] reads back, whatever follows them. *)
Lemma encodeVarIntLoop_bytes fuel : forall value,
  0 < value < 2 ^ (7 * Z.of_nat fuel) ->
  exists bytes,
    Forall isByte bytes /\
    encodeVarIntLoop fuel value = byteString bytes /\
    (forall rest, readVarIntBytes (byteString bytes ++ rest) = map Some bytes) /\
    lowSevenBits bytes = value.
Proof.
  induction fuel as [|fuel IH]; intros value Hv.
  - simpl in Hv. lia.
  - cbn [encodeVarIntLoop].
    destruct (0 <? value) eqn:Hpos; [|apply Z.ltb_ge in Hpos; lia].
    change 127 with (Z.ones 7). rewrite Z.land_ones by lia.
    rewrite Z.shiftr_div_pow2 by lia. change (2 ^ 7) with 128.
    assert (Hm : 0 <= value mod 128 < 128) by (apply Z.mod_pos_bound; lia).
    assert (Hd : value = 128 * (value / 128) + value mod 128) by (apply Z.div_mod; lia).
    destruct (0 <? value / 128) eqn:Hmore.
    + apply Z.ltb_lt in Hmore.
      destruct (IH (value / 128)) as (bytes & Hall & Henc & Hread & Hlow).
      { split; [assumption|]. apply Z.div_lt_upper_bound; [lia|].
        replace (7 * Z.of_nat (S fuel)) with (7 + 7 * Z.of_nat fuel) in Hv by lia.
        rewrite Z.pow_add_r in Hv by lia. change (2 ^ 7) with 128 in Hv. lia. }
      assert (Hbor : bor (value mod 128) 128 = value mod 128 + 128).
      { rewrite bor_small by lia.
        change 128 with (1 * 2 ^ 7) at 2. rewrite lor_above; lia. }
      rewrite Hbor.
      exists ((value mod 128 + 128) :: bytes). split; [|split; [|split]].
      * constructor; [unfold isByte; lia|assumption].
      * rewrite byteString_cons, Henc. reflexivity.
      * intros rest. rewrite byteString_cons, <- app_assoc.
        rewrite readVarIntBytes_byte by (unfold isByte; lia).
        rewrite land_128_high by lia. cbn [map]. now rewrite Hread.
      * cbn [lowSevenBits]. rewrite Hlow.
        replace (value mod 128 + 128) with (value mod 128 + 1 * 128) by lia.
        rewrite Z.mod_add by lia. rewrite Z.mod_mod by lia. lia.
    + apply Z.ltb_ge in Hmore.
      assert (Hz : value / 128 = 0) by (pose proof (Z.div_pos value 128); lia).
      rewrite Hz, encodeVarIntLoop_zero.
      exists [value mod 128]. split; [|split; [|split]].
      * constructor; [unfold isByte; lia|constructor].
      * unfold byteString. simpl. reflexivity.
      * intros rest. rewrite byteString_cons. change (byteString []) with (@nil Z).
        rewrite app_nil_r.
        rewrite readVarIntBytes_byte by (unfold isByte; lia).
        rewrite land_128_low by lia. reflexivity.
      * cbn [lowSevenBits]. rewrite Z.mod_mod by lia. lia.
Qed.

(** [decodeVarInt] inverts [encodeVarInt] on what is not negative, and
    leaves what follows the encoding. *)
Lemma decodeVarInt_encodeVarInt value rest :
  0 <= value -> decodeVarInt (encodeVarInt value ++ rest) = (value, rest).
Proof.
  intros Hv. unfold encodeVarInt.
  destruct (value =? 0) eqn:Hz.
  - apply Z.eqb_eq in Hz. subst. reflexivity.
  - apply Z.eqb_neq in Hz.
    destruct (encodeVarIntLoop_bytes (S (Z.to_nat (Z.log2 value))) value)
      as (bytes & Hall & Henc & Hread & Hlow).
    { split; [lia|].
      apply Z.lt_le_trans with (2 ^ (Z.succ (Z.log2 value))).
      - apply Z.log2_spec. lia.
      - apply Z.pow_le_mono_r; [lia|]. pose proof (Z.log2_nonneg value). lia. }
    rewrite Henc. unfold decodeVarInt. rewrite Hread.
    rewrite assembleVarInt_bytes by (auto; simpl; lia).
    rewrite Hlow. f_equal; [rewrite Z.pow_0_r; lia|].
    unfold sliceFrom. rewrite length_map.
    replace (List.length bytes * 2)%nat with (List.length (byteString bytes) + 0)%nat
      by (rewrite byteString_length by assumption; lia).
    rewrite skipn_app, skipn_all2 by lia.
    replace (_ - _)%nat with O by lia. reflexivity.
Qed.

Lemma readVarIntBytes_truncated bytes :
  Forall (fun b => 128 <= b < 256) bytes ->
  readVarIntBytes (byteString bytes) = map Some bytes.
Proof.
  induction 1 as [|b bytes Hb _ IH]; [reflexivity|].
  rewrite byteString_cons, readVarIntBytes_byte by (unfold isByte; lia).
  rewrite land_128_high by assumption. cbn [map]. now rewrite IH.
Qed.

(* ================================================================== *)
(** * VarInt *)
(* ================================================================== *)

(** C4.  Truncated input: when every byte of the input has its high bit set
    (the empty input included), [decodeVarInt] raises nothing; it returns
    the integer made of the low seven bits of all the bytes, least
    significant first, and an empty remainder. *)
Theorem decodeVarInt_truncated bytes :
  Forall (fun b => 128 <= b < 256) bytes ->
  decodeVarInt (byteString bytes) = (lowSevenBits bytes, []).
Proof.
  intros Hall.
  assert (Hbytes : Forall isByte bytes).
  { eapply Forall_impl; [|exact Hall]. unfold isByte. intros; simpl in *; lia. }
  unfold decodeVarInt. rewrite readVarIntBytes_truncated by assumption.
  rewrite assembleVarInt_bytes by (auto; simpl; lia).
  f_equal; [rewrite Z.pow_0_r; lia|].
  unfold sliceFrom. rewrite length_map. apply skipn_all2.
  rewrite byteString_length by assumption. lia.
Qed.

Lemma decodeVarInt_truncated_witness :
  Forall (fun b => 128 <= b < 256) [172; 255] /\
  decodeVarInt (js "acff") = (16300, []).
Proof.
  split.
  - repeat constructor; lia.
  - apply (decodeVarInt_truncated [172; 255]). repeat constructor; lia.
Defined.

(** C5.  [encodeVarInt(300)] is the two bytes AC 02, the first with its
    continuation bit set and the second without, and [decodeVarInt] on these
    two bytes followed by anything returns 300 and exactly what followed. *)
Theorem encodeVarInt_300_two_bytes :
  encodeVarInt 300 = byteString [172; 2] /\
  Z.land 172 128 = 128 /\ Z.land 2 128 = 0 /\
  forall trailing, decodeVarInt (byteString [172; 2] ++ trailing) = (300, trailing).
Proof.
  split; [reflexivity|]. split; [reflexivity|]. split; [reflexivity|].
  intros trailing.
  change (byteString [172; 2]) with (encodeVarInt 300).
  apply decodeVarInt_encodeVarInt. lia.
Qed.

(* ================================================================== *)
(** * Wrappers *)
(* ================================================================== *)

Lemma len_app_pair b rest : isByte b -> (len (hex2 b ++ rest) <? 2) = false.
Proof.
  intros Hb. rewrite hex2_pair by assumption. unfold len. simpl List.length.
  apply Z.ltb_ge. lia.
Qed.

Lemma sliceTo_pair b rest : isByte b -> sliceTo 2 (hex2 b ++ rest) = hexPair b.
Proof. intros Hb. rewrite hex2_pair by assumption. reflexivity. Qed.

Lemma sliceFrom_pair b rest : isByte b -> sliceFrom 2 (hex2 b ++ rest) = rest.
Proof. intros Hb. rewrite hex2_pair by assumption. reflexivity. Qed.

(** What the two wrappers do with a flag byte. *)
Lemma Optional_rawDecode_flag m flag rest :
  isByte flag ->
  Optional.rawDecode m (hex2 flag ++ rest) =
    if flag =? 0 then Ok (VUndefined, rest) else m_rawDecode m rest.
Proof.
  intros Hb. unfold Optional.rawDecode.
  rewrite len_app_pair, sliceTo_pair, sliceFrom_pair, parseInt16_pair by assumption.
  destruct flag; reflexivity.
Qed.

Lemma Nullable_rawDecode_flag m flag rest :
  isByte flag ->
  Nullable.rawDecode m (hex2 flag ++ rest) =
    if flag =? 1 then Ok (VNull, rest) else m_rawDecode m rest.
Proof.
  intros Hb. unfold Nullable.rawDecode.
  rewrite len_app_pair, sliceTo_pair, sliceFrom_pair, parseInt16_pair by assumption.
  destruct flag as [|[p|p|]|p]; reflexivity.
Qed.

(** C10.  On a non-empty byte sequence, [Optional]'s [_rawDecode] takes the
    flag byte 0 as absent and every other flag byte as present, decoding the
    inner value from the remainder; [Nullable]'s takes exactly 1 as null and
    every other flag byte as a value that follows.  No flag byte is
    rejected. *)
Theorem wrappers_accept_any_flag (inner : LeptonType) (flag : Z) (more : list Z) :
  isByte flag ->
  rawDecode (LeptonOptional inner) (byteString (flag :: more)) =
    (if flag =? 0 then Ok (VUndefined, byteString more)
     else rawDecode inner (byteString more))
  /\
  rawDecode (LeptonNullable inner) (byteString (flag :: more)) =
    (if flag =? 1 then Ok (VNull, byteString more)
     else rawDecode inner (byteString more)).
Proof.
  intros Hb. rewrite byteString_cons. split.
  - apply Optional_rawDecode_flag. assumption.
  - apply Nullable_rawDecode_flag. assumption.
Qed.

Lemma wrappers_accept_any_flag_witness :
  isByte 2 /\
  rawDecode (LeptonOptional uint8) (js "022a") = Ok (VNum (NInt 42), []) /\
  rawDecode (LeptonNullable uint8) (js "022a") = Ok (VNum (NInt 42), []).
Proof.
  split; [unfold isByte; lia|].
  exact (wrappers_accept_any_flag uint8 2 [42] ltac:(unfold isByte; lia)).
Defined.

(* ================================================================== *)
(** * Objects, arrays, enums, bit-width integers: the stated examples *)
(* ================================================================== *)

(** C7.  For the shape {id: uint32}, the input {id: 1, extra: true} is
    rejected in strict mode with the unknown-key error naming [extra]; in
    non-strict mode it is accepted and the result has the one property
    [id]. *)
Theorem object_strictness :
  let shape := [(js "id", uint32)] in
  let input := VObj [(js "id", VNum (NInt 1)); (js "extra", VBool true)] in
  parse (Object_.strict shape false) input
    = throwLepton (js "Unrecognized key(s) in object: extra") /\
  parse (object shape) input = Ok (VObj [(js "id", VNum (NInt 1))]).
Proof. split; reflexivity. Qed.

(** C8.  Validating [1, "x", 3] against Array(uint8) fails with the error
    of the element "x", its path being exactly ["1"]: the index of the
    element, put in front of the (empty) path of the element's own error. *)
Theorem array_element_error_path :
  let input := VArr [VNum (NInt 1); VStr (js "x"); VNum (NInt 3)] in
  parse uint8 (VStr (js "x"))
    = Throw (LeptonErr (LeptonError_create (js "Expected integer, got string"))) /\
  exists e,
    parse (LeptonArray uint8) input = Throw (LeptonErr e) /\
    path e = [js "1"] /\
    message e = js "Expected integer, got string".
Proof.
  split; [reflexivity|].
  eexists. split; [reflexivity|]. split; reflexivity.
Qed.

(** C9.  From the enum ["a", "b", "c"], [exclude(["b"])] makes the enum with
    options ["a", "c"]; "c" is encoded as the byte 02 by the first and 01 by
    the second; and [exclude] fails whenever no option would remain. *)
Theorem enum_exclude_shifts_indices (options values : list jsstring) :
  filter (fun val => negb (Enum.has values val)) options = [] ->
  Enum.construct (VArr [VStr (js "a"); VStr (js "b"); VStr (js "c")])
    = Ok (LeptonEnum [js "a"; js "b"; js "c"]) /\
  Enum.exclude [js "a"; js "b"; js "c"] [js "b"] = Ok (LeptonEnum [js "a"; js "c"]) /\
  Enum.options (LeptonEnum [js "a"; js "c"]) = [js "a"; js "c"] /\
  encode (LeptonEnum [js "a"; js "b"; js "c"]) (VStr (js "c")) = Ok (byteString [2]) /\
  encode (LeptonEnum [js "a"; js "c"]) (VStr (js "c")) = Ok (byteString [1]) /\
  byteString [2] <> byteString [1] /\
  Enum.exclude options values = throwLepton (js "Cannot exclude all values from an enum").
Proof.
  intros Hempty.
  repeat (split; [reflexivity|]).
  split; [discriminate|].
  unfold Enum.exclude. rewrite Hempty. reflexivity.
Qed.

Lemma enum_exclude_shifts_indices_witness :
  filter (fun val => negb (Enum.has [js "b"; js "a"] val)) [js "a"; js "b"] = [] /\
  Enum.exclude [js "a"; js "b"] [js "b"; js "a"]
    = throwLepton (js "Cannot exclude all values from an enum").
Proof.
  split; [reflexivity|].
  apply (enum_exclude_shifts_indices [js "a"; js "b"] [js "b"; js "a"]). reflexivity.
Defined.

(** C2, at the inputs where the code departs from it.  The constructor
    admits the widths 31 and 32, but [(1 << 31) - 1] is negative and
    [(1 << 32) - 1] is 0: [bits(32)] rejects 1 and all that is larger,
    [bits(31)] rejects every integer, 0 included. *)
Theorem bits_31_32_reject :
  bits 32 = Ok (LeptonBits 32) /\ bits 31 = Ok (LeptonBits 31) /\
  Bits.maxValue 32 = 0 /\ Bits.maxValue 31 = - 2 ^ 31 - 1 /\
  parse (LeptonBits 32) (VNum (NInt 1)) = throwLepton (Bits.outOfRange 32) /\
  encode (LeptonBits 32) (VNum (NInt 1)) = throwLepton (Bits.outOfRange 32) /\
  parse (LeptonBits 32) (VNum (NInt (2 ^ 32 - 1))) = throwLepton (Bits.outOfRange 32) /\
  parse (LeptonBits 31) (VNum (NInt 0)) = throwLepton (Bits.outOfRange 31) /\
  encode (LeptonBits 31) (VNum (NInt 0)) = throwLepton (Bits.outOfRange 31).
Proof. repeat (split; [reflexivity|]). reflexivity. Qed.

Lemma Bits_maxValue_upto_30 bitWidth :
  1 <= bitWidth <= 30 -> Bits.maxValue bitWidth = 2 ^ bitWidth - 1.
Proof.
  intros H. unfold Bits.maxValue, shl.
  rewrite (ToInt32_small 1) by lia.
  rewrite Z.mod_small by lia. rewrite Z.shiftl_1_l.
  assert (2 ^ bitWidth <= 2 ^ 30) by (apply Z.pow_le_mono_r; lia).
  assert (0 < 2 ^ bitWidth) by (apply Z.pow_pos_nonneg; lia).
  rewrite ToInt32_small; lia.
Qed.

(** Where the code agrees with C2: the constructor admits exactly the widths
    1 to 32, and up to 30 bits [parse] and [encode] accept exactly the
    integers from 0 to [2^bitWidth - 1]. *)
Lemma bits_upto_30_range bitWidth n :
  (bits bitWidth = Ok (LeptonBits bitWidth) <-> 1 <= bitWidth <= 32) /\
  (1 <= bitWidth <= 30 ->
   (parse (LeptonBits bitWidth) (VNum (NInt n)) = Ok (VNum (NInt n))
    <-> 0 <= n <= 2 ^ bitWidth - 1) /\
   ((exists bytes, encode (LeptonBits bitWidth) (VNum (NInt n)) = Ok bytes)
    <-> 0 <= n <= 2 ^ bitWidth - 1)).
Proof.
  split.
  - unfold bits, Bits.construct.
    destruct (bitWidth <=? 0) eqn:E1; destruct (32 <? bitWidth) eqn:E2; simpl;
      rewrite ?Z.leb_le, ?Z.leb_gt, ?Z.ltb_lt, ?Z.ltb_ge in *;
      (split; [intros H; try discriminate; lia | intros H; try reflexivity; lia]).
  - intros Hw. unfold parse, encode. cbn [methodsOf m_parse m_encode].
    unfold Bits.parse, Bits.encode. cbn [asInteger].
    rewrite Bits_maxValue_upto_30 by assumption.
    destruct (n <? 0) eqn:E1; destruct (2 ^ bitWidth - 1 <? n) eqn:E2; simpl;
      rewrite ?Z.leb_le, ?Z.leb_gt, ?Z.ltb_lt, ?Z.ltb_ge in *;
      (split; split; intros H;
       try discriminate;
       try match type of H with ex _ => destruct H as [bytes Hb]; discriminate end;
       try reflexivity; try (eexists; reflexivity); lia).
Qed.

(* ================================================================== *)
(** * What [encode] checks *)
(* ================================================================== *)

(** Both sides throw the same error, or neither throws. *)
Ltac same_throw :=
  unfold throwLepton;
  split; intros Hthrow; try discriminate; inversion Hthrow; reflexivity.

(** What [encode] checks, node by node.  The integer, bit-width, boolean,
    big-integer and enum codecs check their argument in [encode] as [parse]
    does: one throws exactly when the other does, and the same error, so no
    bytes come out of a failed [encode].  [String], [Float64] and [Float32]
    check nothing: [String.encode] never throws a [LeptonError], and the two
    float codecs never do either, returning the bytes of the number the
    platform converts the argument to. *)
Lemma encode_checks (t : LeptonType) (v : Value) (e : exn) :
  checkedPrimitive t = true ->
  (encode t v = Throw e <-> parse t v = Throw e) /\
  (forall err, encode LeptonString v <> Throw (LeptonErr err)) /\
  (forall err, encode LeptonDouble v <> Throw (LeptonErr err)) /\
  (forall n, ToNumber v = Some n ->
     encode LeptonDouble v = Ok (byteString (bytesBE 8 (numberBits binary64 n)))) /\
  (forall err, encode LeptonFloat v <> Throw (LeptonErr err)) /\
  encode LeptonFloat (VBool true) = Ok (js "3f800000").
Proof.
  intros Hchecked. split; [|split; [|split; [|split; [|split]]]].
  - unfold encode, parse.
    destruct t; try discriminate; cbn [methodsOf m_encode m_parse].
    + unfold SignedInt.encode, SignedInt.parse.
      destruct (asInteger v); [destruct (_ || _)|]; same_throw.
    + unfold UnsignedInt.encode, UnsignedInt.parse.
      destruct (asInteger v); [destruct (_ || _)|]; same_throw.
    + unfold Bits.encode, Bits.parse.
      destruct (asInteger v); [destruct (_ || _)|]; same_throw.
    + unfold BigInt.encode, BigInt.parse. destruct v; same_throw.
    + unfold Boolean.encode, Boolean.parse. destruct v; same_throw.
    + unfold Enum.encode. destruct (Enum.parse values v); cbn [bind]; same_throw.
  - intros err. unfold encode. cbn [methodsOf m_encode]. unfold String_.encode.
    destruct (TextEncoder_encode v); discriminate.
  - intros err. unfold encode. cbn [methodsOf m_encode]. unfold Double.encode.
    destruct (ToNumber v); discriminate.
  - intros n H. unfold encode. cbn [methodsOf m_encode]. unfold Double.encode.
    rewrite H. reflexivity.
  - intros err. unfold encode. cbn [methodsOf m_encode]. unfold Float.encode.
    assert (Hr : forall err', Float.roundToPrecision v Float.precision
                              <> Throw (LeptonErr err')).
    { intros err'. unfold Float.roundToPrecision.
      destruct v as [| |b|n|z|s|elems|props]; try discriminate;
        try (destruct (ToString _); [|discriminate];
             destruct (Float.fracPart _); [destruct (_ <? _)|]; discriminate).
      destruct n as [z| |neg|neg m ex]; try (destruct z);
        try (destruct (ToString _); [|discriminate];
             destruct (Float.fracPart _); [destruct (_ <? _)|]; discriminate);
        discriminate. }
    destruct (Float.roundToPrecision v Float.precision) as [v'|x] eqn:Hround;
      cbn [bind].
    + destruct (ToNumber v'); discriminate.
    + intros H. inversion H; subst. exact (Hr err eq_refl).
  - vm_compute. reflexivity.
Qed.

Lemma encode_checks_uint8_256 :
  checkedPrimitive uint8 = true /\
  encode uint8 (VNum (NInt 256)) = throwLepton (UnsignedInt.outOfRange 1).
Proof.
  split; [reflexivity|].
  apply (proj1 (encode_checks uint8 (VNum (NInt 256)) _ eq_refl)). reflexivity.
Defined.

(** C3, at an input where the code departs from it.  [String.parse] rejects
    the boolean true with the type error, yet [String.encode] checks
    nothing and returns bytes: the length 4 and the text "true". *)
Theorem string_encode_unchecked :
  parse LeptonString (VBool true) = throwLepton (js "Expected string, got boolean") /\
  encode LeptonString (VBool true) = Ok (js "0474727565").
Proof. split; reflexivity. Qed.

(* ================================================================== *)
(** * Fixed-width hex numbers *)
(* ================================================================== *)

Lemma hexFixed_length k : forall z, List.length (hexFixed k z) = k.
Proof.
  induction k as [|k IH]; intros z; [reflexivity|].
  cbn [hexFixed]. rewrite length_app, IH. simpl. lia.
Qed.

Lemma hexFixed_zero k : hexFixed k 0 = repeat 48 k.
Proof.
  induction k as [|k IH]; [reflexivity|].
  cbn [hexFixed]. change (0 / 16) with 0. rewrite IH.
  change [hexDigit (0 mod 16)] with (repeat 48 1).
  rewrite <- repeat_app. f_equal. lia.
Qed.

(** Printing in radix 16 and padding is writing the [k] digits. *)
Lemma padStart0_digits k : forall fuel z,
  (1 <= k)%nat -> (1 <= fuel)%nat -> 0 <= z < 16 ^ Z.of_nat k -> z < 16 ^ Z.of_nat fuel ->
  padStart0 k (digits 16 fuel z) = hexFixed k z.
Proof.
  induction k as [|k IH]; intros fuel z Hk Hf Hz Hzf; [lia|].
  destruct fuel as [|fuel]; [lia|].
  cbn [digits hexFixed].
  destruct (z <? 16) eqn:Hsmall.
  - apply Z.ltb_lt in Hsmall.
    rewrite (Z.div_small z 16), (Z.mod_small z 16) by lia.
    rewrite hexFixed_zero. unfold padStart0. simpl List.length.
    replace (S k - 1)%nat with k by lia. reflexivity.
  - apply Z.ltb_ge in Hsmall.
    assert (Hk1 : (1 <= k)%nat).
    { destruct k; [|lia]. simpl in Hz. lia. }
    assert (Hf1 : (1 <= fuel)%nat).
    { destruct fuel; [|lia]. simpl in Hzf. lia. }
    assert (Hdiv : 0 <= z / 16 < 16 ^ Z.of_nat k).
    { split; [apply Z.div_pos; lia|]. apply Z.div_lt_upper_bound; [lia|].
      replace (Z.of_nat (S k)) with (1 + Z.of_nat k) in Hz by lia.
      rewrite Z.pow_add_r in Hz by lia. lia. }
    assert (Hdivf : z / 16 < 16 ^ Z.of_nat fuel).
    { apply Z.div_lt_upper_bound; [lia|].
      replace (Z.of_nat (S fuel)) with (1 + Z.of_nat fuel) in Hzf by lia.
      rewrite Z.pow_add_r in Hzf by lia. lia. }
    rewrite <- (IH fuel (z / 16)) by assumption.
    unfold padStart0. rewrite length_app. simpl List.length.
    replace (S k - (List.length (digits 16 fuel (z / 16)) + 1))%nat
      with (k - List.length (digits 16 fuel (z / 16)))%nat by lia.
    now rewrite app_assoc.
Qed.

Lemma toString16_hexFixed k z :
  (1 <= k)%nat -> 0 <= z < 16 ^ Z.of_nat k ->
  padStart0 k (toString16 z) = hexFixed k z.
Proof.
  intros Hk Hz. unfold toString16, toStringRadix.
  destruct (z <? 0) eqn:E; [apply Z.ltb_lt in E; lia|].
  apply padStart0_digits; try assumption; unfold digitsFuel; [lia|].
  destruct (Z.eq_dec z 0) as [->|Hnz]; [apply Z.pow_pos_nonneg; lia|].
  apply Z.lt_le_trans with (2 ^ Z.succ (Z.log2 z)); [apply Z.log2_spec; lia|].
  pose proof (Z.log2_nonneg z).
  replace (Z.of_nat (S (Z.to_nat (Z.log2 z)))) with (Z.succ (Z.log2 z)) by lia.
  apply Z.pow_le_mono_l. lia.
Qed.

Lemma digit_cases (P : Z -> Prop) :
  P 0 -> P 1 -> P 2 -> P 3 -> P 4 -> P 5 -> P 6 -> P 7 -> P 8 -> P 9 ->
  P 10 -> P 11 -> P 12 -> P 13 -> P 14 -> P 15 ->
  forall d, 0 <= d < 16 -> P d.
Proof.
  intros. 
  assert (Hd : d = 0 \/ d = 1 \/ d = 2 \/ d = 3 \/ d = 4 \/ d = 5 \/ d = 6 \/ d = 7 \/
               d = 8 \/ d = 9 \/ d = 10 \/ d = 11 \/ d = 12 \/ d = 13 \/ d = 14 \/ d = 15)
    by lia.
  repeat (destruct Hd as [->|Hd]; [assumption|]). subst. assumption.
Qed.

Lemma digitValue_hexDigit d : 0 <= d < 16 -> digitValue (hexDigit d) = Some d.
Proof. revert d. apply digit_cases; reflexivity. Qed.

Lemma parseDigits_hexFixed k : forall z acc t,
  0 <= z < 16 ^ Z.of_nat k ->
  parseDigits (hexFixed k z ++ t) (Some acc)
    = parseDigits t (Some (16 ^ Z.of_nat k * acc + z)).
Proof.
  induction k as [|k IH]; intros z acc t Hz.
  - cbn [hexFixed app]. change (Z.of_nat 0) with 0 in *. rewrite Z.pow_0_r in *.
    do 2 f_equal. lia.
  - cbn [hexFixed]. rewrite <- app_assoc. cbn [app].
    assert (Hp : 16 ^ Z.of_nat (S k) = 16 * 16 ^ Z.of_nat k).
    { replace (Z.of_nat (S k)) with (1 + Z.of_nat k) by lia.
      rewrite Z.pow_add_r by lia. lia. }
    assert (Hm : 0 <= z mod 16 < 16) by (apply Z.mod_pos_bound; lia).
    rewrite IH.
    + cbn [parseDigits]. rewrite digitValue_hexDigit by assumption.
      do 2 f_equal. rewrite Hp. pose proof (Z.div_mod z 16). lia.
    + split; [apply Z.div_pos; lia|]. apply Z.div_lt_upper_bound; lia.
Qed.

Lemma parseDigits_None_digit d s :
  0 <= d < 16 -> parseDigits (hexDigit d :: s) None = parseDigits (hexDigit d :: s) (Some 0).
Proof. intros Hd. cbn [parseDigits]. now rewrite digitValue_hexDigit. Qed.

(** [parseInt] on a string whose first character is neither white space
    nor a sign. *)
Lemma parseInt16_unsigned c s :
  isWhiteSpace c = false -> c <> 45 -> c <> 43 ->
  parseInt16 (c :: s) = parseDigits (stripHexPrefix (c :: s)) None.
Proof.
  intros Hws Hminus Hplus. unfold parseInt16. cbn [trimStart]. rewrite Hws.
  destruct c as [|p|p]; cbv beta iota;
    try (destruct (parseDigits _ None); reflexivity).
  do 6 (destruct p as [p|p|]; cbv beta iota;
        try (destruct (parseDigits _ None); reflexivity));
    congruence.
Qed.

(** [parseInt] on a string that starts with a lowercase hex digit neither
    trims, nor finds a sign or a radix prefix. *)
Lemma parseInt16_digits d s :
  0 <= d < 16 ->
  (forall c s', s = c :: s' -> exists d', 0 <= d' < 16 /\ c = hexDigit d') ->
  parseInt16 (hexDigit d :: s) = parseDigits (hexDigit d :: s) None.
Proof.
  intros Hd Hs.
  assert (Hstrip : stripHexPrefix (hexDigit d :: s) = hexDigit d :: s).
  { destruct s as [|c s'].
    - revert d Hd. apply digit_cases; reflexivity.
    - destruct (Hs c s' eq_refl) as (d' & Hd' & ->). clear Hs.
      revert d' Hd'. apply digit_cases; revert d Hd; apply digit_cases; reflexivity. }
  rewrite parseInt16_unsigned, Hstrip; [reflexivity|..];
    clear Hs Hstrip; revert d Hd; apply digit_cases; (reflexivity || discriminate).
Qed.

Lemma hexFixed_head k z :
  exists d s, 0 <= d < 16 /\ hexFixed (S k) z = hexDigit d :: s /\
    (forall c s', s = c :: s' -> exists d', 0 <= d' < 16 /\ c = hexDigit d').
Proof.
  revert z. induction k as [|k IH]; intros z.
  - exists (z mod 16), []. split; [apply Z.mod_pos_bound; lia|].
    split; [reflexivity|]. intros; discriminate.
  - destruct (IH (z / 16)) as (d & s & Hd & Heq & Hs).
    exists d, (s ++ [hexDigit (z mod 16)]). split; [assumption|]. split.
    + change (hexFixed (S (S k)) z) with (hexFixed (S k) (z / 16) ++ [hexDigit (z mod 16)]).
      rewrite Heq. reflexivity.
    + intros c s' Hc. destruct s as [|c0 s0].
      * simpl in Hc. inversion Hc; subst.
        exists (z mod 16). split; [apply Z.mod_pos_bound; lia|reflexivity].
      * simpl in Hc. inversion Hc; subst. apply (Hs c s0 eq_refl).
Qed.

(** Reading back the [k] digits of a number. *)
Lemma parseInt16_hexFixed k z :
  (1 <= k)%nat -> 0 <= z < 16 ^ Z.of_nat k -> parseInt16 (hexFixed k z) = Some z.
Proof.
  intros Hk Hz. destruct k as [|k]; [lia|].
  destruct (hexFixed_head k z) as (d & s & Hd & Heq & Hs).
  rewrite Heq, parseInt16_digits, parseDigits_None_digit by assumption.
  rewrite <- Heq, <- (app_nil_r (hexFixed (S k) z)).
  rewrite parseDigits_hexFixed by assumption. cbn [parseDigits]. f_equal. lia.
Qed.

Lemma sliceTo_app_exact (s rest : jsstring) n :
  List.length s = n -> sliceTo n (s ++ rest) = s.
Proof.
  intros <-. unfold sliceTo. rewrite firstn_app, firstn_all, Nat.sub_diag.
  simpl. apply app_nil_r.
Qed.

Lemma sliceFrom_app_exact (s rest : jsstring) n :
  List.length s = n -> sliceFrom n (s ++ rest) = rest.
Proof.
  intros <-. unfold sliceFrom. rewrite skipn_app, skipn_all, Nat.sub_diag. reflexivity.
Qed.

Lemma len_app_ge (s rest : jsstring) n :
  Z.of_nat (List.length s) = n -> (len (s ++ rest) <? n) = false.
Proof.
  intros <-. unfold len. rewrite length_app. apply Z.ltb_ge. lia.
Qed.

(* ================================================================== *)
(** * Round trips of the primitive codecs *)
(* ================================================================== *)

Lemma asInteger_Some v z : asInteger v = Some z -> v = VNum (NInt z).
Proof.
  destruct v as [| | |n| | | |]; try discriminate.
  destruct n; try discriminate. simpl. congruence.
Qed.

Lemma factoryWidth_cases width :
  factoryWidth width = true -> width = 1%nat \/ width = 2%nat \/ width = 4%nat.
Proof.
  unfold factoryWidth. rewrite !orb_true_iff, !Nat.eqb_eq. tauto.
Qed.

(** A leaf round trip whose bytes are the [k] hex digits of a number. *)
Lemma hexFixed_decodes k z rest :
  (1 <= k)%nat -> 0 <= z < 16 ^ Z.of_nat k ->
  (len (hexFixed k z ++ rest) <? Z.of_nat k) = false /\
  parseInt16 (sliceTo k (hexFixed k z ++ rest)) = Some z /\
  sliceFrom k (hexFixed k z ++ rest) = rest.
Proof.
  intros Hk Hz. split; [|split].
  - apply len_app_ge. now rewrite hexFixed_length.
  - rewrite sliceTo_app_exact by apply hexFixed_length. now apply parseInt16_hexFixed.
  - apply sliceFrom_app_exact, hexFixed_length.
Qed.

Lemma UnsignedInt_maxValue_hex width :
  factoryWidth width = true ->
  UnsignedInt.maxValue width = 16 ^ Z.of_nat (width * 2) - 1.
Proof.
  intros Hw. destruct (factoryWidth_cases _ Hw) as [->|[->| ->]]; reflexivity.
Qed.

Lemma UnsignedInt_roundTrips width v v' :
  factoryWidth width = true ->
  UnsignedInt.parse width v = Ok v' ->
  roundTrips (methodsOf (LeptonUnsignedInt width)) v v'.
Proof.
  intros Hw Hparse. unfold UnsignedInt.parse in Hparse.
  destruct (asInteger v) as [z|] eqn:Hint; [|discriminate].
  apply asInteger_Some in Hint. subst v.
  destruct ((z <? 0) || (UnsignedInt.maxValue width <? z)) eqn:Hrange; [discriminate|].
  inversion Hparse; subst v'. clear Hparse.
  apply orb_false_iff in Hrange. destruct Hrange as [Hlo Hhi].
  apply Z.ltb_ge in Hlo, Hhi.
  rewrite UnsignedInt_maxValue_hex in Hhi by assumption.
  assert (Hz : 0 <= z < 16 ^ Z.of_nat (width * 2)) by lia.
  rewrite <- UnsignedInt_maxValue_hex in Hhi by assumption.
  assert (Hk : (1 <= width * 2)%nat).
  { destruct (factoryWidth_cases _ Hw) as [->|[->| ->]]; lia. }
  exists (hexFixed (width * 2) z), (VNum (NInt z)).
  cbn [methodsOf m_encode m_rawDecode m_parse].
  split; [|split; [|split]].
  - unfold UnsignedInt.encode. cbn [asInteger].
    rewrite (proj2 (Z.ltb_ge _ _) Hlo), (proj2 (Z.ltb_ge _ _) Hhi). cbn [orb].
    now rewrite toString16_hexFixed.
  - intros rest. unfold UnsignedInt.rawDecode.
    destruct (hexFixed_decodes (width * 2) z rest Hk Hz) as (Hlen & Hval & Hrest).
    replace (Z.of_nat width * 2) with (Z.of_nat (width * 2)) by lia.
    rewrite Hlen, Hval, Hrest. reflexivity.
  - unfold UnsignedInt.parse. cbn [asInteger].
    rewrite (proj2 (Z.ltb_ge _ _) Hlo), (proj2 (Z.ltb_ge _ _) Hhi). reflexivity.
  - apply sameValue_refl.
Qed.

(** Testing one bit with a mask. *)
Lemma land_pow2_zero u k :
  0 <= k -> 0 <= u < 2 ^ k -> Z.land u (2 ^ k) = 0.
Proof.
  intros Hk Hu. rewrite <- (Z.mul_1_l (2 ^ k)).
  apply Z.bits_inj'. intros n Hn. rewrite Z.land_spec, Z.bits_0.
  destruct (Z.lt_ge_cases n k) as [Hlt|Hge].
  - rewrite Z.mul_pow2_bits_low by lia. apply andb_false_r.
  - replace (Z.testbit u n) with false; [reflexivity|].
    symmetry. destruct (Z.eq_dec u 0) as [->|Hnz]; [apply Z.bits_0|].
    apply Z.bits_above_log2; [lia|].
    apply Z.lt_le_trans with k; [|lia]. apply Z.log2_lt_pow2; lia.
Qed.

Lemma land_pow2_nonzero u m k :
  0 <= k -> Z.testbit u k = true -> Z.testbit m k = true -> Z.land u m <> 0.
Proof.
  intros Hk Hu Hm Hz.
  assert (H : Z.testbit (Z.land u m) k = true) by (rewrite Z.land_spec, Hu, Hm; reflexivity).
  rewrite Hz, Z.bits_0 in H. discriminate.
Qed.

Lemma testbit_top u k :
  0 <= k -> 2 ^ k <= u < 2 ^ (k + 1) -> Z.testbit u k = true.
Proof.
  intros Hk Hu. apply Z.testbit_true; [assumption|].
  rewrite Z.pow_add_r in Hu by lia. change (2 ^ 1) with 2 in Hu.
  assert (H1 : u / 2 ^ k = 1).
  { symmetry. apply Z.div_unique with (u - 2 ^ k); lia. }
  rewrite H1. reflexivity.
Qed.

Lemma land_pow2_test u k :
  0 <= k -> 0 <= u < 2 ^ (k + 1) -> (Z.land u (2 ^ k) =? 0) = (u <? 2 ^ k).
Proof.
  intros Hk Hu. destruct (u <? 2 ^ k) eqn:E.
  - apply Z.ltb_lt in E. apply Z.eqb_eq. apply land_pow2_zero; lia.
  - apply Z.ltb_ge in E. apply Z.eqb_neq.
    apply land_pow2_nonzero with k; [assumption|apply testbit_top; lia|].
    rewrite Z.pow2_bits_true; [reflexivity|lia].
Qed.

(** The sign test of [_rawDecode]: [(value & (1 << (bits - 1))) !== 0]. *)
Lemma SignedInt_sign_test width u :
  factoryWidth width = true ->
  0 <= u < 2 ^ SignedInt.bits width ->
  (band u (shl 1 (SignedInt.bits width - 1)) =? 0) = (u <? 2 ^ (SignedInt.bits width - 1)).
Proof.
  intros Hw Hu. destruct (factoryWidth_cases _ Hw) as [->|[->| ->]].
  - change (SignedInt.bits 1) with 8 in *. change (shl 1 (8 - 1)) with (2 ^ 7).
    rewrite band_small by (change (2 ^ 8) with 256 in Hu; lia).
    apply land_pow2_test; [lia|exact Hu].
  - change (SignedInt.bits 2) with 16 in *. change (shl 1 (16 - 1)) with (2 ^ 15).
    rewrite band_small by (change (2 ^ 16) with 65536 in Hu; lia).
    apply land_pow2_test; [lia|exact Hu].
  - change (SignedInt.bits 4) with 32 in *. change (shl 1 (32 - 1)) with (- 2 ^ 31).
    change (32 - 1) with 31. unfold band.
    rewrite (ToInt32_small (- 2 ^ 31)) by lia.
    destruct (u <? 2 ^ 31) eqn:E.
    + apply Z.ltb_lt in E. rewrite ToInt32_small by lia.
      apply Z.eqb_eq. apply Z.bits_inj'. intros n Hn.
      rewrite Z.land_spec, Z.bits_0.
      destruct (Z.lt_ge_cases n 31) as [Hlt|Hge].
      * replace (- 2 ^ 31) with ((-1) * 2 ^ 31) by lia.
        rewrite Z.mul_pow2_bits_low by lia. apply andb_false_r.
      * replace (Z.testbit u n) with false; [reflexivity|].
        symmetry. destruct (Z.eq_dec u 0) as [->|Hnz]; [apply Z.bits_0|].
        apply Z.bits_above_log2; [lia|].
        apply Z.lt_le_trans with 31; [|lia]. apply Z.log2_lt_pow2; lia.
    + apply Z.ltb_ge in E. apply Z.eqb_neq.
      assert (Ht : ToInt32 u = u - 2 ^ 32).
      { unfold ToInt32. 
        replace (u + 2 ^ 31) with (u - 2 ^ 31 + 1 * 2 ^ 32) by lia.
        rewrite Z.mod_add by lia. rewrite Z.mod_small; lia. }
      rewrite Ht.
      apply land_pow2_nonzero with 31; [lia| |reflexivity].
      apply Z.testbit_true; [lia|].
      assert (H1 : (u - 2 ^ 32) / 2 ^ 31 = -1).
      { symmetry. apply Z.div_unique with (u - 2 ^ 31); lia. }
      rewrite H1. reflexivity.
Qed.

Lemma SignedInt_range_hex width :
  factoryWidth width = true ->
  SignedInt.minValue width = - 2 ^ (SignedInt.bits width - 1) /\
  SignedInt.maxValue width = 2 ^ (SignedInt.bits width - 1) - 1 /\
  2 ^ SignedInt.bits width = 2 * 2 ^ (SignedInt.bits width - 1) /\
  2 ^ SignedInt.bits width = 16 ^ Z.of_nat (width * 2) /\
  0 < 2 ^ (SignedInt.bits width - 1) /\
  (1 <= width * 2)%nat.
Proof.
  intros Hw. destruct (factoryWidth_cases _ Hw) as [->|[->| ->]];
    repeat split; try reflexivity; lia.
Qed.

Lemma SignedInt_roundTrips width v v' :
  factoryWidth width = true ->
  SignedInt.parse width v = Ok v' ->
  roundTrips (methodsOf (LeptonSignedInt width)) v v'.
Proof.
  intros Hw Hparse. unfold SignedInt.parse in Hparse.
  destruct (asInteger v) as [z|] eqn:Hint; [|discriminate].
  apply asInteger_Some in Hint. subst v.
  destruct ((z <? SignedInt.minValue width) || (SignedInt.maxValue width <? z)) eqn:Hrange;
    [discriminate|].
  inversion Hparse; subst v'. clear Hparse.
  pose proof Hrange as Hrange'.
  apply orb_false_iff in Hrange'. destruct Hrange' as [Hlo Hhi].
  apply Z.ltb_ge in Hlo, Hhi.
  destruct (SignedInt_range_hex width Hw) as (Hmin & Hmax & Hpow & Hhex & Hpos & Hk).
  set (u := if z <? 0 then 2 ^ SignedInt.bits width + z else z).
  assert (Hu : 0 <= u < 2 ^ SignedInt.bits width).
  { unfold u. destruct (z <? 0) eqn:E;
      [apply Z.ltb_lt in E|apply Z.ltb_ge in E]; lia. }
  exists (hexFixed (width * 2) u), (VNum (NInt z)).
  cbn [methodsOf m_encode m_rawDecode m_parse].
  split; [|split; [|split]].
  - unfold SignedInt.encode. cbn [asInteger]. rewrite Hrange. fold u.
    rewrite toString16_hexFixed; [reflexivity|assumption|lia].
  - intros rest. unfold SignedInt.rawDecode.
    destruct (hexFixed_decodes (width * 2) u rest Hk ltac:(lia)) as (Hlen & Hval & Hrest).
    replace (Z.of_nat width * 2) with (Z.of_nat (width * 2)) by lia.
    rewrite Hlen, Hval, Hrest. cbn [orZero].
    rewrite SignedInt_sign_test by assumption.
    unfold u. destruct (z <? 0) eqn:E;
      [apply Z.ltb_lt in E|apply Z.ltb_ge in E].
    + replace (2 ^ SignedInt.bits width + z <? 2 ^ (SignedInt.bits width - 1)) with false
        by (symmetry; apply Z.ltb_ge; lia).
      cbn [negb option_map numberOfParse].
      replace (2 ^ SignedInt.bits width + z - 2 ^ SignedInt.bits width) with z by lia.
      reflexivity.
    + replace (z <? 2 ^ (SignedInt.bits width - 1)) with true
        by (symmetry; apply Z.ltb_lt; lia).
      reflexivity.
  - unfold SignedInt.parse. cbn [asInteger]. rewrite Hrange. reflexivity.
  - apply sameValue_refl.
Qed.

(** ** Bytes read back by index *)

Lemma byteAt_byteString bytes : forall i rest,
  Forall isByte bytes -> (i < List.length bytes)%nat ->
  byteAt (byteString bytes ++ rest) i = Some (nth i bytes 0).
Proof.
  induction bytes as [|b bytes IH]; intros i rest Hall Hi; [simpl in Hi; lia|].
  inversion Hall as [|? ? Hb Hall']; subst.
  rewrite byteString_cons, <- app_assoc. unfold byteAt.
  destruct i as [|i].
  - change (sliceFrom (0 * 2) ?s) with s.
    rewrite sliceTo_pair by assumption. now apply parseInt16_pair.
  - replace (sliceFrom (S i * 2) (hex2 b ++ byteString bytes ++ rest))
      with (sliceFrom (i * 2) (byteString bytes ++ rest)).
    + apply IH; [assumption|simpl in Hi; lia].
    + rewrite hex2_pair by assumption. reflexivity.
Qed.

Lemma map_seq_nth {A} (l : list A) d :
  map (fun i => nth i l d) (seq 0 (List.length l)) = l.
Proof.
  induction l as [|x l IH]; [reflexivity|].
  cbn [List.length seq map nth]. f_equal.
  rewrite <- seq_shift, map_map. exact IH.
Qed.

(** The bytes a loop over the indices reads from a byte string. *)
Lemma map_byteAt_byteString (f : option Z -> Z) bytes rest :
  Forall isByte bytes ->
  map (fun i => f (byteAt (byteString bytes ++ rest) i)) (seq 0 (List.length bytes))
    = map (fun b => f (Some b)) bytes.
Proof.
  intros Hall.
  rewrite <- (map_seq_nth bytes 0) at 2. rewrite map_map.
  apply map_ext_in. intros i Hi. apply in_seq in Hi.
  now rewrite byteAt_byteString by (auto; lia).
Qed.

Lemma fold_left_map_arg {A B C} (g : A -> C -> A) (h : B -> C) (xs : list B) (a : A) :
  fold_left (fun v x => g v (h x)) xs a = fold_left g (map h xs) a.
Proof. revert a. induction xs as [|x xs IH]; intros a; [reflexivity|]. simpl. apply IH. Qed.

Lemma flat_map_map_arg {A B C} (f : B -> list C) (g : A -> B) (l : list A) :
  flat_map f (map g l) = flat_map (fun x => f (g x)) l.
Proof. induction l as [|x l IH]; [reflexivity|]. simpl. now rewrite IH. Qed.

(** ** primitive/bits.ts *)

Lemma shr_band_byte z s :
  0 <= z < 2 ^ 31 -> 0 <= s < 32 -> band (shr z s) 255 = (z / 2 ^ s) mod 256.
Proof.
  intros Hz Hs. unfold shr. rewrite ToInt32_small by lia.
  rewrite Z.mod_small by lia. rewrite Z.shiftr_div_pow2 by lia.
  assert (Hq : 0 <= z / 2 ^ s <= z).
  { split; [apply Z.div_pos; [lia|apply Z.pow_pos_nonneg; lia]|].
    apply Z.div_le_upper_bound; [apply Z.pow_pos_nonneg; lia|].
    assert (1 <= 2 ^ s) by (apply (Z.pow_le_mono_r 2 0 s); lia). nia. }
  rewrite band_small by lia.
  change 255 with (Z.ones 8). rewrite Z.land_ones by lia. reflexivity.
Qed.

Lemma bor_shl8 a b :
  0 <= a -> 0 <= b < 256 -> a * 256 + b < 2 ^ 31 -> bor (shl a 8) b = a * 256 + b.
Proof.
  intros Ha Hb Hsum. unfold shl. rewrite (ToInt32_small a) by lia.
  change (8 mod 32) with 8. rewrite Z.shiftl_mul_pow2 by lia. change (2 ^ 8) with 256.
  rewrite ToInt32_small by lia. rewrite bor_small by lia.
  rewrite Z.lor_comm. change 256 with (2 ^ 8). rewrite lor_above; lia.
Qed.

(** The bytes [encode] writes for [n] bytes needed, most significant
    first, are those of the number read in base 256. *)
Lemma Bits_bytes_snoc n z :
  (n <= 3)%nat -> 0 <= z < 2 ^ 31 ->
  map (fun i : nat =>
         band (shr z (Z.max 0 ((Z.of_nat (S n) - Z.of_nat i - 1) * 8))) 255) (seq 0 (S n))
  = map (fun i : nat =>
         band (shr (z / 256) (Z.max 0 ((Z.of_nat n - Z.of_nat i - 1) * 8))) 255) (seq 0 n)
    ++ [z mod 256].
Proof.
  intros Hn Hz. rewrite seq_S, map_app. cbn [map Nat.add]. f_equal.
  - apply map_ext_in. intros i Hi. apply in_seq in Hi.
    assert (Hq : 0 <= z / 256 < 2 ^ 31).
    { split; [apply Z.div_pos; lia|]. apply Z.div_lt_upper_bound; lia. }
    rewrite !Z.max_r by lia.
    rewrite !shr_band_byte by lia.
    replace ((Z.of_nat (S n) - Z.of_nat i - 1) * 8)
      with (8 + (Z.of_nat n - Z.of_nat i - 1) * 8) by lia.
    rewrite Z.pow_add_r by lia. change (2 ^ 8) with 256.
    rewrite Z.div_div by (try lia; apply Z.pow_pos_nonneg; lia). reflexivity.
  - replace ((Z.of_nat (S n) - Z.of_nat n - 1) * 8) with 0 by lia.
    rewrite shr_band_byte by lia. change (2 ^ 0) with 1. now rewrite Z.div_1_r.
Qed.

Lemma Bits_bytes_fold n : forall z,
  (n <= 4)%nat -> 0 <= z < 2 ^ 31 -> z < 2 ^ (8 * Z.of_nat n) ->
  let bytes :=
    map (fun i : nat =>
           band (shr z (Z.max 0 ((Z.of_nat n - Z.of_nat i - 1) * 8))) 255) (seq 0 n) in
  Forall isByte bytes /\ List.length bytes = n /\
  fold_left (fun value b => bor (shl value 8) b) bytes 0 = z.
Proof.
  induction n as [|n IH]; intros z Hn Hz Hzn.
  - cbn. split; [constructor|]. split; [reflexivity|]. simpl in Hzn. lia.
  - cbv zeta. rewrite Bits_bytes_snoc by lia.
    assert (Hm : 0 <= z mod 256 < 256) by (apply Z.mod_pos_bound; lia).
    assert (Hq : 0 <= z / 256 < 2 ^ 31).
    { split; [apply Z.div_pos; lia|]. apply Z.div_lt_upper_bound; lia. }
    destruct (IH (z / 256)) as (Hall & Hlen & Hfold); [lia|assumption| |].
    { apply Z.div_lt_upper_bound; [lia|].
      replace (8 * Z.of_nat (S n)) with (8 + 8 * Z.of_nat n) in Hzn by lia.
      rewrite Z.pow_add_r in Hzn by lia. change (2 ^ 8) with 256 in Hzn. lia. }
    split; [|split].
    + apply Forall_app. split; [assumption|]. constructor; [exact Hm|constructor].
    + rewrite length_app, Hlen. simpl. lia.
    + rewrite fold_left_app, Hfold. cbn [fold_left].
      pose proof (Z.div_mod z 256 ltac:(lia)).
      rewrite bor_shl8; lia.
Qed.

Lemma Bits_roundTrips bitWidth v v' :
  (1 <=? bitWidth) && (bitWidth <=? 32) = true ->
  Bits.parse bitWidth v = Ok v' ->
  roundTrips (methodsOf (LeptonBits bitWidth)) v v'.
Proof.
  intros Hw Hparse. apply andb_true_iff in Hw. destruct Hw as [Hw1 Hw2].
  apply Z.leb_le in Hw1, Hw2.
  pose proof Hparse as Hparse0. unfold Bits.parse in Hparse.
  destruct (asInteger v) as [z|] eqn:Hint; [|discriminate].
  apply asInteger_Some in Hint. subst v.
  destruct ((z <? 0) || (Bits.maxValue bitWidth <? z)) eqn:Hrange; [discriminate|].
  inversion Hparse; subst v'. clear Hparse.
  pose proof Hrange as Hrange'.
  apply orb_false_iff in Hrange'. destruct Hrange' as [Hlo Hhi].
  apply Z.ltb_ge in Hlo, Hhi.
  assert (Hcases : bitWidth <= 30 \/ bitWidth = 31 \/ bitWidth = 32) by lia.
  destruct Hcases as [Hsmall|[->| ->]].
  - (* up to 30 bits *)
    rewrite Bits_maxValue_upto_30 in Hhi by lia.
    assert (Hpow : 2 ^ bitWidth <= 2 ^ 30) by (apply Z.pow_le_mono_r; lia).
    assert (Hn : 0 <= (bitWidth + 7) / 8 <= 4 /\ bitWidth <= 8 * ((bitWidth + 7) / 8)).
    { pose proof (Z.div_mod (bitWidth + 7) 8 ltac:(lia)).
      pose proof (Z.mod_pos_bound (bitWidth + 7) 8 ltac:(lia)). lia. }
    set (n := Bits.bytesNeeded bitWidth).
    assert (Hnn : Z.of_nat n = (bitWidth + 7) / 8) by (unfold n, Bits.bytesNeeded; lia).
    destruct (Bits_bytes_fold n z) as (Hall & Hlen & Hfold); [lia|lia| |].
    { apply Z.lt_le_trans with (2 ^ bitWidth); [lia|].
      apply Z.pow_le_mono_r; lia. }
    set (bytes := map (fun i : nat =>
           band (shr z (Z.max 0 ((Z.of_nat n - Z.of_nat i - 1) * 8))) 255) (seq 0 n)) in *.
    exists (byteString bytes), (VNum (NInt z)).
    cbn [methodsOf m_encode m_rawDecode m_parse].
    split; [|split; [|split]].
    + unfold Bits.encode. cbn [asInteger]. rewrite Hrange. fold n.
      unfold byteString, bytes. now rewrite flat_map_map_arg.
    + intros rest. unfold Bits.rawDecode. fold n.
      rewrite len_app_ge by (rewrite byteString_length by assumption; lia).
      assert (Hread :
        fold_left (fun value i => bor (shl value 8)
                                      (orZero (byteAt (byteString bytes ++ rest) i)))
                  (seq 0 n) 0 = z).
      { rewrite (fold_left_map_arg (fun value b => bor (shl value 8) b)
                   (fun i => orZero (byteAt (byteString bytes ++ rest) i))).
        rewrite <- Hlen at 1.
        rewrite (map_byteAt_byteString orZero) by assumption.
        cbn [orZero]. now rewrite map_id. }
      rewrite Hread.
      rewrite sliceFrom_app_exact by (rewrite byteString_length by assumption; lia).
      fold (Bits.maxValue bitWidth). rewrite Bits_maxValue_upto_30 by lia.
      assert (Hmask : band z (2 ^ bitWidth - 1) = z).
      { rewrite band_small by lia.
        replace (2 ^ bitWidth - 1) with (Z.ones bitWidth)
          by (rewrite Z.ones_equiv; lia).
        rewrite Z.land_ones by lia. apply Z.mod_small. lia. }
      rewrite Hmask. destruct (negb _); reflexivity.
    + exact Hparse0.
    + apply sameValue_refl.
  - (* 31 bits: no value is in range *)
    change (Bits.maxValue 31) with (- 2 ^ 31 - 1) in Hhi. lia.
  - (* 32 bits: zero only *)
    change (Bits.maxValue 32) with 0 in Hhi. assert (z = 0) by lia. subst z.
    exists (byteString [0; 0; 0; 0]), (VNum (NInt 0)).
    cbn [methodsOf m_encode m_rawDecode m_parse].
    split; [reflexivity|]. split; [|split; [reflexivity|apply sameValue_refl]].
    intros rest. unfold Bits.rawDecode.
    change (Bits.bytesNeeded 32) with 4%nat.
    rewrite len_app_ge by reflexivity.
    rewrite sliceFrom_app_exact by reflexivity.
    reflexivity.
Qed.

(** ** primitive/boolean.ts, primitive/bigint.ts *)

Lemma Boolean_roundTrips v v' :
  Boolean.parse v = Ok v' -> roundTrips (methodsOf LeptonBoolean) v v'.
Proof.
  intros Hparse. destruct v as [| |b| | | | |]; try discriminate.
  assert (v' = VBool b) by (destruct b; simpl in Hparse; congruence). subst v'.
  exists (hex2 (if b then 1 else 0)), (VBool b).
  cbn [methodsOf m_encode m_rawDecode m_parse].
  split; [reflexivity|]. split; [|split; [destruct b; reflexivity|apply sameValue_refl]].
  intros rest. unfold Boolean.rawDecode.
  assert (Hb : isByte (if b then 1 else 0)) by (destruct b; unfold isByte; lia).
  rewrite len_app_pair, sliceTo_pair, sliceFrom_pair, parseInt16_pair by assumption.
  destruct b; reflexivity.
Qed.

Lemma BigInt_roundTrips v v' :
  BigInt.parse v = Ok v' -> representable LeptonBigInt v = true ->
  roundTrips (methodsOf LeptonBigInt) v v'.
Proof.
  intros Hparse Hrep. destruct v as [| | | |z| | |]; try discriminate.
  simpl in Hparse. inversion Hparse; subst v'. simpl in Hrep. apply Z.leb_le in Hrep.
  exists (encodeVarInt z), (VBigInt z).
  cbn [methodsOf m_encode m_rawDecode m_parse].
  split; [reflexivity|]. split; [|split; [reflexivity|apply sameValue_refl]].
  intros rest. unfold BigInt.rawDecode.
  now rewrite decodeVarInt_encodeVarInt.
Qed.

(** ** primitive/enum.ts *)

Lemma indexOfFrom_found values value : forall i,
  Enum.has values value = true ->
  exists k, Enum.indexOfFrom values value i = i + Z.of_nat k /\
            nth_error values k = Some value.
Proof.
  induction values as [|x values IH]; intros i Hhas; [discriminate|].
  cbn [Enum.indexOfFrom]. unfold Enum.has in Hhas. cbn [existsb] in Hhas.
  destruct (jsstring_eqb x value) eqn:E.
  - apply jsstring_eqb_eq in E. subst x. exists O. split; [simpl; lia|reflexivity].
  - assert (Hrest : Enum.has values value = true).
    { apply orb_true_iff in Hhas. destruct Hhas as [Hh|Hh]; [|exact Hh].
      apply jsstring_eqb_eq in Hh. subst. rewrite jsstring_eqb_refl in E. discriminate. }
    destruct (IH (i + 1) Hrest) as (k & Hk & Hnth).
    exists (S k). split; [lia|exact Hnth].
Qed.

Lemma Enum_roundTrips values v v' :
  wellFormed (LeptonEnum values) = true ->
  Enum.parse values v = Ok v' -> representable (LeptonEnum values) v = true ->
  roundTrips (methodsOf (LeptonEnum values)) v v'.
Proof.
  intros Hwf Hparse Hrep. destruct v as [| | | | |s| |]; try discriminate.
  pose proof Hparse as Hparse0.
  unfold Enum.parse in Hparse. cbn [ToString] in Hparse.
  destruct (Enum.has values s) eqn:Hhas; [|discriminate].
  simpl in Hparse. inversion Hparse; subst v'. clear Hparse.
  destruct (indexOfFrom_found values s 0 Hhas) as (k & Hk & Hnth).
  assert (Hlt : (k < List.length values)%nat).
  { apply nth_error_Some. congruence. }
  cbn [wellFormed] in Hwf. apply andb_true_iff in Hwf. destruct Hwf as [_ H256].
  apply Nat.leb_le in H256.
  assert (Hbyte : isByte (Z.of_nat k)) by (unfold isByte; lia).
  exists (hex2 (Z.of_nat k)), (VStr s).
  cbn [methodsOf m_encode m_rawDecode m_parse].
  split; [|split; [|split; [exact Hparse0|apply sameValue_refl]]].
  - unfold Enum.encode. rewrite Hparse0. cbn [bind Enum.indexOf]. rewrite Hk. reflexivity.
  - intros rest. unfold Enum.rawDecode.
    rewrite len_app_pair, sliceTo_pair, sliceFrom_pair, parseInt16_pair by assumption.
    replace (Z.of_nat (List.length values) <=? Z.of_nat k) with false
      by (symmetry; apply Z.leb_gt; lia).
    unfold Enum.at_.
    replace (Z.of_nat k <? 0) with false by (symmetry; apply Z.ltb_ge; lia).
    rewrite Nat2Z.id, Hnth. reflexivity.
Qed.

(** ** primitive/string.ts *)

Lemma utf8EncodeScalar_bytes cp :
  0 <= cp < 1114112 -> Forall isByte (utf8EncodeScalar cp).
Proof.
  intros Hcp. unfold utf8EncodeScalar, isByte.
  destruct (cp <? 128) eqn:E1; [apply Z.ltb_lt in E1; repeat constructor; lia|].
  destruct (cp <? 2048) eqn:E2; [apply Z.ltb_lt in E2|].
  { repeat constructor; try (pose proof (Z.mod_pos_bound cp 64); lia);
      pose proof (Z.div_mod cp 64 ltac:(lia)); pose proof (Z.mod_pos_bound cp 64); lia. }
  destruct (cp <? 65536) eqn:E3; [apply Z.ltb_lt in E3|].
  { repeat constructor;
      try (pose proof (Z.mod_pos_bound cp 64); pose proof (Z.mod_pos_bound (cp / 64) 64); lia);
      pose proof (Z.div_mod cp 4096 ltac:(lia)); pose proof (Z.mod_pos_bound cp 4096); lia. }
  repeat constructor;
    try (pose proof (Z.mod_pos_bound cp 64); pose proof (Z.mod_pos_bound (cp / 64) 64);
         pose proof (Z.mod_pos_bound (cp / 4096) 64); lia);
    pose proof (Z.div_mod cp 262144 ltac:(lia)); pose proof (Z.mod_pos_bound cp 262144); lia.
Qed.

Lemma toScalarValues_range n : forall s,
  (List.length s <= n)%nat ->
  Forall (fun c => 0 <= c < 65536) s ->
  Forall (fun cp => 0 <= cp < 1114112) (toScalarValues s).
Proof.
  induction n as [|n IH]; intros s Hlen Hall.
  - destruct s; [constructor|simpl in Hlen; lia].
  - destruct s as [|c s]; [constructor|].
    inversion Hall as [|? ? Hc Hs]; subst. cbn [toScalarValues].
    simpl in Hlen.
    destruct (isHighSurrogate c) eqn:Ehi.
    + destruct s as [|d s']; [repeat constructor; lia|].
      inversion Hs as [|? ? Hd Hs']; subst.
      destruct (isLowSurrogate d) eqn:Elo.
      * constructor; [|apply IH; [simpl in Hlen; lia|assumption]].
        unfold isHighSurrogate in Ehi. unfold isLowSurrogate in Elo.
        apply andb_true_iff in Ehi, Elo.
        rewrite !Z.leb_le in Ehi, Elo. lia.
      * constructor; [lia|]. apply IH; [lia|assumption].
    + destruct (isLowSurrogate c); (constructor; [lia|apply IH; [lia|assumption]]).
Qed.

Lemma utf8Encode_bytes s :
  Forall (fun c => 0 <= c < 65536) s -> Forall isByte (utf8Encode s).
Proof.
  intros Hall. unfold utf8Encode.
  pose proof (toScalarValues_range (List.length s) s (le_n _) Hall) as Hcps.
  induction Hcps as [|cp cps Hcp _ IH]; [constructor|].
  cbn [flat_map]. apply Forall_app. split; [now apply utf8EncodeScalar_bytes|exact IH].
Qed.

(** ** UTF-8: what the encoder writes, the decoder reads *)

Lemma continuation_bits acc low :
  0 <= acc -> 0 <= low < 64 ->
  Z.lor (Z.shiftl acc 6) (Z.land (128 + low) 63) = acc * 64 + low.
Proof.
  intros Hacc Hlow.
  change 63 with (Z.ones 6). rewrite Z.land_ones by lia.
  replace ((128 + low) mod 2 ^ 6) with low
    by (change (2 ^ 6) with 64; Z.div_mod_to_equations; lia).
  rewrite Z.shiftl_mul_pow2 by lia. rewrite Z.lor_comm.
  rewrite lor_above by (change (2 ^ 6) with 64; lia).
  change (2 ^ 6) with 64. lia.
Qed.

Lemma lead_bits lead x k :
  0 <= k -> 0 <= x < 2 ^ k -> lead mod 2 ^ k = 0 ->
  Z.land (lead + x) (Z.ones k) = x.
Proof.
  intros Hk Hx Hlead. rewrite Z.land_ones by lia.
  rewrite Z.add_mod by lia. rewrite Hlead, Z.add_0_l, Z.mod_mod by lia.
  apply Z.mod_small. exact Hx.
Qed.

Ltac decide_cmp :=
  repeat match goal with
  | |- context [?a <=? ?b] =>
      first [ replace (a <=? b) with true by (symmetry; apply Z.leb_le; Z.div_mod_to_equations; lia)
            | replace (a <=? b) with false by (symmetry; apply Z.leb_gt; Z.div_mod_to_equations; lia) ]
  | |- context [?a <? ?b] =>
      first [ replace (a <? b) with true by (symmetry; apply Z.ltb_lt; Z.div_mod_to_equations; lia)
            | replace (a <? b) with false by (symmetry; apply Z.ltb_ge; Z.div_mod_to_equations; lia) ]
  | |- context [?a =? ?b] =>
      first [ replace (a =? b) with true by (symmetry; apply Z.eqb_eq; Z.div_mod_to_equations; lia)
            | replace (a =? b) with false by (symmetry; apply Z.eqb_neq; Z.div_mod_to_equations; lia) ]
  end.

Ltac utf8_step :=
  cbn [app utf8Run utf8Initial utf8BytesNeeded utf8BytesSeen utf8Lower utf8Upper
       utf8CodePoint andb orb];
  decide_cmp;
  cbn [app utf8Run utf8Initial utf8BytesNeeded utf8BytesSeen utf8Lower utf8Upper
       utf8CodePoint andb orb].

Lemma utf8Run_scalar cp rest :
  isScalarValue cp ->
  utf8Run (utf8EncodeScalar cp ++ rest) utf8Initial = cp :: utf8Run rest utf8Initial.
Proof.
  intros [Hrange Hsur]. unfold utf8EncodeScalar.
  destruct (cp <? 128) eqn:E1; [apply Z.ltb_lt in E1|apply Z.ltb_ge in E1].
  { utf8_step. unfold utf8Lead. utf8_step. reflexivity. }
  destruct (cp <? 2048) eqn:E2; [apply Z.ltb_lt in E2|apply Z.ltb_ge in E2].
  { utf8_step. unfold utf8Lead. do 3 utf8_step.
    change 31 with (Z.ones 5).
    rewrite (lead_bits 192 (cp / 64) 5) by (try reflexivity; Z.div_mod_to_equations; lia).
    rewrite continuation_bits by (Z.div_mod_to_equations; lia).
    f_equal. Z.div_mod_to_equations; lia. }
  destruct (cp <? 65536) eqn:E3; [apply Z.ltb_lt in E3|apply Z.ltb_ge in E3].
  { utf8_step. unfold utf8Lead. utf8_step.
    change 15 with (Z.ones 4).
    rewrite (lead_bits 224 (cp / 4096) 4) by (try reflexivity; Z.div_mod_to_equations; lia).
    destruct (224 + cp / 4096 =? 224) eqn:F1; destruct (224 + cp / 4096 =? 237) eqn:F2;
      rewrite ?Z.eqb_eq, ?Z.eqb_neq in F1, F2; try (exfalso; lia);
      do 4 utf8_step;
      rewrite (continuation_bits (cp / 4096)) by (Z.div_mod_to_equations; lia);
      rewrite continuation_bits by (Z.div_mod_to_equations; lia);
      f_equal; Z.div_mod_to_equations; lia. }
  utf8_step. unfold utf8Lead. utf8_step.
  change 7 with (Z.ones 3).
  rewrite (lead_bits 240 (cp / 262144) 3) by (try reflexivity; Z.div_mod_to_equations; lia).
  destruct (240 + cp / 262144 =? 240) eqn:F1; destruct (240 + cp / 262144 =? 244) eqn:F2;
    rewrite ?Z.eqb_eq, ?Z.eqb_neq in F1, F2; try (exfalso; lia);
    do 5 utf8_step;
    rewrite (continuation_bits (cp / 262144)) by (Z.div_mod_to_equations; lia);
    rewrite (continuation_bits (cp / 262144 * 64 + (cp / 4096) mod 64))
      by (Z.div_mod_to_equations; lia);
    rewrite continuation_bits by (Z.div_mod_to_equations; lia);
    f_equal; Z.div_mod_to_equations; lia.
Qed.

Lemma utf8Run_scalars cps :
  Forall isScalarValue cps ->
  utf8Run (flat_map utf8EncodeScalar cps) utf8Initial = cps.
Proof.
  induction 1 as [|cp cps Hcp _ IH]; [reflexivity|].
  cbn [flat_map]. rewrite utf8Run_scalar by exact Hcp. now rewrite IH.
Qed.

Lemma isHighSurrogate_spec c : isHighSurrogate c = true <-> 55296 <= c <= 56319.
Proof. unfold isHighSurrogate. rewrite andb_true_iff, !Z.leb_le. tauto. Qed.

Lemma isLowSurrogate_spec c : isLowSurrogate c = true <-> 56320 <= c <= 57343.
Proof. unfold isLowSurrogate. rewrite andb_true_iff, !Z.leb_le. tauto. Qed.

(** On a string whose surrogates are paired, the scalar values are those of
    its code points, and the code points give the string back. *)
Lemma toScalarValues_paired n : forall s,
  (List.length s <= n)%nat ->
  forallb (fun c => (0 <=? c) && (c <? 65536)) s = true ->
  pairedSurrogates s = true ->
  Forall isScalarValue (toScalarValues s) /\
  flat_map fromScalarValue (toScalarValues s) = s /\
  match s with
  | c :: _ => match toScalarValues s with
              | cp :: _ => if isHighSurrogate c then 65536 <= cp else cp = c
              | [] => False
              end
  | [] => True
  end.
Proof.
  induction n as [|n IH]; intros s Hlen Hunits Hpaired.
  - destruct s; [repeat split; constructor|simpl in Hlen; lia].
  - destruct s as [|c s]; [repeat split; constructor|].
    cbn [forallb] in Hunits. apply andb_true_iff in Hunits. destruct Hunits as [Hc Hunits].
    apply andb_true_iff in Hc. rewrite Z.leb_le, Z.ltb_lt in Hc.
    cbn [pairedSurrogates toScalarValues] in *. simpl in Hlen.
    destruct (isHighSurrogate c) eqn:Ehi.
    + destruct s as [|d s']; [discriminate|].
      apply andb_true_iff in Hpaired. destruct Hpaired as [Elo Hpaired].
      rewrite Elo.
      cbn [forallb] in Hunits. apply andb_true_iff in Hunits. destruct Hunits as [_ Hunits].
      apply isHighSurrogate_spec in Ehi. apply isLowSurrogate_spec in Elo.
      destruct (IH s' ltac:(simpl in Hlen; lia) Hunits Hpaired) as (Hall & Hback & _).
      split; [|split].
      * constructor; [unfold isScalarValue; lia|exact Hall].
      * cbn [flat_map]. rewrite Hback. unfold fromScalarValue.
        replace (_ <? 65536) with false by (symmetry; apply Z.ltb_ge; lia).
        cbn [app]. f_equal; [|f_equal]; Z.div_mod_to_equations; lia.
      * lia.
    + apply andb_true_iff in Hpaired. destruct Hpaired as [Elo Hpaired].
      apply negb_true_iff in Elo. rewrite Elo.
      destruct (IH s ltac:(lia) Hunits Hpaired) as (Hall & Hback & _).
      assert (Hnot : ~ 55296 <= c <= 57343).
      { intros Hsur. destruct (Z.le_gt_cases c 56319).
        - assert (isHighSurrogate c = true) by (apply isHighSurrogate_spec; lia). congruence.
        - assert (isLowSurrogate c = true) by (apply isLowSurrogate_spec; lia). congruence. }
      split; [|split].
      * constructor; [unfold isScalarValue; lia|exact Hall].
      * cbn [flat_map]. rewrite Hback. unfold fromScalarValue.
        replace (_ <? 65536) with true by (symmetry; apply Z.ltb_lt; lia). reflexivity.
      * reflexivity.
Qed.

(** A string without a lone surrogate and without a leading byte order mark
    is read back from its UTF-8 bytes as it is. *)
Lemma utf8Decode_utf8Encode s :
  wellFormedString s = true -> utf8Decode (utf8Encode s) = s.
Proof.
  unfold wellFormedString. intros H.
  apply andb_true_iff in H. destruct H as [H Hbom].
  apply andb_true_iff in H. destruct H as [Hunits Hpaired].
  destruct (toScalarValues_paired (List.length s) s (le_n _) Hunits Hpaired)
    as (Hall & Hback & Hhead).
  unfold utf8Decode, utf8Encode. rewrite utf8Run_scalars by exact Hall.
  destruct s as [|c s]; [reflexivity|].
  destruct (toScalarValues (c :: s)) as [|cp cps] eqn:Ecps; [contradiction|].
  assert (Hcp : cp <> 65279).
  { destruct (isHighSurrogate c); [lia|]. subst cp. intros ->. discriminate. }
  destruct cp as [|p|p]; try exact Hback.
  repeat (destruct p as [p|p|]; try exact Hback). congruence.
Qed.

Lemma String_roundTrips v v' :
  String_.parse v = Ok v' -> representable LeptonString v = true ->
  roundTrips (methodsOf LeptonString) v v'.
Proof.
  intros Hparse Hrep. destruct v as [| | | | |s| |]; try discriminate.
  simpl in Hparse. inversion Hparse; subst v'. clear Hparse.
  cbn [representable] in Hrep.
  pose proof (utf8Decode_utf8Encode s Hrep) as Hutf8.
  unfold wellFormedString in Hrep.
  apply andb_true_iff in Hrep. destruct Hrep as [Hrep _].
  apply andb_true_iff in Hrep. destruct Hrep as [Hunits _].
  assert (Hbytes : Forall isByte (utf8Encode s)).
  { apply utf8Encode_bytes. apply Forall_forall. intros c Hc.
    rewrite forallb_forall in Hunits. specialize (Hunits c Hc).
    apply andb_true_iff in Hunits. rewrite Z.leb_le, Z.ltb_lt in Hunits. exact Hunits. }
  set (bytes := utf8Encode s) in *.
  exists (encodeVarInt (Z.of_nat (List.length bytes)) ++ byteString bytes), (VStr s).
  cbn [methodsOf m_encode m_rawDecode m_parse].
  split; [reflexivity|]. split; [|split; [reflexivity|apply sameValue_refl]].
  intros rest. unfold String_.rawDecode.
  rewrite <- app_assoc, decodeVarInt_encodeVarInt by lia.
  rewrite len_app_ge by (rewrite byteString_length by assumption; lia).
  rewrite Nat2Z.id.
  rewrite (map_byteAt_byteString ToUint8_nan) by assumption.
  assert (Hid : map (fun b => ToUint8_nan (Some b)) bytes = bytes).
  { rewrite <- (map_id bytes) at 2. apply map_ext_in. intros b Hb.
    rewrite Forall_forall in Hbytes. specialize (Hbytes b Hb).
    cbn [ToUint8_nan]. apply Z.mod_small. exact Hbytes. }
  rewrite Hid, Hutf8.
  rewrite sliceFrom_app_exact by (rewrite byteString_length by assumption; lia).
  reflexivity.
Qed.

(* ================================================================== *)
(** * Round trips of the wrappers *)
(* ================================================================== *)

Lemma withPath_Ok {A} key (r : result A) a : withPath key r = Ok a <-> r = Ok a.
Proof.
  unfold withPath. destruct r as [x|[e|]]; split; intros H; try discriminate; exact H.
Qed.

Lemma sameValue_undefined r : sameValue r VUndefined -> r = VUndefined.
Proof. intros H. inversion H; reflexivity. Qed.

Lemma Optional_roundTrips m v v' :
  (v <> VUndefined -> roundTrips m v v') ->
  Optional.parse m v = Ok v' ->
  roundTrips (mkMethods (Optional.parse m) (Optional.encode m) (Optional.rawDecode m) true)
             v v'.
Proof.
  intros Hinner Hparse. unfold roundTrips. cbn [m_encode m_rawDecode m_parse].
  destruct (match v with VUndefined => true | _ => false end) eqn:Hv.
  - destruct v; try discriminate. simpl in Hparse. inversion Hparse; subst v'.
    exists (hex2 0), VUndefined.
    split; [reflexivity|]. split; [|split; [reflexivity|apply sameValue_refl]].
    intros rest. now rewrite Optional_rawDecode_flag by (unfold isByte; lia).
  - destruct Hinner as (bytes & r & Henc & Hdec & Hpar & Hsame);
      [intros ->; discriminate|].
    exists (hex2 1 ++ bytes), r.
    split; [|split; [|split; [|exact Hsame]]].
    + unfold Optional.encode. rewrite Henc. destruct v; try reflexivity. discriminate.
    + intros rest. rewrite <- app_assoc.
      rewrite Optional_rawDecode_flag by (unfold isByte; lia). apply Hdec.
    + unfold Optional.parse. destruct r; try exact Hpar. reflexivity.
Qed.

Lemma Nullable_roundTrips m v v' :
  (v <> VNull -> roundTrips m v v') ->
  Nullable.parse m v = Ok v' ->
  roundTrips (mkMethods (Nullable.parse m) (Nullable.encode m) (Nullable.rawDecode m) false)
             v v'.
Proof.
  intros Hinner Hparse. unfold roundTrips. cbn [m_encode m_rawDecode m_parse].
  destruct (match v with VNull => true | _ => false end) eqn:Hv.
  - destruct v; try discriminate. simpl in Hparse. inversion Hparse; subst v'.
    exists (hex2 1), VNull.
    split; [reflexivity|]. split; [|split; [reflexivity|apply sameValue_refl]].
    intros rest. now rewrite Nullable_rawDecode_flag by (unfold isByte; lia).
  - destruct Hinner as (bytes & r & Henc & Hdec & Hpar & Hsame);
      [intros ->; discriminate|].
    exists (hex2 0 ++ bytes), r.
    split; [|split; [|split; [|exact Hsame]]].
    + unfold Nullable.encode. rewrite Henc. destruct v; try reflexivity. discriminate.
    + intros rest. rewrite <- app_assoc.
      rewrite Nullable_rawDecode_flag by (unfold isByte; lia). apply Hdec.
    + unfold Nullable.parse. destruct r; try exact Hpar. reflexivity.
Qed.

(** ** wrapper/array.ts *)

Lemma Array_parseFrom_Forall2 m : forall elems i vs,
  Array.parseFrom m i elems = Ok vs ->
  Forall2 (fun x y => m_parse m x = Ok y) elems vs.
Proof.
  induction elems as [|x elems IH]; intros i vs H.
  - simpl in H. inversion H. constructor.
  - cbn [Array.parseFrom] in H.
    destruct (withPath (indexKey i) (m_parse m x)) as [y|] eqn:Hy; [|discriminate].
    apply withPath_Ok in Hy. cbn [bind] in H.
    destruct (Array.parseFrom m (S i) elems) as [ys|] eqn:Hys; [|discriminate].
    cbn [bind] in H. inversion H; subst vs.
    constructor; [exact Hy|]. eapply IH. exact Hys.
Qed.

Lemma Array_elements_roundTrip m : forall elems vs,
  Forall2 (fun x y => roundTrips m x y) elems vs ->
  exists bs rs,
    Array.encodeElements m elems = Ok bs /\
    (forall i rest,
        Array.decodeElements m (List.length elems) i (bs ++ rest) = Ok (rs, rest)) /\
    (forall i, Array.parseFrom m i rs = Ok rs) /\
    Forall2 sameValue rs vs.
Proof.
  induction 1 as [|x y elems vs (b & r & Henc & Hdec & Hpar & Hsame) _ IH].
  - exists [], []. split; [reflexivity|]. split; [reflexivity|].
    split; [reflexivity|constructor].
  - destruct IH as (bs & rs & Hencs & Hdecs & Hpars & Hsames).
    exists (b ++ bs), (r :: rs). split; [|split; [|split]].
    + cbn [Array.encodeElements]. rewrite Henc. cbn [bind]. rewrite Hencs. reflexivity.
    + intros i rest. cbn [List.length Array.decodeElements].
      rewrite <- app_assoc, Hdec. cbn [withPath bind]. rewrite Hdecs. reflexivity.
    + intros i. cbn [Array.parseFrom]. rewrite Hpar. cbn [withPath bind].
      rewrite Hpars. reflexivity.
    + constructor; assumption.
Qed.

Lemma Array_roundTrips m v v' :
  (forall elems, v = VArr elems ->
                 Forall (fun x => forall y, m_parse m x = Ok y -> roundTrips m x y) elems) ->
  Array.parse m v = Ok v' ->
  roundTrips (mkMethods (Array.parse m) (Array.encode m) (Array.rawDecode m) false) v v'.
Proof.
  intros Hinner Hparse. destruct v as [| | | | | |elems|]; try discriminate.
  specialize (Hinner elems eq_refl).
  cbn [Array.parse] in Hparse.
  destruct (Array.parseFrom m 0 elems) as [vs|] eqn:Hvs; [|discriminate].
  cbn [bind] in Hparse. inversion Hparse; subst v'. clear Hparse.
  apply Array_parseFrom_Forall2 in Hvs.
  assert (Hrt : Forall2 (fun x y => roundTrips m x y) elems vs).
  { clear - Hinner Hvs. induction Hvs as [|x y elems vs Hxy _ IH]; [constructor|].
    inversion Hinner; subst. constructor; auto. }
  destruct (Array_elements_roundTrip m elems vs Hrt) as (bs & rs & Henc & Hdec & Hpar & Hsame).
  exists (encodeVarInt (Z.of_nat (List.length elems)) ++ bs), (VArr rs).
  cbn [m_encode m_rawDecode m_parse].
  split; [|split; [|split]].
  - cbn [Array.encode]. rewrite Henc. reflexivity.
  - intros rest. unfold Array.rawDecode.
    rewrite <- app_assoc, decodeVarInt_encodeVarInt by lia.
    rewrite Nat2Z.id, Hdec. reflexivity.
  - cbn [Array.parse]. rewrite Hpar. reflexivity.
  - apply sameValue_array. exact Hsame.
Qed.

(* ================================================================== *)
(** * Round trips of objects *)
(* ================================================================== *)

Section Properties.
Context {A : Type}.
Implicit Types (props res rs : list (jsstring * A)) (key : jsstring).

Lemma lookup_assign props k x key :
  lookup key (assign props k x)
    = if jsstring_eqb k key then Some x else lookup key props.
Proof.
  induction props as [|[k0 x0] props IH]; cbn [assign lookup].
  - reflexivity.
  - destruct (jsstring_eqb k0 k) eqn:E0.
    + apply jsstring_eqb_eq in E0. subst k0. cbn [lookup].
      destruct (jsstring_eqb k key); reflexivity.
    + cbn [lookup]. destruct (jsstring_eqb k0 key) eqn:E1.
      * apply jsstring_eqb_eq in E1. subst k0.
        replace (jsstring_eqb k key) with false; [reflexivity|].
        symmetry. apply jsstring_eqb_neq. intros ->.
        rewrite jsstring_eqb_refl in E0. discriminate.
      * exact IH.
Qed.

Lemma lookup_insertIndexed props i k x key :
  lookup k props = None ->
  lookup key (insertIndexed props i k x)
    = if jsstring_eqb k key then Some x else lookup key props.
Proof.
  induction props as [|[k0 x0] props IH]; intros Hnew; cbn [insertIndexed lookup].
  - reflexivity.
  - cbn [lookup] in Hnew. destruct (jsstring_eqb k0 k) eqn:E0; [discriminate|].
    destruct (asArrayIndex k0) as [j|]; [destruct (j <? i)|]; cbn [lookup]; try reflexivity.
    rewrite (IH Hnew). destruct (jsstring_eqb k key) eqn:E1; [|reflexivity].
    apply jsstring_eqb_eq in E1. subst key. now rewrite E0.
Qed.

Lemma lookup_setProperty props k x key :
  lookup key (setProperty props k x)
    = if jsstring_eqb k key then Some x else lookup key props.
Proof.
  unfold setProperty.
  destruct (asArrayIndex k) as [i|]; [destruct (lookup k props) eqn:Hk|];
    try apply lookup_assign.
  now apply lookup_insertIndexed.
Qed.

Lemma lookup_None_keys props key :
  lookup key props = None <-> ~ In key (map fst props).
Proof.
  induction props as [|[k x] props IH]; cbn [lookup map fst In]; [tauto|].
  destruct (jsstring_eqb k key) eqn:E.
  - apply jsstring_eqb_eq in E. split; [discriminate|tauto].
  - apply jsstring_eqb_neq in E. rewrite IH. tauto.
Qed.

Lemma lookup_In_unique props k x :
  uniqueKeys props = true -> In (k, x) props -> lookup k props = Some x.
Proof.
  induction props as [|[k0 x0] props IH]; intros Hu Hin; [destruct Hin|].
  cbn [uniqueKeys] in Hu. destruct (lookup k0 props) eqn:Hk0; [discriminate|].
  cbn [lookup]. destruct Hin as [Heq|Hin].
  - inversion Heq; subst. now rewrite jsstring_eqb_refl.
  - destruct (jsstring_eqb k0 k) eqn:E; [|now apply IH].
    apply jsstring_eqb_eq in E. subst k0.
    apply lookup_None_keys in Hk0. exfalso. apply Hk0.
    apply in_map_iff. exists (k, x). split; [reflexivity|assumption].
Qed.

Lemma lookup_mergeShapes rs : forall res key,
  uniqueKeys rs = true ->
  lookup key (Object_.mergeShapes res rs)
    = match lookup key rs with Some r => Some r | None => lookup key res end.
Proof.
  induction rs as [|[k r] rs IH]; intros res key Hu; [reflexivity|].
  cbn [uniqueKeys] in Hu. destruct (lookup k rs) eqn:Hk; [discriminate|].
  unfold Object_.mergeShapes in *. cbn [fold_left fst snd lookup].
  rewrite IH by assumption. rewrite lookup_setProperty.
  destruct (jsstring_eqb k key) eqn:E; [|reflexivity].
  apply jsstring_eqb_eq in E. subst k. now rewrite Hk.
Qed.

Lemma keys_assign props k x key :
  In key (map fst (assign props k x)) -> key = k \/ In key (map fst props).
Proof.
  induction props as [|[k0 x0] props IH]; cbn [assign map fst In].
  - intros [H|[]]. left. congruence.
  - destruct (jsstring_eqb k0 k) eqn:E; cbn [map fst In].
    + tauto.
    + intros [H|H]; [tauto|]. destruct (IH H); tauto.
Qed.

Lemma keys_insertIndexed props i k x key :
  In key (map fst (insertIndexed props i k x)) -> key = k \/ In key (map fst props).
Proof.
  induction props as [|[k0 x0] props IH]; cbn [insertIndexed map fst In].
  - intros [H|[]]. left. congruence.
  - destruct (asArrayIndex k0) as [j|]; [destruct (j <? i)|]; cbn [map fst In].
    + intros [H|H]; [tauto|]. destruct (IH H); tauto.
    + intros [H|H]; [left; congruence|tauto].
    + intros [H|H]; [left; congruence|tauto].
Qed.

Lemma keys_setProperty props k x key :
  In key (map fst (setProperty props k x)) -> key = k \/ In key (map fst props).
Proof.
  unfold setProperty.
  destruct (asArrayIndex k) as [i|]; [destruct (lookup k props)|];
    first [apply keys_assign|apply keys_insertIndexed].
Qed.

Lemma keys_mergeShapes rs : forall res key,
  In key (map fst (Object_.mergeShapes res rs)) ->
  In key (map fst res) \/ In key (map fst rs).
Proof.
  induction rs as [|[k r] rs IH]; intros res key Hin; [left; exact Hin|].
  unfold Object_.mergeShapes in *. cbn [fold_left fst snd] in Hin.
  destruct (IH _ _ Hin) as [H|H].
  - apply keys_setProperty in H. cbn [map fst In]. destruct H; [right; left; congruence|tauto].
  - right. right. exact H.
Qed.

End Properties.

Lemma uniqueKeys_same_keys {A B} (props : list (jsstring * A))
(props' : list (jsstring * B)) :
  map fst props' = map fst props -> uniqueKeys props = true -> uniqueKeys props' = true.
Proof.
  revert props'. induction props as [|[k x] props IH]; intros props' Hkeys Hu.
  - destruct props'; [reflexivity|discriminate].
  - destruct props' as [|[k' x'] props']; [discriminate|].
    cbn [map fst] in Hkeys. injection Hkeys as Hhead Htail. subst k'.
    cbn [uniqueKeys] in *. destruct (lookup k props) eqn:Hk; [discriminate|].
    replace (lookup k props') with (@None B).
    + now apply IH.
    + symmetry. apply lookup_None_keys. rewrite Htail.
      now apply lookup_None_keys.
Qed.

Lemma lookup_entries {A B} (f : A -> B) (shape : list (jsstring * A)) key :
  lookup key (map (fun e => let '(k, s) := e in (k, f s)) shape)
    = option_map f (lookup key shape).
Proof.
  induction shape as [|[k s] shape IH]; [reflexivity|].
  cbn [map lookup]. destruct (jsstring_eqb k key); [reflexivity|exact IH].
Qed.

Lemma entries_keys {A B} (f : A -> B) (shape : list (jsstring * A)) :
  map fst (map (fun e => let '(k, s) := e in (k, f s)) shape) = map fst shape.
Proof.
  induction shape as [|[k s] shape IH]; [reflexivity|]. cbn [map fst]. now rewrite IH.
Qed.

Lemma getProperty_absent v key : hasProperty key v = false -> getProperty v key = VUndefined.
Proof.
  unfold hasProperty, getProperty. destruct (getOwnProperty v key); [discriminate|reflexivity].
Qed.

(** What the loop of [parse] builds: under each key of the shape that the
    input has, the validated field; the other properties as they were. *)
Lemma Object_parseFields_spec v : forall entries res v',
  uniqueKeys entries = true ->
  Object_.parseFields entries v res = Ok v' ->
  (exists props',
      v' = VObj props' /\
      forall key,
        lookup key props' =
          match lookup key entries with
          | Some m => if hasProperty key v then Some (fieldResult v key m)
                      else lookup key res
          | None => lookup key res
          end) /\
  Forall (fun e =>
            (hasProperty (fst e) v = true /\
             exists y, m_parse (snd e) (getProperty v (fst e)) = Ok y) \/
            (hasProperty (fst e) v = false /\ m_isOptional (snd e) = true)) entries.
Proof.
  induction entries as [|[k m] entries IH]; intros res v' Hu Hparse.
  - simpl in Hparse. inversion Hparse; subst v'. split; [|constructor].
    exists res. split; [reflexivity|]. intros key. reflexivity.
  - cbn [uniqueKeys] in Hu. destruct (lookup k entries) eqn:Hk; [discriminate|].
    cbn [Object_.parseFields] in Hparse.
    destruct (hasProperty k v) eqn:Hhas; cbn [negb andb] in Hparse.
    + destruct (withPath k (m_parse m (getProperty v k))) as [y|] eqn:Hy; [|discriminate].
      apply withPath_Ok in Hy. cbn [bind] in Hparse.
      destruct (IH _ _ Hu Hparse) as ((props' & -> & Hlook) & Hall).
      split; [|constructor; [left; split; [exact Hhas|exists y; exact Hy]|exact Hall]].
      exists props'. split; [reflexivity|]. intros key. rewrite Hlook.
      cbn [lookup]. rewrite lookup_setProperty.
      destruct (jsstring_eqb k key) eqn:E.
      * apply jsstring_eqb_eq in E. subst key. rewrite Hk, Hhas.
        unfold fieldResult. now rewrite Hy.
      * destruct (lookup key entries); [destruct (hasProperty key v)|]; reflexivity.
    + destruct (m_isOptional m) eqn:Hopt; cbn [negb] in Hparse; [|discriminate].
      destruct (IH _ _ Hu Hparse) as ((props' & -> & Hlook) & Hall).
      split; [|constructor; [right; split; assumption|exact Hall]].
      exists props'. split; [reflexivity|]. intros key. rewrite Hlook.
      cbn [lookup]. destruct (jsstring_eqb k key) eqn:E; [|reflexivity].
      apply jsstring_eqb_eq in E. subst key. now rewrite Hk, Hhas.
Qed.

(** The loops of [encode] and [_rawDecode] over fields that round-trip. *)
Lemma Object_fields_roundTrip v : forall entries,
  Object_.isObject v = true ->
  Forall (fun e => roundTrips (snd e) (getProperty v (fst e))
                              (fieldResult v (fst e) (snd e))) entries ->
  exists bs rs,
    Object_.encodeFields entries v = Ok bs /\
    map fst rs = map fst entries /\
    Forall2 (fun e kr => fst kr = fst e /\
                         m_parse (snd e) (snd kr) = Ok (snd kr) /\
                         sameValue (snd kr) (fieldResult v (fst e) (snd e))) entries rs /\
    forall res rest,
      Object_.decodeFields entries res (bs ++ rest)
        = Ok (VObj (Object_.mergeShapes res rs), rest).
Proof.
  intros entries Hobj Hall.
  induction Hall as [|[k m] entries (b & r & Henc & Hdec & Hpar & Hsame) _ IH].
  - exists [], []. split; [reflexivity|]. split; [reflexivity|].
    split; [constructor|]. intros res rest. reflexivity.
  - destruct IH as (bs & rs & Hencs & Hkeys & Hrel & Hdecs).
    cbn [fst snd] in *.
    exists (b ++ bs), ((k, r) :: rs). split; [|split; [|split]].
    + cbn [Object_.encodeFields]. rewrite Henc, Hencs.
      destruct v; try discriminate; reflexivity.
    + cbn [map fst]. now rewrite Hkeys.
    + constructor; [|exact Hrel]. cbn [fst snd]. auto.
    + intros res rest. cbn [Object_.decodeFields].
      rewrite <- app_assoc, Hdec. cbn [withPath bind]. rewrite Hdecs. reflexivity.
Qed.

(** [parse] accepts the object [_rawDecode] builds, as it is. *)
Lemma Object_parseFields_decoded obj : forall entries rs res,
  Forall2 (fun (e : jsstring * methods) (kr : jsstring * Value) =>
             fst kr = fst e /\ m_parse (snd e) (snd kr) = Ok (snd kr)) entries rs ->
  (forall k r, In (k, r) rs -> getOwnProperty obj k = Some r) ->
  Object_.parseFields entries obj res = Ok (VObj (Object_.mergeShapes res rs)).
Proof.
  intros entries rs res Hrel. revert res.
  induction Hrel as [|[k m] [k' r] entries rs [Hk Hpar] _ IH]; intros res Hown.
  - reflexivity.
  - cbn [fst snd] in *. subst k'.
    cbn [Object_.parseFields]. unfold hasProperty, getProperty.
    rewrite (Hown k r) by (left; reflexivity). cbn [negb andb].
    rewrite Hpar. cbn [withPath bind].
    rewrite IH by (intros k0 r0 Hin; apply Hown; right; exact Hin). reflexivity.
Qed.

Lemma filter_none {A} (f : A -> bool) l : (forall x, In x l -> f x = false) -> filter f l = [].
Proof.
  induction l as [|x l IH]; intros H; [reflexivity|].
  cbn [filter]. rewrite (H x) by (left; reflexivity).
  apply IH. intros y Hy. apply H. right. exact Hy.
Qed.

Lemma lookup_Some_In {A} (props : list (jsstring * A)) key x :
  lookup key props = Some x -> In (key, x) props.
Proof.
  induction props as [|[k x0] props IH]; [discriminate|].
  cbn [lookup]. destruct (jsstring_eqb k key) eqn:E.
  - apply jsstring_eqb_eq in E. intros H. inversion H; subst. left. reflexivity.
  - intros H. right. apply IH. exact H.
Qed.

(** Under the same key, related lists hold related entries. *)
Lemma lookup_Forall2 {A B} (R : jsstring -> A -> B -> Prop)
  (entries : list (jsstring * A)) (rs : list (jsstring * B)) key :
  Forall2 (fun e kr => fst kr = fst e /\ R (fst e) (snd e) (snd kr)) entries rs ->
  match lookup key entries, lookup key rs with
  | Some m, Some r => R key m r
  | None, None => True
  | _, _ => False
  end.
Proof.
  induction 1 as [|[k m] [k' r] entries rs [Hk HR] _ IH]; [exact I|].
  cbn [fst snd] in *. subst k'. cbn [lookup].
  destruct (jsstring_eqb k key) eqn:E; [|exact IH].
  apply jsstring_eqb_eq in E. subst k. exact HR.
Qed.

Lemma Object_roundTrips entries isStrict v v' :
  uniqueKeys entries = true ->
  (forall k m, In (k, m) entries -> m_isOptional m = true ->
               m_parse m VUndefined = Ok VUndefined) ->
  (forall k m y, In (k, m) entries -> m_parse m (getProperty v k) = Ok y ->
                 roundTrips m (getProperty v k) y) ->
  Object_.parse entries isStrict v = Ok v' ->
  roundTrips (mkMethods (Object_.parse entries isStrict) (Object_.encode entries)
                        (Object_.rawDecode entries) false) v v'.
Proof.
  intros Hu Hopt Hinner Hparse. unfold Object_.parse in Hparse.
  destruct (Object_.isObject v) eqn:Hobj; cbn [negb] in Hparse; [|discriminate].
  destruct (isStrict && negb (List.length (Object_.extraKeys entries v) =? 0)%nat);
    [discriminate|].
  destruct (Object_parseFields_spec v entries [] v' Hu Hparse)
    as ((props' & -> & Hlook) & Hfields).
  (* every field of the shape has a validated form, undefined when absent *)
  assert (Hres : Forall (fun e =>
            m_parse (snd e) (getProperty v (fst e)) = Ok (fieldResult v (fst e) (snd e)) /\
            (hasProperty (fst e) v = false -> fieldResult v (fst e) (snd e) = VUndefined))
          entries).
  { apply Forall_forall. intros [k m] Hin. cbn [fst snd].
    rewrite Forall_forall in Hfields. specialize (Hfields _ Hin). cbn [fst snd] in Hfields.
    unfold fieldResult.
    destruct Hfields as [[Hhas [y Hy]]|[Hhas Hm]].
    - rewrite Hy. split; [reflexivity|]. rewrite Hhas. discriminate.
    - rewrite (getProperty_absent _ _ Hhas), (Hopt k m Hin Hm). split; reflexivity. }
  assert (Hrt : Forall (fun e => roundTrips (snd e) (getProperty v (fst e))
                                            (fieldResult v (fst e) (snd e))) entries).
  { apply Forall_forall. intros [k m] Hin. cbn [fst snd].
    rewrite Forall_forall in Hres. destruct (Hres _ Hin) as [Hy _]. cbn [fst snd] in Hy.
    now apply (Hinner k m). }
  destruct (Object_fields_roundTrip v entries Hobj Hrt) as (bs & rs & Henc & Hkeys & Hrel & Hdec).
  assert (Hurs : uniqueKeys rs = true) by (eapply uniqueKeys_same_keys; eassumption).
  exists bs, (VObj (Object_.mergeShapes [] rs)).
  cbn [m_encode m_rawDecode m_parse].
  split; [exact Henc|]. split; [intros rest; apply Hdec|]. split.
  - (* the decoded object is accepted as it is *)
    unfold Object_.parse. cbn [Object_.isObject negb].
    assert (Hextra : Object_.extraKeys entries (VObj (Object_.mergeShapes [] rs)) = []).
    { unfold Object_.extraKeys. apply filter_none. intros key Hin. cbn [objectKeys] in Hin.
      apply keys_mergeShapes in Hin. destruct Hin as [[]|Hin].
      rewrite Hkeys in Hin. unfold inShape.
      destruct (lookup key entries) eqn:E; [reflexivity|].
      apply lookup_None_keys in E. contradiction. }
    rewrite Hextra. cbn [List.length Nat.eqb negb]. rewrite andb_false_r.
    apply Object_parseFields_decoded.
    + eapply Forall2_impl; [|exact Hrel]. cbn beta. intros e kr (H1 & H2 & _). auto.
    + intros k r Hin. cbn [getOwnProperty].
      rewrite lookup_mergeShapes by assumption.
      now rewrite (lookup_In_unique rs k r Hurs Hin).
  - (* and is the validated input, up to undefined properties *)
    apply sameValue_object. intros key. unfold getProperty. cbn [getOwnProperty].
    rewrite lookup_mergeShapes by assumption. rewrite Hlook. cbn [lookup].
    pose proof (lookup_Forall2
                  (fun k m r => m_parse m r = Ok r /\ sameValue r (fieldResult v k m))
                  entries rs key Hrel) as Hkey.
    destruct (lookup key entries) as [m|] eqn:Em; destruct (lookup key rs) as [r|] eqn:Er;
      try contradiction; [|apply sameValue_refl].
    destruct Hkey as [_ Hsame].
    destruct (hasProperty key v) eqn:Hhas; [exact Hsame|].
    rewrite Forall_forall in Hres.
    destruct (Hres _ (lookup_Some_In _ _ _ Em)) as [_ Hundef]. cbn [fst snd] in Hundef.
    rewrite (Hundef Hhas) in Hsame. exact Hsame.
Qed.

(** ** IEEE 754: a number of the format is stored and read back *)

Lemma reduce_unique : forall (j n : nat) (p m : positive),
  (j <= n)%nat ->
  Zpos p = Zpos m * 2 ^ Z.of_nat j ->
  j = n \/ match m with xO _ => False | _ => True end ->
  reduce p n = (m, (n - j)%nat).
Proof.
  induction j as [|j IH]; intros n p m Hle Hp Hodd.
  - rewrite Z.pow_0_r, Z.mul_1_r in Hp. injection Hp as ->. rewrite Nat.sub_0_r.
    destruct Hodd as [<-|Hodd]; [destruct m; reflexivity|].
    destruct n; destruct m; try reflexivity; contradiction.
  - destruct n as [|n]; [lia|].
    rewrite Nat2Z.inj_succ, Z.pow_succ_r in Hp by lia.
    destruct p as [p|p|]; try lia.
    cbn [reduce]. rewrite Nat.sub_succ. apply IH; [lia|lia|].
    destruct Hodd as [Hodd|Hodd]; [left; lia|right; exact Hodd].
Qed.

Lemma dyadic_shift negative m j e :
  0 <= j <= - e -> e < 0 ->
  j = - e \/ match m with xO _ => False | _ => True end ->
  dyadic negative (Zpos m * 2 ^ j) e
    = if j =? - e then NInt (signed negative (Zpos m)) else NFrac negative m (e + j).
Proof.
  intros Hj He Hodd.
  assert (Hpos : 0 < Zpos m * 2 ^ j) by (apply Z.mul_pos_pos; [lia|apply Z.pow_pos_nonneg; lia]).
  destruct (Zpos m * 2 ^ j) as [|p|p] eqn:Hp; try lia.
  unfold dyadic. replace (0 <=? e) with false by (symmetry; apply Z.leb_gt; lia).
  rewrite (reduce_unique (Z.to_nat j) (Z.to_nat (- e)) p m).
  - destruct (j =? - e) eqn:E.
    + apply Z.eqb_eq in E. rewrite E, Nat.sub_diag. reflexivity.
    + apply Z.eqb_neq in E.
      destruct (Z.to_nat (- e) - Z.to_nat j)%nat as [|k] eqn:Hk; [lia|].
      rewrite <- Hk. f_equal. lia.
  - lia.
  - rewrite Z2Nat.id by lia. now rewrite Hp.
  - destruct Hodd as [Hodd|Hodd]; [left; lia|right; exact Hodd].
Qed.

Section Format.
Variable f : binaryFormat.
Hypothesis Hexp : 2 <= expBits f.
Hypothesis Hfrac : 1 <= fracBits f <= bias f.

Lemma bias_pow : 2 ^ expBits f = 2 * (bias f + 1).
Proof.
  unfold bias. replace (expBits f) with (Z.succ (expBits f - 1)) at 1 by lia.
  rewrite Z.pow_succ_r by lia. lia.
Qed.

Lemma emin_negative : emin f < 0.
Proof. unfold emin. lia. Qed.

Lemma roundMagnitude_pow2 p k :
  0 < p -> 0 <= k ->
  roundMagnitude f p (2 ^ k) =
    let e := Z.max (Z.log2 p - k - fracBits f) (emin f) in
    let num := if 0 <=? e then p else p * 2 ^ (- e) in
    let den := if 0 <=? e then 2 ^ k * 2 ^ e else 2 ^ k in
    let quo := num / den in
    let rem := num mod den in
    let quo := if (den <? 2 * rem) || ((2 * rem =? den) && Z.odd quo) then quo + 1 else quo in
    Z.min ((e - emin f) * 2 ^ fracBits f + quo) (infinityBits f).
Proof.
  intros Hp Hk. unfold roundMagnitude.
  replace (p <=? 0) with false by (symmetry; apply Z.leb_gt; lia).
  rewrite Z.log2_pow2 by lia.
  pose proof (Z.log2_spec p Hp) as [Hlow _].
  pose proof (Z.log2_nonneg p) as Hlog.
  set (g := Z.log2 p - k).
  assert (Hcond : (if 0 <=? g then 2 ^ k * 2 ^ g <=? p else 2 ^ k <=? p * 2 ^ (- g)) = true).
  { destruct (0 <=? g) eqn:Eg.
    - apply Z.leb_le in Eg. apply Z.leb_le.
      rewrite <- Z.pow_add_r by lia. replace (k + g) with (Z.log2 p) by (unfold g; lia).
      exact Hlow.
    - apply Z.leb_gt in Eg. apply Z.leb_le.
      replace k with (Z.log2 p + - g) at 1 by (unfold g; lia).
      rewrite Z.pow_add_r by lia.
      apply Z.mul_le_mono_nonneg_r; [apply Z.pow_nonneg; lia|exact Hlow]. }
  rewrite Hcond. reflexivity.
Qed.

(** A quotient that is exact is not rounded. *)
Lemma roundMagnitude_exact p k M :
  0 < p -> 0 <= k ->
  (let e := Z.max (Z.log2 p - k - fracBits f) (emin f) in
   (if 0 <=? e then p else p * 2 ^ (- e))
     = M * (if 0 <=? e then 2 ^ k * 2 ^ e else 2 ^ k)) ->
  roundMagnitude f p (2 ^ k)
    = Z.min ((Z.max (Z.log2 p - k - fracBits f) (emin f) - emin f) * 2 ^ fracBits f + M)
            (infinityBits f).
Proof.
  intros Hp Hk Hexact. rewrite roundMagnitude_pow2 by assumption.
  cbv zeta in *. set (e := Z.max _ _) in *.
  set (den := if 0 <=? e then 2 ^ k * 2 ^ e else 2 ^ k) in *.
  assert (Hden : 0 < den).
  { unfold den. destruct (0 <=? e) eqn:E; [apply Z.leb_le in E|];
      repeat apply Z.mul_pos_pos; apply Z.pow_pos_nonneg; lia. }
  rewrite Hexact. rewrite Z.div_mul, Z.mod_mul by lia. rewrite Z.mul_0_r.
  replace (den <? 0) with false by (symmetry; apply Z.ltb_ge; lia).
  replace (0 =? den) with false by (symmetry; apply Z.eqb_neq; lia).
  reflexivity.
Qed.

(** The fields of a finite magnitude: significand [M] at exponent [e]. *)
Lemma bitsNumber_finite negative e M :
  emin f <= e -> e - emin f + 2 <= 2 ^ expBits f - 1 ->
  0 <= M < 2 ^ (fracBits f + 1) ->
  2 ^ fracBits f <= M \/ e = emin f ->
  bitsNumber f (signBit f negative + ((e - emin f) * 2 ^ fracBits f + M))
    = dyadic negative M e.
Proof.
  intros He Htop HM Hnorm.
  set (B := 2 ^ fracBits f) in *.
  assert (HB : 0 < B) by (apply Z.pow_pos_nonneg; lia).
  assert (HB2 : 2 ^ (fracBits f + 1) = 2 * B)
    by (unfold B; rewrite Z.pow_add_r by lia; lia).
  assert (HT : 2 ^ (expBits f + fracBits f) = 2 ^ expBits f * B)
    by (unfold B; rewrite Z.pow_add_r by lia; lia).
  assert (HE : 0 < 2 ^ expBits f) by (apply Z.pow_pos_nonneg; lia).
  set (mag := (e - emin f) * B + M).
  assert (Hmag : 0 <= mag < (2 ^ expBits f - 1) * B) by (unfold mag; nia).
  unfold bitsNumber. fold B. rewrite HT.
  assert (Hsplit : (signBit f negative + mag) mod (2 ^ expBits f * B) = mag /\
                   Z.odd ((signBit f negative + mag) / (2 ^ expBits f * B)) = negative).
  { unfold signBit. rewrite HT. destruct negative.
    - replace (2 ^ expBits f * B + mag) with (mag + 1 * (2 ^ expBits f * B)) by lia.
      rewrite Z.mod_add, Z.div_add by nia.
      rewrite Z.mod_small, Z.div_small by nia. split; reflexivity.
    - rewrite Z.add_0_l. rewrite Z.mod_small, Z.div_small by nia. split; reflexivity. }
  destruct Hsplit as [-> ->].
  destruct (Z.lt_ge_cases M B) as [Hsub|Hnormal].
  - assert (e = emin f) by lia. subst e.
    assert (Hfield : mag / B = 0) by (unfold mag; rewrite Z.sub_diag; apply Z.div_small; lia).
    assert (Hfr : mag mod B = M) by (unfold mag; rewrite Z.sub_diag; apply Z.mod_small; lia).
    rewrite Hfield, Hfr.
    replace (0 =? 2 ^ expBits f - 1) with false by (symmetry; apply Z.eqb_neq; lia).
    reflexivity.
  - assert (Hfield : mag / B = e - emin f + 1).
    { unfold mag. replace ((e - emin f) * B + M) with ((M - B) + (e - emin f + 1) * B) by lia.
      rewrite Z.div_add by lia. rewrite Z.div_small by lia. lia. }
    assert (Hfr : mag mod B = M - B).
    { unfold mag. replace ((e - emin f) * B + M) with ((M - B) + (e - emin f + 1) * B) by lia.
      rewrite Z.mod_add by lia. apply Z.mod_small. lia. }
    rewrite Hfield, Hfr.
    replace (e - emin f + 1 =? 2 ^ expBits f - 1) with false by (symmetry; apply Z.eqb_neq; lia).
    replace (e - emin f + 1 =? 0) with false by (symmetry; apply Z.eqb_neq; lia).
    f_equal; lia.
Qed.

Lemma infinityBits_top : infinityBits f < 2 ^ (expBits f + fracBits f).
Proof.
  unfold infinityBits. rewrite Z.pow_add_r by lia.
  assert (0 < 2 ^ fracBits f) by (apply Z.pow_pos_nonneg; lia). nia.
Qed.

(** A positive number below the normal range of integers, [m * 2^e0] with
    [e0 <= 0]: the significand is [m] shifted to the exponent the format
    gives it. *)
Lemma stored_small negative m e0 :
  Zpos m < 2 ^ (fracBits f + 1) -> emin f <= e0 <= 0 ->
  Z.log2 (Zpos m) + e0 < fracBits f ->
  let e := Z.max (Z.log2 (Zpos m) + e0 - fracBits f) (emin f) in
  bitsNumber f (signBit f negative + roundMagnitude f (Zpos m) (2 ^ (- e0)))
    = dyadic negative (Zpos m * 2 ^ (e0 - e)) e.
Proof.
  intros Hm He0 Hlow e.
  pose proof emin_negative as Hemin. pose proof bias_pow as Hbias.
  assert (Hlog : Z.log2 (Zpos m) <= fracBits f).
  { assert (Z.log2 (Zpos m) < fracBits f + 1); [|lia]. apply Z.log2_lt_pow2; lia. }
  assert (He : e < 0 /\ emin f <= e <= e0) by (unfold e; lia).
  assert (HB : 0 < 2 ^ fracBits f) by (apply Z.pow_pos_nonneg; lia).
  assert (HB2 : 2 ^ (fracBits f + 1) = 2 * 2 ^ fracBits f)
    by (rewrite Z.pow_add_r by lia; lia).
  set (M := Zpos m * 2 ^ (e0 - e)).
  assert (HM0 : 0 < M) by (unfold M; apply Z.mul_pos_pos; [lia|apply Z.pow_pos_nonneg; lia]).
  assert (HlogM : Z.log2 M = Z.log2 (Zpos m) + (e0 - e))
    by (unfold M; rewrite Z.log2_mul_pow2 by lia; lia).
  assert (HM : M < 2 ^ (fracBits f + 1)).
  { apply Z.log2_lt_pow2; [lia|]. rewrite HlogM. unfold e. lia. }
  assert (Hnorm : 2 ^ fracBits f <= M \/ e = emin f).
  { destruct (Z.eq_dec e (emin f)) as [|Hne]; [now right|left].
    apply Z.log2_le_pow2; [lia|]. rewrite HlogM. unfold e in *. lia. }
  rewrite (roundMagnitude_exact (Zpos m) (- e0) M) by
    (try lia; cbv zeta;
     replace (Z.log2 (Zpos m) - - e0 - fracBits f) with (Z.log2 (Zpos m) + e0 - fracBits f) by lia;
     fold e; replace (0 <=? e) with false by (symmetry; apply Z.leb_gt; lia);
     unfold M; rewrite <- Z.mul_assoc, <- Z.pow_add_r by lia; do 2 f_equal; lia).
  replace (Z.log2 (Zpos m) - - e0 - fracBits f) with (Z.log2 (Zpos m) + e0 - fracBits f) by lia.
  fold e.
  assert (Htop : e - emin f + 2 <= 2 ^ expBits f - 1) by (unfold emin in *; lia).
  rewrite Z.min_l.
  - apply bitsNumber_finite; try assumption; lia.
  - unfold infinityBits. nia.
Qed.

Lemma oddPart_spec m :
  exists t, 0 <= t /\ Zpos m = Zpos (oddPart m) * 2 ^ t /\
            match oddPart m with xO _ => False | _ => True end.
Proof.
  induction m as [m _|m IH|].
  - exists 0. cbn [oddPart]. rewrite Z.pow_0_r. repeat split; lia.
  - destruct IH as (t & Ht & Heq & Hodd). exists (t + 1). cbn [oddPart].
    rewrite Z.pow_add_r by lia. repeat split; [lia| |exact Hodd].
    change (Zpos m~0) with (2 * Zpos m). rewrite Heq. lia.
  - exists 0. cbn [oddPart]. repeat split; lia.
Qed.

(** An integer at or above [2^fracBits]: its low bits are zero, and the
    significand is what is left of it. *)
Lemma stored_large negative m :
  Zpos (oddPart m) < 2 ^ (fracBits f + 1) -> Zpos m < 2 ^ (bias f + 1) ->
  fracBits f <= Z.log2 (Zpos m) ->
  bitsNumber f (signBit f negative + roundMagnitude f (Zpos m) 1)
    = NInt (signed negative (Zpos m)).
Proof.
  intros Hodd Hm Hlarge.
  pose proof emin_negative as Hemin. pose proof bias_pow as Hbias.
  destruct (oddPart_spec m) as (t & Ht & Heq & _).
  set (o := Zpos (oddPart m)) in *.
  assert (Hlogo : Z.log2 o <= fracBits f).
  { assert (Z.log2 o < fracBits f + 1); [|lia]. apply Z.log2_lt_pow2; unfold o; lia. }
  assert (Hlogm : Z.log2 (Zpos m) = Z.log2 o + t)
    by (rewrite Heq; rewrite Z.log2_mul_pow2 by (unfold o; lia); lia).
  assert (Hlogb : Z.log2 (Zpos m) <= bias f).
  { assert (Z.log2 (Zpos m) < bias f + 1); [|lia]. apply Z.log2_lt_pow2; lia. }
  set (e := Z.log2 (Zpos m) - fracBits f).
  assert (He : 0 <= e <= t) by (unfold e; lia).
  set (M := o * 2 ^ (t - e)).
  assert (HM0 : 0 < M) by (unfold M, o; apply Z.mul_pos_pos; [lia|apply Z.pow_pos_nonneg; lia]).
  assert (HlogM : Z.log2 M = fracBits f).
  { unfold M. rewrite Z.log2_mul_pow2 by (unfold o; lia). unfold e. lia. }
  assert (HmM : Zpos m = M * 2 ^ e).
  { unfold M. rewrite <- Z.mul_assoc, <- Z.pow_add_r by lia.
    replace (t - e + e) with t by lia. exact Heq. }
  assert (HM : 2 ^ fracBits f <= M < 2 ^ (fracBits f + 1)).
  { split; [apply Z.log2_le_pow2; lia|apply Z.log2_lt_pow2; lia]. }
  assert (HB : 0 < 2 ^ fracBits f) by (apply Z.pow_pos_nonneg; lia).
  assert (HB2 : 2 ^ (fracBits f + 1) = 2 * 2 ^ fracBits f)
    by (rewrite Z.pow_add_r by lia; lia).
  change (roundMagnitude f (Zpos m) 1) with (roundMagnitude f (Zpos m) (2 ^ 0)).
  assert (Hmax : Z.max (Z.log2 (Zpos m) - 0 - fracBits f) (emin f) = e) by (unfold e; lia).
  rewrite (roundMagnitude_exact (Zpos m) 0 M) by
    (try lia; cbv zeta; rewrite Hmax;
     replace (0 <=? e) with true by (symmetry; apply Z.leb_le; lia);
     rewrite Z.pow_0_r, Z.mul_1_l; exact HmM).
  rewrite Hmax.
  assert (Htop : e - emin f + 2 <= 2 ^ expBits f - 1) by (unfold e, emin in *; lia).
  rewrite Z.min_l by (unfold infinityBits; nia).
  rewrite bitsNumber_finite by (try assumption; try lia).
  unfold dyadic. destruct M as [|p|p] eqn:HMp; try lia.
  replace (0 <=? e) with true by (symmetry; apply Z.leb_le; lia).
  now rewrite <- HmM.
Qed.

(** What the format holds exactly is read back from its bits. *)
Lemma bitsNumber_numberBits n :
  inFormat f n = true -> bitsNumber f (numberBits f n) = n.
Proof.
  pose proof emin_negative as Hemin. pose proof bias_pow as Hbias.
  pose proof infinityBits_top as Htop.
  assert (HB : 0 < 2 ^ fracBits f) by (apply Z.pow_pos_nonneg; lia).
  assert (HB2 : 2 ^ (fracBits f + 1) = 2 * 2 ^ fracBits f)
    by (rewrite Z.pow_add_r by lia; lia).
  assert (HT : 2 ^ (expBits f + fracBits f) = 2 ^ expBits f * 2 ^ fracBits f)
    by (rewrite Z.pow_add_r by lia; lia).
  destruct n as [z| |negative|negative m e0]; cbn [inFormat numberBits]; intros Hin.
  - destruct z as [|m|m]; cbn [Z.abs] in *.
    + change (roundMagnitude f 0 1) with 0. cbn [Z.ltb Z.compare signBit].
      replace (0 + 0) with (signBit f false + ((emin f - emin f) * 2 ^ fracBits f + 0))
        by (cbn [signBit]; lia).
      rewrite bitsNumber_finite;
        [reflexivity|lia|lia|split; [lia|apply Z.pow_pos_nonneg; lia]|now right].
    + apply andb_true_iff in Hin. destruct Hin as [Hodd Hm].
      apply Z.ltb_lt in Hodd, Hm. change (Zpos m <? 0) with false.
      destruct (Z.le_gt_cases (fracBits f) (Z.log2 (Zpos m))) as [Hlarge|Hsmall].
      * now apply stored_large.
      * change (roundMagnitude f (Zpos m) 1) with (roundMagnitude f (Zpos m) (2 ^ (- 0))).
        assert (Hm' : Zpos m < 2 ^ (fracBits f + 1)).
        { apply Z.log2_lt_pow2; lia. }
        rewrite stored_small by lia. cbv zeta.
        rewrite dyadic_shift by lia.
        replace (0 - _ =? - _) with true by (symmetry; apply Z.eqb_eq; lia).
        reflexivity.
    + apply andb_true_iff in Hin. destruct Hin as [Hodd Hm].
      apply Z.ltb_lt in Hodd, Hm. change (Zneg m <? 0) with true.
      destruct (Z.le_gt_cases (fracBits f) (Z.log2 (Zpos m))) as [Hlarge|Hsmall].
      * now apply stored_large.
      * change (roundMagnitude f (Zpos m) 1) with (roundMagnitude f (Zpos m) (2 ^ (- 0))).
        assert (Hm' : Zpos m < 2 ^ (fracBits f + 1)).
        { apply Z.log2_lt_pow2; lia. }
        rewrite stored_small by lia. cbv zeta.
        rewrite dyadic_shift by lia.
        replace (0 - _ =? - _) with true by (symmetry; apply Z.eqb_eq; lia).
        reflexivity.
  - unfold bitsNumber. rewrite HT.
    assert (Hhalf : 0 < 2 ^ (fracBits f - 1) < 2 ^ fracBits f).
    { split; [apply Z.pow_pos_nonneg; lia|apply Z.pow_lt_mono_r; lia]. }
    unfold infinityBits.
    rewrite (Z.mod_small (_ + _)) by nia.
    replace ((2 ^ expBits f - 1) * 2 ^ fracBits f + 2 ^ (fracBits f - 1))
      with (2 ^ (fracBits f - 1) + (2 ^ expBits f - 1) * 2 ^ fracBits f) by lia.
    rewrite Z.div_add, Z.mod_add by lia.
    rewrite Z.div_small, Z.mod_small by lia. rewrite Z.add_0_l, Z.eqb_refl.
    replace (_ =? 0) with false by (symmetry; apply Z.eqb_neq; lia). reflexivity.
  - unfold bitsNumber. rewrite HT.
    assert (Hsplit : (signBit f negative + infinityBits f) mod (2 ^ expBits f * 2 ^ fracBits f)
                     = infinityBits f /\
                     Z.odd ((signBit f negative + infinityBits f)
                            / (2 ^ expBits f * 2 ^ fracBits f)) = negative).
    { unfold signBit. rewrite HT. destruct negative.
      - replace (2 ^ expBits f * 2 ^ fracBits f + infinityBits f)
          with (infinityBits f + 1 * (2 ^ expBits f * 2 ^ fracBits f)) by lia.
        rewrite Z.mod_add, Z.div_add by nia.
        rewrite Z.mod_small, Z.div_small by (unfold infinityBits in *; nia).
        split; reflexivity.
      - rewrite Z.add_0_l.
        rewrite Z.mod_small, Z.div_small by (unfold infinityBits in *; nia).
        split; reflexivity. }
    destruct Hsplit as [-> ->]. unfold infinityBits.
    rewrite Z.div_mul, Z.mod_mul by lia. rewrite !Z.eqb_refl. reflexivity.
  - apply andb_true_iff in Hin. destruct Hin as [Hin Hm].
    apply andb_true_iff in Hin. destruct Hin as [Hin Hemin0].
    apply andb_true_iff in Hin. destruct Hin as [Hodd He0].
    apply Z.ltb_lt in Hm, He0. apply Z.leb_le in Hemin0. rewrite (proj2 (Z.ltb_lt _ _) He0).
    assert (Hlog : Z.log2 (Zpos m) <= fracBits f).
    { assert (Z.log2 (Zpos m) < fracBits f + 1); [|lia]. apply Z.log2_lt_pow2; lia. }
    rewrite stored_small by lia. cbv zeta.
    rewrite dyadic_shift.
    + replace (_ =? _) with false by (symmetry; apply Z.eqb_neq; lia). f_equal. lia.
    + lia.
    + lia.
    + right. destruct m; [exact I|discriminate|exact I].
Qed.

Lemma roundMagnitude_range p q : 0 < q -> 0 <= roundMagnitude f p q <= infinityBits f.
Proof.
  intros Hq. pose proof bias_pow as Hbias.
  assert (HB : 0 < 2 ^ fracBits f) by (apply Z.pow_pos_nonneg; lia).
  assert (Hinf : 0 <= infinityBits f) by (unfold infinityBits; nia).
  unfold roundMagnitude. destruct (p <=? 0) eqn:Ep; [lia|]. apply Z.leb_gt in Ep.
  cbv zeta.
  set (e := Z.max _ (emin f)).
  assert (He : emin f <= e) by (unfold e; lia).
  set (num := if 0 <=? e then p else p * 2 ^ (- e)).
  set (den := if 0 <=? e then q * 2 ^ e else q).
  assert (Hnum : 0 <= num).
  { unfold num. destruct (0 <=? e); [lia|]. apply Z.mul_nonneg_nonneg; [lia|].
    apply Z.pow_nonneg. lia. }
  assert (Hden : 0 < den).
  { unfold den. destruct (0 <=? e) eqn:E; [|lia]. apply Z.leb_le in E.
    apply Z.mul_pos_pos; [lia|apply Z.pow_pos_nonneg; lia]. }
  assert (Hquo : 0 <= num / den) by (apply Z.div_pos; lia).
  destruct (_ || _); nia.
Qed.

Lemma numberBits_range n : 0 <= numberBits f n < 2 ^ (1 + expBits f + fracBits f).
Proof.
  pose proof infinityBits_top as Htop. pose proof bias_pow as Hbias.
  assert (HB : 0 < 2 ^ fracBits f) by (apply Z.pow_pos_nonneg; lia).
  assert (HT : 2 ^ (1 + expBits f + fracBits f) = 2 * 2 ^ (expBits f + fracBits f)).
  { replace (1 + expBits f + fracBits f) with (Z.succ (expBits f + fracBits f)) by lia.
    rewrite Z.pow_succ_r by lia. reflexivity. }
  assert (HS : forall negative, 0 <= signBit f negative <= 2 ^ (expBits f + fracBits f)).
  { intros negative. unfold signBit.
    assert (0 < 2 ^ (expBits f + fracBits f)) by (apply Z.pow_pos_nonneg; lia).
    destruct negative; lia. }
  assert (Hinf : 0 <= infinityBits f) by (unfold infinityBits; nia).
  rewrite HT. destruct n as [z| |negative|negative m e]; cbn [numberBits].
  - pose proof (roundMagnitude_range (Z.abs z) 1 ltac:(lia)).
    pose proof (HS (z <? 0)). lia.
  - assert (Hhalf : 0 < 2 ^ (fracBits f - 1) < 2 ^ fracBits f).
    { split; [apply Z.pow_pos_nonneg; lia|apply Z.pow_lt_mono_r; lia]. }
    assert (2 ^ (expBits f + fracBits f) = 2 ^ expBits f * 2 ^ fracBits f)
      by (rewrite Z.pow_add_r by lia; lia).
    unfold infinityBits in *. nia.
  - pose proof (HS negative). lia.
  - pose proof (HS negative).
    destruct (e <? 0) eqn:E.
    + apply Z.ltb_lt in E.
      pose proof (roundMagnitude_range (Zpos m) (2 ^ (- e))
                    ltac:(apply Z.pow_pos_nonneg; lia)). lia.
    + pose proof (roundMagnitude_range (Zpos m * 2 ^ e) 1 ltac:(lia)). lia.
Qed.

End Format.

Lemma binary64_format : 2 <= expBits binary64 /\ 1 <= fracBits binary64 <= bias binary64.
Proof. vm_compute. repeat split; discriminate. Qed.

Lemma binary32_format : 2 <= expBits binary32 /\ 1 <= fracBits binary32 <= bias binary32.
Proof. vm_compute. repeat split; discriminate. Qed.

(** ** Numbers as text, big integers as numbers *)

Lemma numberToString_integer z :
  Z.abs z < 2 ^ 53 -> numberToString (NInt z) = toString10 z.
Proof.
  intros Hz. cbn [numberToString].
  now replace (Z.abs z <? 2 ^ 53) with true by (symmetry; apply Z.ltb_lt; exact Hz).
Qed.

Lemma oddPart_le m : (oddPart m <= m)%positive.
Proof.
  induction m as [m _|m IH|]; cbn [oddPart]; try apply Pos.le_refl.
  apply Pos.le_trans with m; [exact IH|]. lia.
Qed.

(** [Number(z)] is [z] for a big integer below 2^53. *)
Lemma numberOfBigInt_exact z : Z.abs z < 2 ^ 53 -> numberOfBigInt z = NInt z.
Proof.
  intros Hz.
  change (numberOfBigInt z) with (bitsNumber binary64 (numberBits binary64 (NInt z))).
  apply bitsNumber_numberBits; try apply binary64_format.
  cbn [inFormat]. destruct (Z.abs z) as [|m|m] eqn:Habs; try reflexivity.
  apply andb_true_iff. split; apply Z.ltb_lt.
  - pose proof (oddPart_le m). change (2 ^ (fracBits binary64 + 1)) with (2 ^ 53). lia.
  - change (2 ^ (bias binary64 + 1)) with (2 ^ 53 * 2 ^ 971).
    assert (0 < 2 ^ 971) by (apply Z.pow_pos_nonneg; lia). nia.
Qed.

(** ** The bytes of a bit pattern *)

Lemma bigEndian_snoc bytes b : bigEndian (bytes ++ [b]) = bigEndian bytes * 256 + b.
Proof. unfold bigEndian. now rewrite fold_left_app. Qed.

Lemma bytesBE_length k : forall bits, List.length (bytesBE k bits) = k.
Proof.
  induction k as [|k IH]; intros bits; [reflexivity|].
  cbn [bytesBE]. rewrite length_app, IH. simpl. lia.
Qed.

Lemma bytesBE_bytes k : forall bits, Forall isByte (bytesBE k bits).
Proof.
  induction k as [|k IH]; intros bits; [constructor|].
  cbn [bytesBE]. apply Forall_app. split; [apply IH|].
  constructor; [|constructor]. unfold isByte. apply Z.mod_pos_bound. lia.
Qed.

Lemma bigEndian_bytesBE k : forall bits,
  0 <= bits < 256 ^ Z.of_nat k -> bigEndian (bytesBE k bits) = bits.
Proof.
  induction k as [|k IH]; intros bits Hbits.
  - change (256 ^ Z.of_nat 0) with 1 in Hbits. cbn [bytesBE]. unfold bigEndian. simpl. lia.
  - rewrite Nat2Z.inj_succ, Z.pow_succ_r in Hbits by lia.
    cbn [bytesBE]. rewrite bigEndian_snoc, IH.
    + Z.div_mod_to_equations; lia.
    + Z.div_mod_to_equations; nia.
Qed.

(** ** primitive/double.ts, primitive/float.ts *)

(** The bytes a loop over the indices reads back from stored bytes. *)
Lemma stored_bytes_read k bits rest :
  map (fun i => ToUint8_nan (byteAt (byteString (bytesBE k bits) ++ rest) i)) (seq 0 k)
    = bytesBE k bits.
Proof.
  pose proof (map_byteAt_byteString ToUint8_nan (bytesBE k bits) rest (bytesBE_bytes k bits))
    as H.
  rewrite bytesBE_length in H. rewrite H.
  rewrite <- (map_id (bytesBE k bits)) at 2. apply map_ext_in. intros b Hb.
  pose proof (bytesBE_bytes k bits) as Hall. rewrite Forall_forall in Hall.
  cbn [ToUint8_nan]. apply Z.mod_small. exact (Hall b Hb).
Qed.

Lemma Double_roundTrips v v' :
  Double.parse v = Ok v' -> representable LeptonDouble v = true ->
  roundTrips (methodsOf LeptonDouble) v v'.
Proof.
  intros Hparse Hrep. destruct v as [| | |n| | | |]; try discriminate.
  simpl in Hparse. inversion Hparse; subst v'. clear Hparse. cbn [representable] in Hrep.
  exists (byteString (bytesBE 8 (numberBits binary64 n))), (VNum n).
  cbn [methodsOf m_encode m_rawDecode m_parse].
  split; [reflexivity|]. split; [|split; [reflexivity|apply sameValue_refl]].
  intros rest. unfold Double.rawDecode.
  rewrite len_app_ge
    by (rewrite byteString_length, bytesBE_length by apply bytesBE_bytes; reflexivity).
  rewrite (stored_bytes_read 8).
  rewrite bigEndian_bytesBE
    by (apply (numberBits_range binary64); apply binary64_format).
  rewrite bitsNumber_numberBits by (try apply binary64_format; exact Hrep).
  rewrite sliceFrom_app_exact
    by (rewrite byteString_length, bytesBE_length by apply bytesBE_bytes; reflexivity).
  reflexivity.
Qed.

(** A number whose text has at most seven digits after the point is what
    [roundToPrecision] returns for it. *)
Lemma roundToPrecision_within n :
  withinPrecision n = true ->
  Float.roundToPrecision (VNum n) Float.precision = Ok (VNum n).
Proof.
  unfold withinPrecision, Float.roundToPrecision. cbn [ToString]. intros Hwithin.
  assert (Hgeneral :
    match Float.fracPart (numberToString n) with
    | Some frac =>
        if Float.precision <? len frac then Ok (VNum (roundFixed n Float.precision))
        else Ok (VNum n)
    | None => Ok (VNum n)
    end = Ok (VNum n)).
  { destruct (Float.fracPart (numberToString n)) as [frac|]; [|reflexivity].
    apply Z.leb_le in Hwithin.
    replace (Float.precision <? len frac) with false by (symmetry; apply Z.ltb_ge; lia).
    reflexivity. }
  destruct n as [[|p|p]| |negative|negative m e]; first [reflexivity|exact Hgeneral].
Qed.

Lemma Float_roundTrips v v' :
  Float.parse v = Ok v' -> representable LeptonFloat v = true ->
  roundTrips (methodsOf LeptonFloat) v v'.
Proof.
  intros Hparse Hrep. destruct v as [| | |n| | | |]; try discriminate.
  cbn [representable] in Hrep. apply andb_true_iff in Hrep. destruct Hrep as [Hin Hwithin].
  pose proof (roundToPrecision_within n Hwithin) as Hround.
  cbn [Float.parse] in Hparse. rewrite Hround in Hparse. inversion Hparse; subst v'.
  clear Hparse.
  exists (byteString (bytesBE 4 (numberBits binary32 n))), (VNum n).
  cbn [methodsOf m_encode m_rawDecode m_parse].
  split; [|split; [|split; [exact Hround|apply sameValue_refl]]].
  - unfold Float.encode. rewrite Hround. reflexivity.
  - intros rest. unfold Float.rawDecode.
    rewrite len_app_ge
      by (rewrite byteString_length, bytesBE_length by apply bytesBE_bytes; reflexivity).
    rewrite (stored_bytes_read 4).
    rewrite bigEndian_bytesBE
      by (apply (numberBits_range binary32); apply binary32_format).
    rewrite bitsNumber_numberBits by (try apply binary32_format; exact Hin).
    rewrite Hround. cbn [bind].
    rewrite sliceFrom_app_exact
      by (rewrite byteString_length, bytesBE_length by apply bytesBE_bytes; reflexivity).
    reflexivity.
Qed.

(** ** primitive/enum.ts: the native enum *)

Lemma numberEq_eq a b : numberEq a b = true -> a = b.
Proof.
  destruct a, b; cbn [numberEq]; try discriminate; intros H.
  - apply Z.eqb_eq in H. congruence.
  - apply Bool.eqb_prop in H. congruence.
  - apply andb_true_iff in H. destruct H as [H He].
    apply andb_true_iff in H. destruct H as [Hn Hm].
    apply Bool.eqb_prop in Hn. apply Pos.eqb_eq in Hm. apply Z.eqb_eq in He. congruence.
Qed.

Lemma NativeEnum_same_valueOf member v :
  NativeEnum.same member v = true -> NativeEnum.valueOf member = v.
Proof.
  destruct member as [s|n], v; cbn [NativeEnum.same NativeEnum.valueOf];
    try discriminate; intros H.
  - apply jsstring_eqb_eq in H. congruence.
  - apply numberEq_eq in H. congruence.
Qed.

Lemma NativeEnum_indexOfFrom_found members value : forall i,
  existsb (fun member => NativeEnum.same member value) members = true ->
  exists k member,
    NativeEnum.indexOfFrom members value i = i + Z.of_nat k /\
    nth_error members k = Some member /\
    NativeEnum.same member value = true.
Proof.
  induction members as [|x members IH]; intros i Hex; [discriminate|].
  cbn [existsb] in Hex. cbn [NativeEnum.indexOfFrom].
  destruct (NativeEnum.same x value) eqn:E.
  - exists O, x. repeat split; [simpl; lia|assumption].
  - cbn [orb] in Hex. destruct (IH (i + 1) Hex) as (k & member & Hk & Hnth & Hsame).
    exists (S k), member. repeat split; [rewrite Hk; lia|exact Hnth|exact Hsame].
Qed.

Lemma NativeEnum_roundTrips enumObject v v' :
  wellFormed (LeptonNativeEnum enumObject) = true ->
  NativeEnum.parse enumObject v = Ok v' ->
  representable (LeptonNativeEnum enumObject) v = true ->
  roundTrips (methodsOf (LeptonNativeEnum enumObject)) v v'.
Proof.
  intros Hwf Hparse Hrep. cbn [representable] in Hrep. apply negb_true_iff in Hrep.
  assert (Hcoerce : NativeEnum.coerce enumObject v = v).
  { unfold NativeEnum.coerce. destruct v; try reflexivity.
    cbn [Enum.isString] in Hrep. rewrite andb_true_r in Hrep. now rewrite Hrep. }
  pose proof Hparse as Hparse0.
  unfold NativeEnum.parse in Hparse. rewrite Hcoerce in Hparse.
  destruct (existsb _ (NativeEnum.enumKeys enumObject)) eqn:Hex;
    [|destruct (ToString v); discriminate].
  inversion Hparse; subst v'. clear Hparse.
  apply existsb_exists in Hex. destruct Hex as (key & _ & Hkey).
  destruct (lookup key enumObject) as [member|] eqn:Hlook; [|discriminate].
  assert (Hvalid : existsb (fun member => NativeEnum.same member v)
                           (NativeEnum.validValues enumObject) = true).
  { apply existsb_exists. exists member. split; [|exact Hkey].
    unfold NativeEnum.validValues. apply filter_In. split.
    - apply in_map_iff. exists (key, member). split; [reflexivity|].
      now apply lookup_Some_In.
    - destruct (NativeEnum.isNumericEnum enumObject) eqn:Hnum.
      + cbn [andb] in Hrep.
        destruct member as [s|n]; [|reflexivity].
        destruct v; try discriminate.
      + destruct (NativeEnum.isNumber member); reflexivity. }
  destruct (NativeEnum_indexOfFrom_found _ v 0 Hvalid) as (k & member' & Hk & Hnth & Hsame).
  rewrite Z.add_0_l in Hk.
  assert (Hlt : (k < List.length (NativeEnum.validValues enumObject))%nat).
  { apply nth_error_Some. congruence. }
  cbn [wellFormed] in Hwf. apply andb_true_iff in Hwf. destruct Hwf as [_ H256].
  apply Nat.leb_le in H256.
  assert (Hbyte : isByte (Z.of_nat k)) by (unfold isByte; lia).
  exists (hex2 (Z.of_nat k)), v.
  cbn [methodsOf m_encode m_rawDecode m_parse].
  split; [|split; [|split; [exact Hparse0|apply sameValue_refl]]].
  - unfold NativeEnum.encode. rewrite Hparse0. cbn [bind]. rewrite Hk.
    replace (Z.of_nat k =? -1) with false by (symmetry; apply Z.eqb_neq; lia).
    reflexivity.
  - intros rest. unfold NativeEnum.rawDecode.
    rewrite len_app_pair, sliceTo_pair, sliceFrom_pair, parseInt16_pair by assumption.
    replace (Z.of_nat (List.length (NativeEnum.validValues enumObject)) <=? Z.of_nat k)
      with false by (symmetry; apply Z.leb_gt; lia).
    unfold NativeEnum.at_.
    replace (Z.of_nat k <? 0) with false by (symmetry; apply Z.ltb_ge; lia).
    rewrite Nat2Z.id, Hnth. now rewrite (NativeEnum_same_valueOf _ _ Hsame).
Qed.

(* ================================================================== *)
(** * Round trip through any schema *)
(* ================================================================== *)

(** Induction on schemas, with the hypothesis for every field of a shape. *)
Lemma LeptonType_nested_ind (P : LeptonType -> Prop) :
  (forall width, P (LeptonSignedInt width)) ->
  (forall width, P (LeptonUnsignedInt width)) ->
  (forall bitWidth, P (LeptonBits bitWidth)) ->
  P LeptonBigInt -> P LeptonBoolean -> P LeptonString ->
  (forall values, P (LeptonEnum values)) ->
  (forall shape isStrict,
      Forall (fun e => P (snd e)) shape -> P (LeptonObject shape isStrict)) ->
  (forall wrappedType, P wrappedType -> P (LeptonOptional wrappedType)) ->
  (forall wrappedType, P wrappedType -> P (LeptonNullable wrappedType)) ->
  (forall elementType, P elementType -> P (LeptonArray elementType)) ->
  P LeptonDouble -> P LeptonFloat ->
  (forall enumObject, P (LeptonNativeEnum enumObject)) ->
  forall t, P t.
Proof.
  intros HS HU HB HBig HBool HStr HEnum HObj HOpt HNul HArr HDouble HFloat HNative.
  fix IH 1. intros [w|w|b| | | |values|shape isStrict|w|w|e| | |enumObject].
  - apply HS.
  - apply HU.
  - apply HB.
  - exact HBig.
  - exact HBool.
  - exact HStr.
  - apply HEnum.
  - apply HObj.
    revert shape. fix IHshape 1. intros [|[k s] shape].
    + constructor.
    + constructor; [exact (IH s)|exact (IHshape shape)].
  - apply HOpt, IH.
  - apply HNul, IH.
  - apply HArr, IH.
  - exact HDouble.
  - exact HFloat.
  - apply HNative.
Qed.

Lemma isOptional_parse_undefined t :
  m_isOptional (methodsOf t) = true -> parse t VUndefined = Ok VUndefined.
Proof. destruct t; try discriminate. reflexivity. Qed.

(** Every node of a well-formed schema round-trips the values it accepts,
    when their leaves are representable. *)
Lemma node_roundTrips : forall t,
  wellFormed t = true ->
  forall v v', parse t v = Ok v' -> representable t v = true ->
               roundTrips (methodsOf t) v v'.
Proof.
  induction t as [w|w|b| | | |values|shape isStrict IH|w IH|w IH|e IH| | |enumObject]
    using LeptonType_nested_ind;
    intros Hwf v v' Hparse Hrep; unfold parse in Hparse; cbn [methodsOf m_parse] in Hparse.
  - now apply SignedInt_roundTrips.
  - now apply UnsignedInt_roundTrips.
  - now apply Bits_roundTrips.
  - now apply BigInt_roundTrips.
  - now apply Boolean_roundTrips.
  - now apply String_roundTrips.
  - now apply Enum_roundTrips.
  - (* object *)
    cbn [wellFormed] in Hwf. apply andb_true_iff in Hwf. destruct Hwf as [Hu Hwfs].
    apply andb_true_iff in Hu. destruct Hu as [Hu _].
    cbn [representable] in Hrep.
    assert (Hreps : forallb (fun e => let '(key, schema) := e in
                                      representable schema (getProperty v key)) shape = true)
      by (destruct v; try discriminate; exact Hrep).
    clear Hrep. rename Hreps into Hrep.
    cbn [methodsOf]. cbv zeta.
    set (entries := map (fun e => let '(key, schema) := e in (key, methodsOf schema)) shape)
      in *.
    assert (Hentry : forall k m, In (k, m) entries ->
              exists s, In (k, s) shape /\ m = methodsOf s).
    { intros k m Hin. apply in_map_iff in Hin. destruct Hin as ([k0 s] & Heq & Hin).
      inversion Heq; subst. exists s. split; [exact Hin|reflexivity]. }
    apply Object_roundTrips; [| | |exact Hparse].
    + eapply uniqueKeys_same_keys; [apply entries_keys|exact Hu].
    + intros k m Hin Hopt. destruct (Hentry k m Hin) as (s & _ & ->).
      now apply isOptional_parse_undefined.
    + intros k m y Hin Hy. destruct (Hentry k m Hin) as (s & Hs & ->).
      rewrite Forall_forall in IH. apply (IH (k, s) Hs).
      * rewrite forallb_forall in Hwfs. exact (Hwfs (k, s) Hs).
      * exact Hy.
      * rewrite forallb_forall in Hrep. exact (Hrep (k, s) Hs).
  - (* optional *)
    cbn [methodsOf]. cbv zeta. apply Optional_roundTrips; [|exact Hparse].
    intros Hv. apply IH; [exact Hwf| |].
    + destruct v; try exact Hparse. congruence.
    + cbn [representable] in Hrep. destruct v; try exact Hrep. congruence.
  - (* nullable *)
    cbn [methodsOf]. cbv zeta. apply Nullable_roundTrips; [|exact Hparse].
    intros Hv. apply IH; [exact Hwf| |].
    + destruct v; try exact Hparse. congruence.
    + cbn [representable] in Hrep. destruct v; try exact Hrep. congruence.
  - (* array *)
    cbn [methodsOf]. cbv zeta. apply Array_roundTrips; [|exact Hparse].
    intros elems ->. cbn [representable] in Hrep. rewrite forallb_forall in Hrep.
    apply Forall_forall. intros x Hx y Hy. apply IH; [exact Hwf|exact Hy|apply Hrep, Hx].
  - now apply Double_roundTrips.
  - now apply Float_roundTrips.
  - now apply NativeEnum_roundTrips.
Qed.




(** Values outside the hypotheses of the round trip, for the record: a
    negative big integer is encoded as no bytes at all and decoded as 0; a
    string that starts with U+FEFF loses it, a lone surrogate comes back as
    U+FFFD; a number whose text is an enum option is accepted by [parse] but
    encoded as the index -1, which [decode] rejects; an absent optional
    field comes back as a property holding undefined; 3.14159 is accepted
    under Float32 as it is, and what is decoded from its four bytes is
    3.1415901; the text of a member of a numeric native enum is accepted,
    as that member, and [encode] fails on it. *)
Example negative_bigint_decodes_as_zero :
  parse LeptonBigInt (VBigInt (-5)) = Ok (VBigInt (-5)) /\
  encode LeptonBigInt (VBigInt (-5)) = Ok [] /\
  decode LeptonBigInt [] = Ok (VBigInt 0).
Proof. repeat split. Qed.

Example byte_order_mark_is_dropped :
  parse LeptonString (VStr (65279 :: js "a")) = Ok (VStr (65279 :: js "a")) /\
  encode LeptonString (VStr (65279 :: js "a")) = Ok (js "04efbbbf61") /\
  decode LeptonString (js "04efbbbf61") = Ok (VStr (js "a")).
Proof. repeat split. Qed.

Example lone_surrogate_is_replaced :
  parse LeptonString (VStr [55357]) = Ok (VStr [55357]) /\
  encode LeptonString (VStr [55357]) = Ok (js "03efbfbd") /\
  decode LeptonString (js "03efbfbd") = Ok (VStr [65533]).
Proof. repeat split. Qed.

Example enum_accepts_number_text :
  parse (LeptonEnum [js "123"]) (VNum (NInt 123)) = Ok (VNum (NInt 123)) /\
  encode (LeptonEnum [js "123"]) (VNum (NInt 123)) = Ok (js "-1") /\
  decode (LeptonEnum [js "123"]) (js "-1")
    = throwLepton (js "Invalid enum value. Expected one of: 123, got: undefined").
Proof. repeat split. Qed.

Example absent_optional_field_decodes_as_undefined :
  let t := object [(js "age", LeptonOptional int8)] in
  parse t (VObj []) = Ok (VObj []) /\
  encode t (VObj []) = Ok (js "00") /\
  decode t (js "00") = Ok (VObj [(js "age", VUndefined)]).
Proof. repeat split. Qed.

Example float_is_rounded_after_decoding :
  let v := VNum (numberOfRational false 314159 100000) in
  parse LeptonFloat v = Ok v /\
  encode LeptonFloat v = Ok (js "40490fd0") /\
  decode LeptonFloat (js "40490fd0") = Ok (VNum (numberOfRational false 31415901 10000000)) /\
  numberEq (numberOfRational false 31415901 10000000)
           (numberOfRational false 314159 100000) = false /\
  representable LeptonFloat v = false.
Proof. vm_compute. repeat split. Qed.

Example native_enum_accepts_member_text :
  let t := LeptonNativeEnum [(js "0", EString (js "Active")); (js "1", EString (js "Pending"));
                             (js "Active", ENumber (NInt 0)); (js "Pending", ENumber (NInt 1))] in
  wellFormed t = true /\
  parse t (VStr (js "0")) = Ok (VNum (NInt 0)) /\
  encode t (VStr (js "0")) = throwLepton (js "Could not encode enum value: 0") /\
  encode t (VNum (NInt 0)) = Ok (js "00") /\
  decode t (js "00") = Ok (VNum (NInt 0)).
Proof. vm_compute. repeat split. Qed.

(* ================================================================== *)
(** * Encoding what validate accepts *)
(* ================================================================== *)

(** The fields the loop of [parse] went through: present and validated, or
    absent under an optional schema. *)
Lemma Object_parseFields_fields v : forall entries res v',
  Object_.parseFields entries v res = Ok v' ->
  Forall (fun e =>
            (hasProperty (fst e) v = true /\
             exists y, m_parse (snd e) (getProperty v (fst e)) = Ok y) \/
            (hasProperty (fst e) v = false /\ m_isOptional (snd e) = true)) entries.
Proof.
  induction entries as [|[k m] entries IH]; intros res v' Hparse; [constructor|].
  cbn [Object_.parseFields] in Hparse.
  destruct (hasProperty k v) eqn:Hhas; cbn [negb andb] in Hparse.
  - destruct (withPath k (m_parse m (getProperty v k))) as [y|] eqn:Hy; [|discriminate].
    apply withPath_Ok in Hy. cbn [bind] in Hparse.
    constructor; [left; split; [exact Hhas|exists y; exact Hy]|].
    eapply IH. exact Hparse.
  - destruct (m_isOptional m) eqn:Hopt; cbn [negb] in Hparse; [|discriminate].
    constructor; [right; split; assumption|]. eapply IH. exact Hparse.
Qed.

(** [roundToPrecision] returns a number for a number. *)
Lemma roundToPrecision_number n :
  exists n', Float.roundToPrecision (VNum n) Float.precision = Ok (VNum n').
Proof.
  unfold Float.roundToPrecision. cbn [ToString].
  assert (Hgeneral : exists n',
    match Float.fracPart (numberToString n) with
    | Some frac =>
        if Float.precision <? len frac then Ok (VNum (roundFixed n Float.precision))
        else Ok (VNum n)
    | None => Ok (VNum n)
    end = Ok (VNum n')).
  { destruct (Float.fracPart (numberToString n)) as [frac|];
      [destruct (Float.precision <? len frac)|]; eexists; reflexivity. }
  destruct n as [[|p|p]| |negative|negative m e];
    first [exact Hgeneral|eexists; reflexivity].
Qed.

(** [encode] succeeds on every value [parse] accepts, under a schema
    without native enums. *)
Lemma accepted_value_encodes : forall t v v',
  forallNodes (fun node => negb (isNativeEnum node)) t = true ->
  parse t v = Ok v' -> exists bytes, encode t v = Ok bytes.
Proof.
  induction t as [w|w|b| | | |values|shape isStrict IH|w IH|w IH|e IH| | |enumObject]
    using LeptonType_nested_ind;
    intros v v' Hnodes Hparse; unfold parse, encode in *;
    cbn [methodsOf m_parse m_encode] in *;
    cbn [forallNodes isNativeEnum negb andb] in Hnodes.
  - unfold SignedInt.parse in Hparse. unfold SignedInt.encode.
    destruct (asInteger v); [|discriminate]. destruct (_ || _); [discriminate|].
    eexists. reflexivity.
  - unfold UnsignedInt.parse in Hparse. unfold UnsignedInt.encode.
    destruct (asInteger v); [|discriminate]. destruct (_ || _); [discriminate|].
    eexists. reflexivity.
  - unfold Bits.parse in Hparse. unfold Bits.encode.
    destruct (asInteger v); [|discriminate]. destruct (_ || _); [discriminate|].
    eexists. reflexivity.
  - destruct v; try discriminate. eexists. reflexivity.
  - destruct v; try discriminate. eexists. reflexivity.
  - destruct v; try discriminate. eexists. reflexivity.
  - unfold Enum.encode. rewrite Hparse. eexists. reflexivity.
  - (* object *)
    unfold Object_.parse in Hparse. unfold Object_.encode.
    destruct (Object_.isObject v) eqn:Hobj; cbn [negb] in Hparse; [|discriminate].
    destruct (isStrict && _); [discriminate|].
    apply Object_parseFields_fields in Hparse.
    clear v'. induction shape as [|[k s] shape IHshape].
    + exists []. reflexivity.
    + inversion IH as [|? ? IHs IHrest]; subst. cbn [map] in Hparse.
      inversion Hparse as [|? ? Hfield Hfields]; subst. cbn [fst snd] in *.
      cbn [forallb] in Hnodes. apply andb_true_iff in Hnodes.
      destruct Hnodes as [Hnode Hnodes].
      destruct (IHshape IHrest Hnodes Hfields) as (bs & Hbs).
      assert (Hb : exists b, m_encode (methodsOf s) (getProperty v k) = Ok b).
      { destruct Hfield as [[_ [y Hy]]|[Hhas Hopt]].
        - exact (IHs _ _ Hnode Hy).
        - rewrite (getProperty_absent _ _ Hhas).
          destruct s; try discriminate. exists (js "00"). reflexivity. }
      destruct Hb as (b & Hb).
      exists (b ++ bs). cbn [map Object_.encodeFields]. rewrite Hb, Hbs.
      destruct v; try discriminate; reflexivity.
  - (* optional *)
    unfold Optional.encode.
    destruct v; try (exists (js "00"); reflexivity);
      (destruct (IH _ _ Hnodes Hparse) as (bytes & ->); eexists; reflexivity).
  - (* nullable *)
    unfold Nullable.encode.
    destruct v; try (exists (js "01"); reflexivity);
      (destruct (IH _ _ Hnodes Hparse) as (bytes & ->); eexists; reflexivity).
  - (* array *)
    destruct v as [| | | | | |elems|]; try discriminate.
    cbn [Array.parse] in Hparse.
    destruct (Array.parseFrom (methodsOf e) 0 elems) as [vs|] eqn:Hvs; [|discriminate].
    apply Array_parseFrom_Forall2 in Hvs. clear Hparse.
    assert (Hbs : exists bs, Array.encodeElements (methodsOf e) elems = Ok bs).
    { induction Hvs as [|x y elems vs Hxy _ IHelems]; [exists []; reflexivity|].
      destruct (IH _ _ Hnodes Hxy) as (b & Hb). destruct IHelems as (bs & Hbs).
      exists (b ++ bs). cbn [Array.encodeElements]. rewrite Hb, Hbs. reflexivity. }
    destruct Hbs as (bs & Hbs). cbn [Array.encode]. rewrite Hbs. eexists. reflexivity.
  - destruct v; try discriminate. eexists. reflexivity.
  - destruct v as [| | |n| | | |]; try discriminate.
    unfold Float.encode. cbn [Float.parse] in Hparse.
    destruct (roundToPrecision_number n) as (n' & Hn'). rewrite Hn'.
    eexists. reflexivity.
  - discriminate.
Qed.

(** C6, as the code has it.  For every inner schema: [Optional] encodes
    undefined as the byte 00 and [Nullable] encodes null as the byte 01;
    for every other value [v], valid or not, [Optional] returns the byte 01
    followed by what the inner [encode] returns for [v], and [Nullable] the
    byte 00 followed by it, and each fails as the inner [encode] fails when
    that fails. *)
Theorem wrapper_flag_polarity (inner : LeptonType) (v : Value) :
  encode (LeptonOptional inner) VUndefined = Ok (byteString [0]) /\
  encode (LeptonNullable inner) VNull = Ok (byteString [1]) /\
  (v <> VUndefined ->
   encode (LeptonOptional inner) v
     = let* bytes := encode inner v in Ok (byteString [1] ++ bytes)) /\
  (v <> VNull ->
   encode (LeptonNullable inner) v
     = let* bytes := encode inner v in Ok (byteString [0] ++ bytes)).
Proof.
  split; [reflexivity|]. split; [reflexivity|].
  unfold encode. cbn [methodsOf m_encode]. split; intros Hv.
  - unfold Optional.encode. destruct v; try reflexivity. congruence.
  - unfold Nullable.encode. destruct v; try reflexivity. congruence.
Qed.

Lemma wrapper_flag_polarity_witness :
  encode (LeptonOptional uint8) (VNum (NInt 42)) = Ok (js "012a") /\
  encode (LeptonNullable uint8) (VNum (NInt 42)) = Ok (js "002a") /\
  encode (LeptonOptional LeptonString) (VNum (NInt 42)) = Ok (js "01023432") /\
  encode (LeptonNullable uint8) (VNum (NInt 256))
    = throwLepton (UnsignedInt.outOfRange 1).
Proof.
  pose proof (wrapper_flag_polarity uint8 (VNum (NInt 42))) as (_ & _ & Hopt & Hnul).
  pose proof (wrapper_flag_polarity LeptonString (VNum (NInt 42))) as (_ & _ & Hstr & _).
  pose proof (wrapper_flag_polarity uint8 (VNum (NInt 256))) as (_ & _ & _ & Hout).
  split; [rewrite Hopt by discriminate; reflexivity|].
  split; [rewrite Hnul by discriminate; reflexivity|].
  split; [rewrite Hstr by discriminate; reflexivity|].
  rewrite Hout by discriminate. reflexivity.
Defined.

(** C6 as stated fails when the inner schema itself accepts the marker:
    undefined is valid for [Optional(uint8)], its inner encoding is 00, yet
    [Optional(Optional(uint8))] encodes it as 00, not as 01 00; the same
    with null under [Nullable(Nullable(uint8))]. *)
Lemma nested_marker_breaks_flag_polarity :
  parse (LeptonOptional uint8) VUndefined = Ok VUndefined /\
  encode (LeptonOptional uint8) VUndefined = Ok (byteString [0]) /\
  encode (LeptonOptional (LeptonOptional uint8)) VUndefined = Ok (byteString [0]) /\
  encode (LeptonOptional (LeptonOptional uint8)) VUndefined
    <> Ok (byteString [1] ++ byteString [0]) /\
  parse (LeptonNullable uint8) VNull = Ok VNull /\
  encode (LeptonNullable uint8) VNull = Ok (byteString [1]) /\
  encode (LeptonNullable (LeptonNullable uint8)) VNull
    <> Ok (byteString [0] ++ byteString [1]).
Proof.
  repeat (split; [reflexivity|]).
  split; [discriminate|].
  repeat (split; [reflexivity|]).
  discriminate.
Qed.

(* ================================================================== *)
(** * More on utils.ts: the variable-length integers *)
(* ================================================================== *)

(** X1.  [decodeVarInt] inverts [encodeVarInt] on every integer that is not
    negative, and returns untouched whatever follows the encoding. *)
Theorem varint_round_trip (value : Z) (trailing : jsstring) :
  0 <= value ->
  decodeVarInt (encodeVarInt value ++ trailing) = (value, trailing).
Proof. apply decodeVarInt_encodeVarInt. Qed.

Lemma varint_round_trip_witness :
  0 <= 123456789 /\
  decodeVarInt (encodeVarInt 123456789 ++ js "ff") = (123456789, js "ff").
Proof. split; [lia|]. apply varint_round_trip. lia. Defined.

(** X2.  A negative big integer is encoded as no bytes at all, and what
    [decodeVarInt] reads back from that is 0. *)
Theorem encodeVarInt_negative (value : Z) :
  value < 0 ->
  encodeVarInt value = [] /\ decodeVarInt (encodeVarInt value) = (0, []).
Proof.
  intros Hneg.
  assert (Hempty : encodeVarInt value = []).
  { unfold encodeVarInt.
    destruct (value =? 0) eqn:E; [apply Z.eqb_eq in E; lia|].
    cbn [encodeVarIntLoop].
    destruct (0 <? value) eqn:E'; [apply Z.ltb_lt in E'; lia|reflexivity]. }
  rewrite Hempty. split; reflexivity.
Qed.

Lemma encodeVarInt_negative_witness :
  -5 < 0 /\ encodeVarInt (-5) = [] /\ decodeVarInt (encodeVarInt (-5)) = (0, []).
Proof. split; [lia|]. apply encodeVarInt_negative. lia. Defined.

Lemma band_127_range x : 0 <= band x 127 <= 127.
Proof.
  unfold band. rewrite (ToInt32_small 127) by lia.
  change 127 with (Z.ones 7). rewrite Z.land_ones by lia.
  pose proof (Z.mod_pos_bound (ToInt32 x) (2 ^ 7) ltac:(lia)).
  change (Z.ones 7) with 127. change (2 ^ 7) with 128 in *. lia.
Qed.

Lemma assembleVarInt_nonneg bytes : forall value shift,
  0 <= value -> 0 <= shift -> 0 <= assembleVarInt bytes value shift.
Proof.
  induction bytes as [|b bytes IH]; intros value shift Hv Hs; [exact Hv|].
  cbn [assembleVarInt]. apply IH; [|lia].
  apply Z.lor_nonneg. split; [exact Hv|].
  apply Z.shiftl_nonneg. apply band_127_range.
Qed.

Lemma readVarIntBytes_nonempty encoded :
  encoded <> [] -> readVarIntBytes encoded <> [].
Proof.
  destruct encoded as [|c1 [|c2 rest]]; [congruence|discriminate|].
  intros _. cbn [readVarIntBytes]. destruct (_ =? 0); discriminate.
Qed.

(** X3.  [decodeVarInt] accepts every string: the integer it returns is never
    negative, the remainder it returns is a suffix of the input, and on a
    non-empty input the remainder is strictly shorter than the input. *)
Theorem decodeVarInt_total (encoded : jsstring) :
  0 <= fst (decodeVarInt encoded) /\
  (exists consumed, encoded = consumed ++ snd (decodeVarInt encoded)) /\
  (encoded <> [] ->
   (List.length (snd (decodeVarInt encoded)) < List.length encoded)%nat).
Proof.
  unfold decodeVarInt. cbn [fst snd]. split; [|split].
  - apply assembleVarInt_nonneg; lia.
  - exists (firstn (List.length (readVarIntBytes encoded) * 2) encoded).
    unfold sliceFrom. symmetry. apply firstn_skipn.
  - intros Hne. pose proof (readVarIntBytes_nonempty encoded Hne) as Hread.
    unfold sliceFrom. rewrite length_skipn.
    destruct (readVarIntBytes encoded); [congruence|].
    destruct encoded; [congruence|]. simpl List.length. lia.
Qed.

(** The loop of [encodeVarInt] writes the base-128 digits of the value, the
    continuation bit on all but the last, and the last digit is not 0. *)
Lemma encodeVarIntLoop_canonical fuel : forall value,
  0 < value < 2 ^ (7 * Z.of_nat fuel) ->
  exists init last,
    encodeVarIntLoop fuel value = byteString (init ++ [last]) /\
    Forall (fun b => 128 <= b < 256) init /\
    1 <= last < 128 /\
    lowSevenBits (init ++ [last]) = value.
Proof.
  induction fuel as [|fuel IH]; intros value Hv.
  - simpl in Hv. lia.
  - cbn [encodeVarIntLoop].
    destruct (0 <? value) eqn:Hpos; [|apply Z.ltb_ge in Hpos; lia].
    change 127 with (Z.ones 7). rewrite Z.land_ones by lia.
    rewrite Z.shiftr_div_pow2 by lia. change (2 ^ 7) with 128.
    assert (Hm : 0 <= value mod 128 < 128) by (apply Z.mod_pos_bound; lia).
    assert (Hd : value = 128 * (value / 128) + value mod 128) by (apply Z.div_mod; lia).
    destruct (0 <? value / 128) eqn:Hmore.
    + apply Z.ltb_lt in Hmore.
      destruct (IH (value / 128)) as (init & last & Henc & Hinit & Hlast & Hlow).
      { split; [assumption|]. apply Z.div_lt_upper_bound; [lia|].
        replace (7 * Z.of_nat (S fuel)) with (7 + 7 * Z.of_nat fuel) in Hv by lia.
        rewrite Z.pow_add_r in Hv by lia. change (2 ^ 7) with 128 in Hv. lia. }
      assert (Hbor : bor (value mod 128) 128 = value mod 128 + 128).
      { rewrite bor_small by lia.
        change 128 with (1 * 2 ^ 7) at 2. rewrite lor_above; lia. }
      rewrite Hbor.
      exists ((value mod 128 + 128) :: init), last.
      split; [|split; [|split]].
      * cbn [app]. rewrite byteString_cons, Henc. reflexivity.
      * constructor; [lia|assumption].
      * exact Hlast.
      * cbn [app lowSevenBits]. rewrite Hlow.
        replace (value mod 128 + 128) with (value mod 128 + 1 * 128) by lia.
        rewrite Z.mod_add by lia. rewrite Z.mod_mod by lia. lia.
    + apply Z.ltb_ge in Hmore.
      assert (Hz : value / 128 = 0) by (pose proof (Z.div_pos value 128); lia).
      rewrite Hz, encodeVarIntLoop_zero.
      exists [], (value mod 128).
      split; [|split; [|split]].
      * cbn [app]. rewrite byteString_cons. reflexivity.
      * constructor.
      * lia.
      * cbn [app lowSevenBits]. rewrite Z.mod_mod by lia. lia.
Qed.

(** X4.  The encoding of a positive integer is canonical: its bytes carry the
    base-128 digits of the value, least significant first; every byte but
    the last has the continuation bit, the last has not and is not 0 (no
    padding digit is written). *)
Theorem encodeVarInt_canonical (value : Z) :
  0 < value ->
  exists init last,
    encodeVarInt value = byteString (init ++ [last]) /\
    Forall (fun b => 128 <= b < 256) init /\
    1 <= last < 128 /\
    lowSevenBits (init ++ [last]) = value.
Proof.
  intros Hv. unfold encodeVarInt.
  destruct (value =? 0) eqn:Hz; [apply Z.eqb_eq in Hz; lia|].
  apply encodeVarIntLoop_canonical. split; [lia|].
  apply Z.lt_le_trans with (2 ^ (Z.succ (Z.log2 value))).
  - apply Z.log2_spec. lia.
  - apply Z.pow_le_mono_r; [lia|]. pose proof (Z.log2_nonneg value). lia.
Qed.

Lemma encodeVarInt_canonical_witness :
  0 < 300 /\
  exists init last,
    encodeVarInt 300 = byteString (init ++ [last]) /\
    Forall (fun b => 128 <= b < 256) init /\
    1 <= last < 128 /\
    lowSevenBits (init ++ [last]) = 300.
Proof. split; [lia|]. apply encodeVarInt_canonical. lia. Defined.

(* ================================================================== *)
(** * More on primitive/integer.ts: the fixed-width integers *)
(* ================================================================== *)

Lemma hexPair_hexFixed b : isByte b -> hexPair b = hexFixed 2 b.
Proof.
  intros Hb. unfold hexPair, isByte in *. cbn [hexFixed app].
  rewrite (Z.mod_small (b / 16) 16); [reflexivity|].
  split; [apply Z.div_pos; lia|apply Z.div_lt_upper_bound; lia].
Qed.

Lemma hexFixed_snoc_byte k a b :
  isByte b -> hexFixed (S (S k)) (a * 256 + b) = hexFixed k a ++ hexPair b.
Proof.
  intros Hb. unfold isByte in Hb. cbn [hexFixed]. unfold hexPair.
  assert (H16 : (a * 256 + b) / 16 = a * 16 + b / 16).
  { replace (a * 256 + b) with (b + (a * 16) * 16) by lia.
    rewrite Z.div_add by lia. lia. }
  assert (Hb16 : 0 <= b / 16 < 16).
  { split; [apply Z.div_pos; lia|apply Z.div_lt_upper_bound; lia]. }
  rewrite H16.
  replace (a * 16 + b / 16) with (b / 16 + a * 16) by lia.
  rewrite Z.div_add by lia. rewrite (Z.div_small (b / 16) 16) by lia.
  rewrite Z.mod_add by lia. rewrite (Z.mod_small (b / 16) 16) by lia.
  replace (a * 256 + b) with (b + (a * 16) * 16) by lia.
  rewrite Z.mod_add by lia.
  rewrite <- app_assoc. reflexivity.
Qed.

(** The hex characters of a sequence of bytes are the digits of the number
    the bytes write in base 256. *)
Lemma byteString_fold bytes : forall k acc,
  Forall isByte bytes -> 0 <= acc < 16 ^ Z.of_nat k ->
  hexFixed k acc ++ byteString bytes
    = hexFixed (k + 2 * List.length bytes) (fold_left (fun a b => a * 256 + b) bytes acc) /\
  0 <= fold_left (fun a b => a * 256 + b) bytes acc
    < 16 ^ Z.of_nat (k + 2 * List.length bytes).
Proof.
  induction bytes as [|b bytes IH]; intros k acc Hbytes Hacc.
  - cbn [fold_left List.length byteString flat_map]. rewrite app_nil_r.
    replace (k + 2 * 0)%nat with k by lia. split; [reflexivity|exact Hacc].
  - inversion Hbytes as [|? ? Hb Hrest]; subst.
    rewrite byteString_cons, (hex2_pair b Hb), app_assoc.
    rewrite <- (hexFixed_snoc_byte k acc b Hb).
    cbn [fold_left List.length].
    replace (k + 2 * S (List.length bytes))%nat
      with (S (S k) + 2 * List.length bytes)%nat by lia.
    apply IH; [assumption|].
    unfold isByte in Hb.
    replace (Z.of_nat (S (S k))) with (Z.of_nat k + 2) by lia.
    rewrite Z.pow_add_r by lia. change (16 ^ 2) with 256. nia.
Qed.

Lemma byteString_bigEndian bytes :
  Forall isByte bytes ->
  byteString bytes = hexFixed (2 * List.length bytes) (bigEndian bytes) /\
  0 <= bigEndian bytes < 16 ^ Z.of_nat (2 * List.length bytes).
Proof.
  intros Hbytes.
  destruct (byteString_fold bytes 0 0 Hbytes) as [Heq Hrange]; [simpl; lia|].
  exact (conj Heq Hrange).
Qed.

Lemma factoryWidth_pow width :
  factoryWidth width = true ->
  2 ^ (8 * Z.of_nat width) = 16 ^ Z.of_nat (width * 2) /\
  UnsignedInt.bits width = 8 * Z.of_nat width /\
  SignedInt.bits width = 8 * Z.of_nat width /\
  (1 <= width * 2)%nat.
Proof.
  intros Hw.
  destruct (factoryWidth_cases width Hw) as [-> | [-> | ->]];
    repeat split; try reflexivity; lia.
Qed.

(** X5.  An unsigned integer node of 1, 2 or 4 bytes encodes exactly the
    integers from 0 to 2^(8 width) - 1, each as the 2 width hex digits of its
    value (most significant first, zero padded); any other integer is
    refused with the range message. *)
Theorem unsigned_encode_fixed_width (width : nat) (z : Z) :
  factoryWidth width = true ->
  encode (LeptonUnsignedInt width) (VNum (NInt z)) =
    (if (0 <=? z) && (z <? 2 ^ (8 * Z.of_nat width))
     then Ok (hexFixed (width * 2) z)
     else throwLepton (UnsignedInt.outOfRange width)) /\
  List.length (hexFixed (width * 2) z) = (2 * width)%nat.
Proof.
  intros Hw. split; [|rewrite hexFixed_length; lia].
  destruct (factoryWidth_pow width Hw) as (Hpow & _ & _ & Hk).
  unfold encode. cbn [methodsOf m_encode]. unfold UnsignedInt.encode.
  cbn [asInteger]. rewrite (UnsignedInt_maxValue_hex width Hw), Hpow.
  destruct (z <? 0) eqn:Hneg; cbn [orb].
  - apply Z.ltb_lt in Hneg.
    destruct (0 <=? z) eqn:Hpos; [apply Z.leb_le in Hpos; lia|reflexivity].
  - apply Z.ltb_ge in Hneg.
    destruct (0 <=? z) eqn:Hpos; [|apply Z.leb_gt in Hpos; lia]. cbn [andb].
    destruct (16 ^ Z.of_nat (width * 2) - 1 <? z) eqn:Hmax.
    + apply Z.ltb_lt in Hmax.
      destruct (z <? 16 ^ Z.of_nat (width * 2)) eqn:Hlt;
        [apply Z.ltb_lt in Hlt; lia|reflexivity].
    + apply Z.ltb_ge in Hmax.
      destruct (z <? 16 ^ Z.of_nat (width * 2)) eqn:Hlt;
        [|apply Z.ltb_ge in Hlt; lia].
      rewrite toString16_hexFixed by lia. reflexivity.
Qed.

Lemma unsigned_encode_fixed_width_witness :
  factoryWidth 2 = true /\
  encode uint16 (VNum (NInt 258)) = Ok (js "0102") /\
  encode uint16 (VNum (NInt 65536)) = throwLepton (UnsignedInt.outOfRange 2).
Proof.
  split; [reflexivity|].
  split; [exact (proj1 (unsigned_encode_fixed_width 2 258 eq_refl))
         |exact (proj1 (unsigned_encode_fixed_width 2 65536 eq_refl))].
Defined.

(** X6.  A signed integer node writes two's complement: an integer in the
    range of the node is encoded as the unsigned node of the same width
    encodes its residue modulo 2^(8 width). *)
Theorem signed_encode_twos_complement (width : nat) (z : Z) :
  factoryWidth width = true ->
  - 2 ^ (8 * Z.of_nat width - 1) <= z < 2 ^ (8 * Z.of_nat width - 1) ->
  encode (LeptonSignedInt width) (VNum (NInt z))
    = Ok (hexFixed (width * 2) (z mod 2 ^ (8 * Z.of_nat width))) /\
  encode (LeptonSignedInt width) (VNum (NInt z))
    = encode (LeptonUnsignedInt width) (VNum (NInt (z mod 2 ^ (8 * Z.of_nat width)))).
Proof.
  intros Hw Hz.
  destruct (factoryWidth_pow width Hw) as (Hpow & _ & Hbits & Hk).
  destruct (SignedInt_range_hex width Hw) as (Hmin & Hmax & Hdouble & Hhex & Hhalf & _).
  rewrite Hbits in *.
  assert (Hmod : 0 <= z mod 2 ^ (8 * Z.of_nat width) < 2 ^ (8 * Z.of_nat width))
    by (apply Z.mod_pos_bound; lia).
  assert (Hsigned : encode (LeptonSignedInt width) (VNum (NInt z))
                    = Ok (hexFixed (width * 2) (z mod 2 ^ (8 * Z.of_nat width)))).
  { unfold encode. cbn [methodsOf m_encode]. unfold SignedInt.encode.
    cbn [asInteger]. rewrite Hmin, Hmax, Hbits.
    destruct (z <? - 2 ^ (8 * Z.of_nat width - 1)) eqn:Hlo;
      [apply Z.ltb_lt in Hlo; lia|].
    destruct (2 ^ (8 * Z.of_nat width - 1) - 1 <? z) eqn:Hhi;
      [apply Z.ltb_lt in Hhi; lia|].
    cbn [orb].
    destruct (z <? 0) eqn:Hneg.
    - apply Z.ltb_lt in Hneg.
      replace (z mod 2 ^ (8 * Z.of_nat width)) with (2 ^ (8 * Z.of_nat width) + z).
      + rewrite toString16_hexFixed by lia. reflexivity.
      + apply Z.mod_unique with (q := -1); lia.
    - apply Z.ltb_ge in Hneg.
      rewrite (Z.mod_small z) by lia.
      rewrite toString16_hexFixed by lia. reflexivity. }
  split; [exact Hsigned|].
  rewrite Hsigned.
  rewrite (proj1 (unsigned_encode_fixed_width width _ Hw)).
  destruct (0 <=? z mod 2 ^ (8 * Z.of_nat width)) eqn:H0; [|apply Z.leb_gt in H0; lia].
  destruct (z mod 2 ^ (8 * Z.of_nat width) <? 2 ^ (8 * Z.of_nat width)) eqn:H1;
    [|apply Z.ltb_ge in H1; lia].
  reflexivity.
Qed.

Lemma signed_encode_twos_complement_witness :
  factoryWidth 1 = true /\
  - 2 ^ (8 * Z.of_nat 1 - 1) <= -2 < 2 ^ (8 * Z.of_nat 1 - 1) /\
  encode int8 (VNum (NInt (-2))) = Ok (js "fe") /\
  encode int8 (VNum (NInt (-2))) = encode uint8 (VNum (NInt 254)).
Proof.
  split; [reflexivity|]. split; [simpl; lia|].
  apply (signed_encode_twos_complement 1 (-2)); [reflexivity|simpl; lia].
Defined.

Lemma fixed_width_read width bytes rest :
  factoryWidth width = true -> Forall isByte bytes -> List.length bytes = width ->
  (len (byteString bytes ++ rest) <? Z.of_nat width * 2) = false /\
  parseInt16 (sliceTo (width * 2) (byteString bytes ++ rest)) = Some (bigEndian bytes) /\
  sliceFrom (width * 2) (byteString bytes ++ rest) = rest /\
  byteString bytes = hexFixed (width * 2) (bigEndian bytes) /\
  0 <= bigEndian bytes < 2 ^ (8 * Z.of_nat width).
Proof.
  intros Hw Hbytes Hlen.
  destruct (factoryWidth_pow width Hw) as (Hpow & _ & _ & Hk).
  destruct (byteString_bigEndian bytes Hbytes) as [Heq Hrange].
  rewrite Hlen in Heq, Hrange.
  replace (2 * width)%nat with (width * 2)%nat in Heq, Hrange by lia.
  destruct (hexFixed_decodes (width * 2) (bigEndian bytes) rest Hk Hrange)
    as (Hshort & Hparse & Hrest).
  rewrite Heq.
  replace (Z.of_nat width * 2) with (Z.of_nat (width * 2)) by lia.
  rewrite Hpow. repeat split; assumption || lia.
Qed.

(** X7.  Every sequence of [width] bytes is the encoding of one unsigned
    integer: the node decodes it to the number the bytes write in base 256,
    most significant byte first, leaves what follows, and encodes that
    number back to the same bytes. *)
Theorem unsigned_decode_any_bytes (width : nat) (bytes : list Z) (rest : jsstring) :
  factoryWidth width = true -> Forall isByte bytes -> List.length bytes = width ->
  rawDecode (LeptonUnsignedInt width) (byteString bytes ++ rest)
    = Ok (VNum (NInt (bigEndian bytes)), rest) /\
  decode (LeptonUnsignedInt width) (byteString bytes ++ rest)
    = Ok (VNum (NInt (bigEndian bytes))) /\
  encode (LeptonUnsignedInt width) (VNum (NInt (bigEndian bytes))) = Ok (byteString bytes).
Proof.
  intros Hw Hbytes Hlen.
  destruct (fixed_width_read width bytes rest Hw Hbytes Hlen)
    as (Hshort & Hparse & Hrest & Hhex & Hrange).
  assert (Hraw : rawDecode (LeptonUnsignedInt width) (byteString bytes ++ rest)
                 = Ok (VNum (NInt (bigEndian bytes)), rest)).
  { unfold rawDecode. cbn [methodsOf m_rawDecode]. unfold UnsignedInt.rawDecode.
    rewrite Hshort, Hparse, Hrest. reflexivity. }
  assert (Hin : (0 <=? bigEndian bytes) && (bigEndian bytes <? 2 ^ (8 * Z.of_nat width)) = true).
  { apply andb_true_intro. split; [apply Z.leb_le|apply Z.ltb_lt]; lia. }
  split; [exact Hraw|split].
  - unfold decode. rewrite Hraw. cbn [bind].
    unfold parse. cbn [methodsOf m_parse]. unfold UnsignedInt.parse. cbn [asInteger].
    destruct (factoryWidth_pow width Hw) as (Hpow & _).
    rewrite (UnsignedInt_maxValue_hex width Hw), <- Hpow.
    destruct (bigEndian bytes <? 0) eqn:H0; [apply Z.ltb_lt in H0; lia|].
    destruct (2 ^ (8 * Z.of_nat width) - 1 <? bigEndian bytes) eqn:H1;
      [apply Z.ltb_lt in H1; lia|].
    reflexivity.
  - rewrite (proj1 (unsigned_encode_fixed_width width _ Hw)), Hin, Hhex. reflexivity.
Qed.

Lemma unsigned_decode_any_bytes_witness :
  factoryWidth 2 = true /\ Forall isByte [1; 2] /\ List.length [1; 2] = 2%nat /\
  decode uint16 (js "0102ff") = Ok (VNum (NInt 258)).
Proof.
  assert (Hb : Forall isByte [1; 2]) by (repeat constructor; unfold isByte; lia).
  split; [reflexivity|]. split; [exact Hb|]. split; [reflexivity|].
  exact (proj1 (proj2 (unsigned_decode_any_bytes 2 [1; 2] (js "ff") eq_refl Hb eq_refl))).
Defined.

(** X8.  Every sequence of [width] bytes is the encoding of one signed
    integer: with [u] the number the bytes write in base 256, the node
    decodes it to [u] when the top bit is clear and to [u - 2^(8 width)]
    when it is set, a value in the range of the node, which it encodes back
    to the same bytes. *)
Theorem signed_decode_any_bytes (width : nat) (bytes : list Z) (rest : jsstring) :
  factoryWidth width = true -> Forall isByte bytes -> List.length bytes = width ->
  let u := bigEndian bytes in
  let n := if u <? 2 ^ (8 * Z.of_nat width - 1) then u else u - 2 ^ (8 * Z.of_nat width) in
  rawDecode (LeptonSignedInt width) (byteString bytes ++ rest) = Ok (VNum (NInt n), rest) /\
  parse (LeptonSignedInt width) (VNum (NInt n)) = Ok (VNum (NInt n)) /\
  encode (LeptonSignedInt width) (VNum (NInt n)) = Ok (byteString bytes).
Proof.
  intros Hw Hbytes Hlen u n.
  destruct (fixed_width_read width bytes rest Hw Hbytes Hlen)
    as (Hshort & Hparse & Hrest & Hhex & Hrange).
  destruct (factoryWidth_pow width Hw) as (Hpow & _ & Hbits & Hk).
  destruct (SignedInt_range_hex width Hw) as (Hmin & Hmax & Hdouble & _ & Hhalf & _).
  rewrite Hbits in *. fold u in Hparse, Hhex, Hrange.
  assert (Hn : - 2 ^ (8 * Z.of_nat width - 1) <= n < 2 ^ (8 * Z.of_nat width - 1)).
  { subst n. destruct (u <? 2 ^ (8 * Z.of_nat width - 1)) eqn:Hu;
      [apply Z.ltb_lt in Hu|apply Z.ltb_ge in Hu]; lia. }
  assert (Hres : n mod 2 ^ (8 * Z.of_nat width) = u).
  { subst n. destruct (u <? 2 ^ (8 * Z.of_nat width - 1)) eqn:Hu.
    - apply Z.mod_small. lia.
    - symmetry. apply Z.mod_unique with (q := -1); lia. }
  split; [|split].
  - unfold rawDecode. cbn [methodsOf m_rawDecode]. unfold SignedInt.rawDecode.
    rewrite Hshort, Hparse, Hrest. cbn [orZero].
    rewrite (SignedInt_sign_test width u Hw) by (rewrite Hbits; lia).
    rewrite Hbits. subst n.
    destruct (u <? 2 ^ (8 * Z.of_nat width - 1)); reflexivity.
  - unfold parse. cbn [methodsOf m_parse]. unfold SignedInt.parse. cbn [asInteger].
    rewrite Hmin, Hmax.
    destruct (n <? - 2 ^ (8 * Z.of_nat width - 1)) eqn:Hlo; [apply Z.ltb_lt in Hlo; lia|].
    destruct (2 ^ (8 * Z.of_nat width - 1) - 1 <? n) eqn:Hhi; [apply Z.ltb_lt in Hhi; lia|].
    reflexivity.
  - rewrite (proj1 (signed_encode_twos_complement width n Hw Hn)), Hres, Hhex.
    reflexivity.
Qed.

Lemma signed_decode_any_bytes_witness :
  factoryWidth 1 = true /\ Forall isByte [254] /\ List.length [254] = 1%nat /\
  rawDecode int8 (js "fe00") = Ok (VNum (NInt (-2)), js "00").
Proof.
  assert (Hb : Forall isByte [254]) by (repeat constructor; unfold isByte; lia).
  split; [reflexivity|]. split; [exact Hb|]. split; [reflexivity|].
  exact (proj1 (signed_decode_any_bytes 1 [254] (js "00") eq_refl Hb eq_refl)).
Defined.

(* ================================================================== *)
(** * More on primitive/bits.ts, boolean.ts, enum.ts, string.ts *)
(* ================================================================== *)

Lemma ToInt32_cases z :
  0 <= z < 2 ^ 32 -> ToInt32 z = if z <? 2 ^ 31 then z else z - 2 ^ 32.
Proof.
  intros Hz. unfold ToInt32.
  destruct (z <? 2 ^ 31) eqn:E.
  - apply Z.ltb_lt in E. rewrite Z.mod_small; lia.
  - apply Z.ltb_ge in E.
    replace ((z + 2 ^ 31) mod 2 ^ 32) with (z - 2 ^ 31); [lia|].
    apply Z.mod_unique with (q := 1); lia.
Qed.

Lemma ToInt32_idempotent z : ToInt32 (ToInt32 z) = ToInt32 z.
Proof.
  apply ToInt32_small. unfold ToInt32.
  pose proof (Z.mod_pos_bound (z + 2 ^ 31) (2 ^ 32) ltac:(lia)). lia.
Qed.

(** One step of the loop of [LeptonBits._rawDecode], the wrap-around of
    the 32-bit operators included. *)
Lemma bor_shl8_wrap a b :
  0 <= a < 2 ^ 24 -> isByte b -> bor (shl a 8) b = ToInt32 (a * 256 + b).
Proof.
  intros Ha Hb. unfold isByte in Hb. unfold bor, shl.
  rewrite (ToInt32_small a) by lia. rewrite (ToInt32_small b) by lia.
  change (8 mod 32) with 8. rewrite Z.shiftl_mul_pow2 by lia. change (2 ^ 8) with 256.
  rewrite ToInt32_idempotent.
  rewrite (ToInt32_cases (a * 256)) by lia.
  rewrite (ToInt32_cases (a * 256 + b)) by lia.
  rewrite Z.lor_comm.
  destruct (a * 256 <? 2 ^ 31) eqn:E.
  - apply Z.ltb_lt in E.
    destruct (a * 256 + b <? 2 ^ 31) eqn:E'; [|apply Z.ltb_ge in E'; lia].
    change 256 with (2 ^ 8). rewrite lor_above; lia.
  - apply Z.ltb_ge in E.
    destruct (a * 256 + b <? 2 ^ 31) eqn:E'; [apply Z.ltb_lt in E'; lia|].
    replace (a * 256 - 2 ^ 32) with ((a - 2 ^ 24) * 2 ^ 8) by lia.
    rewrite lor_above; lia.
Qed.

Lemma Bits_fold_bytes bytes :
  Forall isByte bytes -> (List.length bytes <= 4)%nat ->
  fold_left (fun value b => bor (shl value 8) b) bytes 0 = ToInt32 (bigEndian bytes).
Proof.
  intros Hbytes Hlen. unfold bigEndian.
  destruct bytes as [|b1 [|b2 [|b3 [|b4 [|b5 bytes]]]]];
    [reflexivity| | | | |simpl in Hlen; lia];
    repeat match goal with
           | H : Forall isByte (_ :: _) |- _ =>
               let Hb := fresh "Hb" in
               inversion H as [|? ? Hb ?]; subst; clear H; unfold isByte in Hb
           end;
    cbn [fold_left];
    repeat match goal with
           | |- context [bor (shl 0 8) ?b] =>
               rewrite (bor_shl8_wrap 0 b) by (unfold isByte; lia);
               rewrite (ToInt32_small (0 * 256 + b)) by lia
           | |- context [bor (shl (?x * 256 + ?y) 8) ?b] =>
               rewrite (bor_shl8_wrap (x * 256 + y) b) by (unfold isByte; lia);
               try rewrite (ToInt32_small ((x * 256 + y) * 256 + b)) by lia
           end;
    try (rewrite ToInt32_small by lia); reflexivity.
Qed.

Lemma ToInt32_mod_pow2 z k :
  0 <= z < 2 ^ 32 -> 0 <= k <= 32 -> ToInt32 z mod 2 ^ k = z mod 2 ^ k.
Proof.
  intros Hz Hk. rewrite ToInt32_cases by assumption.
  destruct (z <? 2 ^ 31); [reflexivity|].
  replace (2 ^ 32) with (2 ^ (32 - k) * 2 ^ k)
    by (rewrite <- Z.pow_add_r by lia; f_equal; lia).
  replace (z - 2 ^ (32 - k) * 2 ^ k) with (z + (- 2 ^ (32 - k)) * 2 ^ k) by lia.
  apply Z.mod_add. pose proof (Z.pow_pos_nonneg 2 k). lia.
Qed.

Lemma Bits_mask bitWidth :
  1 <= bitWidth <= 31 -> ToInt32 (shl 1 bitWidth - 1) = Z.ones bitWidth.
Proof.
  intros Hw. destruct (Z.eq_dec bitWidth 31) as [-> | Hne]; [reflexivity|].
  fold (Bits.maxValue bitWidth). rewrite Bits_maxValue_upto_30 by lia.
  assert (2 ^ bitWidth <= 2 ^ 30) by (apply Z.pow_le_mono_r; lia).
  pose proof (Z.pow_pos_nonneg 2 bitWidth).
  rewrite ToInt32_small by lia. rewrite Z.ones_equiv. lia.
Qed.

(** X9.  A bit-width node decodes any bytes of the right number: of the
    number they write in base 256 it keeps the low [bitWidth] bits, so bits
    set above the width are dropped without an error; at 32 bits the
    number is read as a signed 32-bit integer. *)
Theorem bits_decode_masks (bitWidth : Z) (bytes : list Z) (rest : jsstring) :
  1 <= bitWidth <= 32 ->
  Forall isByte bytes ->
  List.length bytes = Bits.bytesNeeded bitWidth ->
  rawDecode (LeptonBits bitWidth) (byteString bytes ++ rest)
    = Ok (VNum (NInt (if bitWidth =? 32 then ToInt32 (bigEndian bytes)
                      else bigEndian bytes mod 2 ^ bitWidth)), rest).
Proof.
  intros Hw Hbytes Hlen.
  assert (Hn : 1 <= (bitWidth + 7) / 8 <= 4 /\ bitWidth <= 8 * ((bitWidth + 7) / 8)
               /\ 8 * ((bitWidth + 7) / 8) < bitWidth + 8).
  { pose proof (Z.div_mod (bitWidth + 7) 8 ltac:(lia)).
    pose proof (Z.mod_pos_bound (bitWidth + 7) 8 ltac:(lia)). lia. }
  assert (Hnn : Z.of_nat (List.length bytes) = (bitWidth + 7) / 8)
    by (rewrite Hlen; unfold Bits.bytesNeeded; lia).
  destruct (byteString_bigEndian bytes Hbytes) as [_ Hrange].
  assert (Hbig : 0 <= bigEndian bytes < 2 ^ (8 * ((bitWidth + 7) / 8))).
  { replace (8 * ((bitWidth + 7) / 8)) with (4 * Z.of_nat (2 * List.length bytes)) by lia.
    rewrite Z.pow_mul_r by lia. exact Hrange. }
  assert (Hbig32 : 0 <= bigEndian bytes < 2 ^ 32).
  { split; [lia|]. apply Z.lt_le_trans with (2 ^ (8 * ((bitWidth + 7) / 8))); [lia|].
    apply Z.pow_le_mono_r; lia. }
  unfold rawDecode. cbn [methodsOf m_rawDecode]. unfold Bits.rawDecode.
  rewrite <- Hlen.
  rewrite len_app_ge by (rewrite byteString_length by assumption; lia).
  rewrite sliceFrom_app_exact by (rewrite byteString_length by assumption; lia).
  assert (Hread :
    fold_left (fun value i => bor (shl value 8)
                                  (orZero (byteAt (byteString bytes ++ rest) i)))
              (seq 0 (List.length bytes)) 0 = ToInt32 (bigEndian bytes)).
  { rewrite (fold_left_map_arg (fun value b => bor (shl value 8) b)
               (fun i => orZero (byteAt (byteString bytes ++ rest) i))).
    rewrite (map_byteAt_byteString orZero) by assumption.
    cbn [orZero]. rewrite map_id. apply Bits_fold_bytes; [assumption|lia]. }
  rewrite Hread.
  destruct (Z.rem bitWidth 8 =? 0) eqn:Hrem; cbn [negb].
  - apply Z.eqb_eq in Hrem. rewrite Z.rem_mod_nonneg in Hrem by lia.
    pose proof (Z.div_mod bitWidth 8 ltac:(lia)) as Hdm.
    destruct (bitWidth =? 32) eqn:H32; [reflexivity|].
    apply Z.eqb_neq in H32.
    assert (Hexact : 8 * ((bitWidth + 7) / 8) = bitWidth) by lia.
    rewrite Hexact in Hbig.
    assert (2 ^ bitWidth <= 2 ^ 24) by (apply Z.pow_le_mono_r; lia).
    rewrite ToInt32_small by lia. rewrite Z.mod_small by lia. reflexivity.
  - apply Z.eqb_neq in Hrem.
    assert (Hw31 : 1 <= bitWidth <= 31).
    { split; [lia|]. destruct (Z.eq_dec bitWidth 32) as [-> | ?]; [|lia].
      exfalso. apply Hrem. reflexivity. }
    destruct (bitWidth =? 32) eqn:H32; [apply Z.eqb_eq in H32; lia|].
    unfold band. rewrite ToInt32_idempotent, Bits_mask by assumption.
    rewrite Z.land_ones by lia.
    rewrite ToInt32_mod_pow2 by lia. reflexivity.
Qed.

Lemma bits_decode_masks_witness :
  1 <= 4 <= 32 /\ Forall isByte [255] /\ List.length [255] = Bits.bytesNeeded 4 /\
  rawDecode (LeptonBits 4) (js "ff") = Ok (VNum (NInt 15), []).
Proof.
  assert (Hb : Forall isByte [255]) by (repeat constructor; unfold isByte; lia).
  split; [lia|]. split; [exact Hb|]. split; [reflexivity|].
  exact (bits_decode_masks 4 [255] [] ltac:(lia) Hb eq_refl).
Defined.

(** X10.  The boolean node decodes any byte: 0 is false and every other
    byte is true; an input of fewer than two characters is refused, and one
    of two characters or more is never refused. *)
Theorem boolean_decode_any_byte (b : Z) (rest : jsstring) :
  isByte b ->
  rawDecode LeptonBoolean (byteString [b] ++ rest) = Ok (VBool (negb (b =? 0)), rest) /\
  decode LeptonBoolean (byteString [b] ++ rest) = Ok (VBool (negb (b =? 0))) /\
  (forall bytes,
      (len bytes < 2 ->
       rawDecode LeptonBoolean bytes = throwLepton (js "Not enough bytes to decode boolean")) /\
      (2 <= len bytes ->
       exists value, rawDecode LeptonBoolean bytes = Ok (VBool value, sliceFrom 2 bytes))).
Proof.
  intros Hb.
  assert (Hraw : rawDecode LeptonBoolean (byteString [b] ++ rest)
                 = Ok (VBool (negb (b =? 0)), rest)).
  { unfold rawDecode. cbn [methodsOf m_rawDecode]. unfold Boolean.rawDecode.
    rewrite byteString_cons. cbn [byteString flat_map]. rewrite app_nil_r.
    rewrite len_app_pair, sliceTo_pair, sliceFrom_pair, parseInt16_pair by assumption.
    reflexivity. }
  split; [exact Hraw|split].
  - unfold decode. rewrite Hraw. cbn [bind]. destruct (negb (b =? 0)); reflexivity.
  - intros bytes. unfold rawDecode. cbn [methodsOf m_rawDecode]. unfold Boolean.rawDecode.
    split; intros Hlen.
    + destruct (len bytes <? 2) eqn:E; [reflexivity|apply Z.ltb_ge in E; lia].
    + destruct (len bytes <? 2) eqn:E; [apply Z.ltb_lt in E; lia|].
      eexists. reflexivity.
Qed.

Lemma boolean_decode_any_byte_witness :
  isByte 7 /\ decode LeptonBoolean (js "07") = Ok (VBool true).
Proof.
  assert (Hb : isByte 7) by (unfold isByte; lia).
  split; [exact Hb|].
  exact (proj1 (proj2 (boolean_decode_any_byte 7 [] Hb))).
Defined.

Lemma Enum_has_nth values k s : nth_error values k = Some s -> Enum.has values s = true.
Proof.
  intros Hnth. unfold Enum.has. apply existsb_exists. exists s.
  split; [eapply nth_error_In; eassumption|apply jsstring_eqb_refl].
Qed.

(** X11.  The enum node decodes a byte as an index into its options: a byte
    below their number gives the option at that index, which the node then
    validates; any other byte is refused with the index in the message. *)
Theorem enum_decode_by_index (values : list jsstring) (b : Z) (rest : jsstring) :
  isByte b ->
  rawDecode (LeptonEnum values) (byteString [b] ++ rest) =
    match nth_error values (Z.to_nat b) with
    | Some s => Ok (VStr s, rest)
    | None => throwLepton (js "Invalid enum index: " ++ toString10 b)
    end /\
  decode (LeptonEnum values) (byteString [b] ++ rest) =
    match nth_error values (Z.to_nat b) with
    | Some s => Ok (VStr s)
    | None => throwLepton (js "Invalid enum index: " ++ toString10 b)
    end.
Proof.
  intros Hb.
  assert (Hraw : rawDecode (LeptonEnum values) (byteString [b] ++ rest) =
    match nth_error values (Z.to_nat b) with
    | Some s => Ok (VStr s, rest)
    | None => throwLepton (js "Invalid enum index: " ++ toString10 b)
    end).
  { unfold rawDecode. cbn [methodsOf m_rawDecode]. unfold Enum.rawDecode.
    rewrite byteString_cons. cbn [byteString flat_map]. rewrite app_nil_r.
    rewrite len_app_pair, sliceTo_pair, sliceFrom_pair, parseInt16_pair by assumption.
    unfold isByte in Hb.
    destruct (nth_error values (Z.to_nat b)) as [s|] eqn:Hnth.
    - assert (Hlt : (Z.to_nat b < List.length values)%nat)
        by (apply nth_error_Some; congruence).
      replace (Z.of_nat (List.length values) <=? b) with false
        by (symmetry; apply Z.leb_gt; lia).
      unfold Enum.at_.
      replace (b <? 0) with false by (symmetry; apply Z.ltb_ge; lia).
      rewrite Hnth. reflexivity.
    - apply nth_error_None in Hnth.
      replace (Z.of_nat (List.length values) <=? b) with true
        by (symmetry; apply Z.leb_le; lia).
      cbn [numberOfParse]. rewrite numberToString_integer by lia.
      reflexivity. }
  split; [exact Hraw|].
  unfold decode. rewrite Hraw.
  destruct (nth_error values (Z.to_nat b)) as [s|] eqn:Hnth; [|reflexivity].
  cbn [bind]. unfold parse. cbn [methodsOf m_parse]. unfold Enum.parse.
  cbn [ToString]. rewrite (Enum_has_nth values _ s Hnth). reflexivity.
Qed.

Lemma enum_decode_by_index_witness :
  isByte 1 /\ isByte 2 /\
  decode (LeptonEnum [js "red"; js "green"]) (js "01") = Ok (VStr (js "green")) /\
  decode (LeptonEnum [js "red"; js "green"]) (js "02")
    = throwLepton (js "Invalid enum index: 2").
Proof.
  assert (H1 : isByte 1) by (unfold isByte; lia).
  assert (H2 : isByte 2) by (unfold isByte; lia).
  split; [exact H1|]. split; [exact H2|].
  split; [exact (proj2 (enum_decode_by_index [js "red"; js "green"] 1 [] H1))
         |exact (proj2 (enum_decode_by_index [js "red"; js "green"] 2 [] H2))].
Defined.

Lemma Enum_has_filter (f : jsstring -> bool) options s :
  Enum.has (filter f options) s = Enum.has options s && f s.
Proof.
  unfold Enum.has. induction options as [|o options IH]; [reflexivity|].
  cbn [filter existsb]. destruct (jsstring_eqb s o) eqn:E.
  - apply jsstring_eqb_eq in E. subst o.
    destruct (f s) eqn:Hf.
    + cbn [existsb]. rewrite jsstring_eqb_refl. reflexivity.
    + rewrite IH. now rewrite !andb_false_r.
  - destruct (f o).
    + cbn [existsb]. rewrite E. exact IH.
    + rewrite IH. reflexivity.
Qed.

Lemma Enum_unique_filter (f : jsstring -> bool) options :
  Enum.unique options = true -> Enum.unique (filter f options) = true.
Proof.
  induction options as [|o options IH]; [reflexivity|].
  cbn [Enum.unique filter]. intros H. apply andb_true_iff in H. destruct H as [Ho Hu].
  destruct (f o); [|exact (IH Hu)].
  cbn [Enum.unique]. rewrite (IH Hu), andb_true_r.
  change (existsb (jsstring_eqb o) (filter f options)) with (Enum.has (filter f options) o).
  rewrite Enum_has_filter. unfold Enum.has.
  apply negb_true_iff in Ho. rewrite Ho. reflexivity.
Qed.

Lemma Enum_construct_strings values :
  Enum.construct (VArr (map VStr values)) =
    if (List.length values =? 0)%nat then throwLepton (js "Enum must have at least one value")
    else if Enum.unique values then Ok (LeptonEnum values)
    else throwLepton (js "Enum values must be unique").
Proof.
  unfold Enum.construct. rewrite length_map.
  assert (Hstr : forallb Enum.isString (map VStr values) = true).
  { apply forallb_forall. intros x Hx. apply in_map_iff in Hx.
    destruct Hx as (s & <- & _). reflexivity. }
  assert (Hmap : map Enum.stringOf (map VStr values) = values).
  { rewrite map_map. cbn [Enum.stringOf]. apply map_id. }
  rewrite Hstr, Hmap. cbn [negb].
  destruct (List.length values =? 0)%nat; [reflexivity|].
  destruct (Enum.unique values); reflexivity.
Qed.

(** X12.  [exclude] on an enum of distinct options gives the enum of the
    options that are not excluded, in their order, or refuses when none is
    left; the new enum accepts a string exactly when the receiver accepts it
    and it is not excluded. *)
Theorem enum_exclude_keeps_rest (options values : list jsstring) :
  Enum.unique options = true ->
  let kept := filter (fun val => negb (Enum.has values val)) options in
  Enum.exclude options values =
    (if (List.length kept =? 0)%nat
     then throwLepton (js "Cannot exclude all values from an enum")
     else Ok (LeptonEnum kept)) /\
  forall s, Enum.has kept s = Enum.has options s && negb (Enum.has values s).
Proof.
  intros Hu kept. split.
  - unfold Enum.exclude. fold kept.
    destruct (List.length kept =? 0)%nat eqn:E; [reflexivity|].
    rewrite Enum_construct_strings, E.
    unfold kept. rewrite (Enum_unique_filter _ options Hu). reflexivity.
  - intros s. apply Enum_has_filter.
Qed.

Lemma enum_exclude_keeps_rest_witness :
  Enum.unique [js "a"; js "b"; js "c"; js "d"] = true /\
  Enum.exclude [js "a"; js "b"; js "c"; js "d"] [js "c"; js "a"; js "x"]
    = Ok (LeptonEnum [js "b"; js "d"]).
Proof.
  split; [reflexivity|].
  exact (proj1 (enum_exclude_keeps_rest [js "a"; js "b"; js "c"; js "d"]
                  [js "c"; js "a"; js "x"] eq_refl)).
Defined.

Lemma Enum_extractCheck_find options values :
  Enum.extractCheck options values =
    match find (fun val => negb (Enum.has options val)) values with
    | Some val => throwLepton (js "Value " ++ [34] ++ val ++ [34] ++ js " is not in the enum")
    | None => Ok tt
    end.
Proof.
  induction values as [|val values IH]; [reflexivity|].
  cbn [Enum.extractCheck find]. destruct (negb (Enum.has options val)); [reflexivity|exact IH].
Qed.

(** X13.  [extract] refuses at the first requested value the receiver does
    not have, then an empty request, then a repeated value; otherwise the
    new enum has the requested values in the order of the request, not in
    the order of the receiver. *)
Theorem enum_extract_follows_request (options values : list jsstring) :
  Enum.extract options values =
    match find (fun val => negb (Enum.has options val)) values with
    | Some val => throwLepton (js "Value " ++ [34] ++ val ++ [34] ++ js " is not in the enum")
    | None =>
        if (List.length values =? 0)%nat
        then throwLepton (js "Cannot create an enum with no values")
        else if Enum.unique values then Ok (LeptonEnum values)
        else throwLepton (js "Enum values must be unique")
    end.
Proof.
  unfold Enum.extract. rewrite Enum_extractCheck_find.
  destruct (find _ values); [reflexivity|]. cbn [bind].
  destruct (List.length values =? 0)%nat eqn:E; [reflexivity|].
  rewrite Enum_construct_strings, E. reflexivity.
Qed.

Lemma Enum_indexOfFrom_unique values : forall k s i,
  Enum.unique values = true -> nth_error values k = Some s ->
  Enum.indexOfFrom values s i = i + Z.of_nat k.
Proof.
  induction values as [|v values IH]; intros k s i Hu Hnth.
  - destruct k; discriminate.
  - cbn [Enum.unique] in Hu. apply andb_true_iff in Hu. destruct Hu as [Hv Hu].
    cbn [Enum.indexOfFrom]. destruct k as [|k].
    + cbn in Hnth. inversion Hnth; subst. rewrite jsstring_eqb_refl. lia.
    + cbn [nth_error] in Hnth.
      destruct (jsstring_eqb v s) eqn:E.
      * apply jsstring_eqb_eq in E. subst v.
        apply negb_true_iff in Hv.
        pose proof (Enum_has_nth values k s Hnth) as Hhas. unfold Enum.has in Hhas.
        congruence.
      * rewrite (IH k s (i + 1) Hu Hnth). lia.
Qed.

Lemma Enum_nth_unique values : forall k k' s,
  Enum.unique values = true ->
  nth_error values k = Some s -> nth_error values k' = Some s -> k = k'.
Proof.
  intros k k' s Hu Hk Hk'.
  pose proof (Enum_indexOfFrom_unique values k s 0 Hu Hk).
  pose proof (Enum_indexOfFrom_unique values k' s 0 Hu Hk'). lia.
Qed.

Lemma three_digit_index k :
  256 <= k < 4096 -> padStart0 2 (toString16 k) = hexFixed 3 k.
Proof.
  intros Hk.
  assert (Hall : forallb (fun i => jsstring_eqb (padStart0 2 (toString16 i)) (hexFixed 3 i))
                         (map Z.of_nat (seq 256 3840)) = true) by (vm_compute; reflexivity).
  rewrite forallb_forall in Hall. apply jsstring_eqb_eq. apply Hall.
  apply in_map_iff. exists (Z.to_nat k). split; [lia|]. apply in_seq. lia.
Qed.

(** X14.  An index takes one byte on decoding but is written with as many
    hex digits as it has: the option at an index from 256 to 4095 is
    encoded in three characters, of which the decoder reads two, so what
    comes back is another option and a stray character. *)
Theorem enum_index_beyond_one_byte (values : list jsstring) (k : nat) (s rest : jsstring) :
  Enum.unique values = true ->
  nth_error values k = Some s ->
  (256 <= k < 4096)%nat ->
  encode (LeptonEnum values) (VStr s) = Ok (hexFixed 3 (Z.of_nat k)) /\
  exists s',
    nth_error values (k / 16) = Some s' /\ s' <> s /\
    rawDecode (LeptonEnum values) (hexFixed 3 (Z.of_nat k) ++ rest)
      = Ok (VStr s', hexDigit (Z.of_nat k mod 16) :: rest).
Proof.
  intros Hu Hnth Hk. split.
  - unfold encode. cbn [methodsOf m_encode]. unfold Enum.encode, Enum.parse.
    cbn [ToString]. rewrite (Enum_has_nth values k s Hnth). cbn [negb bind Enum.indexOf].
    rewrite (Enum_indexOfFrom_unique values k s 0 Hu Hnth).
    rewrite three_digit_index by lia. reflexivity.
  - assert (Hlt : (k < List.length values)%nat) by (apply nth_error_Some; congruence).
    assert (Hq : (k / 16 < k)%nat) by (apply Nat.div_lt; lia).
    destruct (nth_error values (k / 16)) as [s'|] eqn:Hnth';
      [|apply nth_error_None in Hnth'; lia].
    exists s'. split; [reflexivity|]. split.
    + intros ->. pose proof (Enum_nth_unique values _ _ s Hu Hnth Hnth'). lia.
    + unfold rawDecode. cbn [methodsOf m_rawDecode]. unfold Enum.rawDecode.
      assert (Hsplit : hexFixed 3 (Z.of_nat k) ++ rest
                       = hexFixed 2 (Z.of_nat k / 16) ++ hexDigit (Z.of_nat k mod 16) :: rest).
      { change (hexFixed 3 (Z.of_nat k))
          with (hexFixed 2 (Z.of_nat k / 16) ++ [hexDigit (Z.of_nat k mod 16)]).
        rewrite <- app_assoc. reflexivity. }
      rewrite Hsplit.
      assert (Hrange : 0 <= Z.of_nat k / 16 < 16 ^ Z.of_nat 2).
      { split; [apply Z.div_pos; lia|apply Z.div_lt_upper_bound; simpl; lia]. }
      destruct (hexFixed_decodes 2 (Z.of_nat k / 16)
                  (hexDigit (Z.of_nat k mod 16) :: rest) ltac:(lia) Hrange)
        as (Hshort & Hparse & Hrest).
      change (Z.of_nat 2) with 2 in Hshort.
      rewrite Hshort, Hparse, Hrest.
      assert (Hdiv : Z.of_nat k / 16 = Z.of_nat (k / 16))
        by (rewrite Nat2Z.inj_div; reflexivity).
      rewrite Hdiv.
      replace (Z.of_nat (List.length values) <=? Z.of_nat (k / 16)) with false
        by (symmetry; apply Z.leb_gt; lia).
      unfold Enum.at_.
      replace (Z.of_nat (k / 16) <? 0) with false by (symmetry; apply Z.ltb_ge; lia).
      rewrite Nat2Z.id, Hnth'. reflexivity.
Qed.

Lemma enum_index_beyond_one_byte_witness :
  let values := map (fun i => toString10 (Z.of_nat i)) (seq 0 300) in
  Enum.unique values = true /\
  nth_error values 256 = Some (js "256") /\
  (256 <= 256 < 4096)%nat /\
  encode (LeptonEnum values) (VStr (js "256")) = Ok (js "100").
Proof.
  assert (Hu : Enum.unique (map (fun i => toString10 (Z.of_nat i)) (seq 0 300)) = true)
    by (vm_compute; reflexivity).
  assert (Hn : nth_error (map (fun i => toString10 (Z.of_nat i)) (seq 0 300)) 256
               = Some (js "256")) by (vm_compute; reflexivity).
  split; [exact Hu|]. split; [exact Hn|]. split; [lia|].
  exact (proj1 (enum_index_beyond_one_byte _ 256 (js "256") [] Hu Hn ltac:(lia))).
Defined.

(** X15.  A string whose length prefix announces more bytes than follow is
    refused, and the message carries the announced length as a Number: the
    length itself when it is below 2^53, the nearest double otherwise
    (2^53 + 1 is printed as 9007199254740992). *)
Theorem string_decode_short_payload (n : Z) (payload : jsstring) :
  0 <= n -> len payload < n * 2 ->
  rawDecode LeptonString (encodeVarInt n ++ payload)
    = throwLepton (js "Not enough bytes to decode string of length "
                   ++ numberToString (numberOfBigInt n)) /\
  (n < 2 ^ 53 -> numberToString (numberOfBigInt n) = toString10 n).
Proof.
  intros Hn Hshort. split.
  - unfold rawDecode. cbn [methodsOf m_rawDecode]. unfold String_.rawDecode.
    rewrite decodeVarInt_encodeVarInt by assumption.
    destruct (len payload <? n * 2) eqn:E; [reflexivity|apply Z.ltb_ge in E; lia].
  - intros Hsmall. rewrite numberOfBigInt_exact by lia.
    apply numberToString_integer. lia.
Qed.

Lemma string_decode_short_payload_witness :
  rawDecode LeptonString (js "036162")
    = throwLepton (js "Not enough bytes to decode string of length 3") /\
  rawDecode LeptonString (encodeVarInt (2 ^ 53 + 1) ++ js "6162")
    = throwLepton (js "Not enough bytes to decode string of length 9007199254740992").
Proof.
  split.
  - exact (proj1 (string_decode_short_payload 3 (js "6162") ltac:(lia)
                    ltac:(vm_compute; reflexivity))).
  - exact (proj1 (string_decode_short_payload (2 ^ 53 + 1) (js "6162") ltac:(lia)
                    ltac:(vm_compute; reflexivity))).
Defined.

(** X16.  A string is decoded from any bytes: after a length prefix [n], the
    next [n] bytes, whatever they are, go to the UTF-8 decoder, which
    replaces what is malformed and never fails. *)
Theorem string_decode_any_bytes (bytes : list Z) (rest : jsstring) :
  Forall isByte bytes ->
  rawDecode LeptonString
      (encodeVarInt (Z.of_nat (List.length bytes)) ++ byteString bytes ++ rest)
    = Ok (VStr (utf8Decode bytes), rest) /\
  decode LeptonString
      (encodeVarInt (Z.of_nat (List.length bytes)) ++ byteString bytes ++ rest)
    = Ok (VStr (utf8Decode bytes)).
Proof.
  intros Hbytes.
  assert (Hraw : rawDecode LeptonString
      (encodeVarInt (Z.of_nat (List.length bytes)) ++ byteString bytes ++ rest)
    = Ok (VStr (utf8Decode bytes), rest)).
  { unfold rawDecode. cbn [methodsOf m_rawDecode]. unfold String_.rawDecode.
    rewrite decodeVarInt_encodeVarInt by lia.
    rewrite len_app_ge by (rewrite byteString_length by assumption; lia).
    rewrite Nat2Z.id.
    rewrite (map_byteAt_byteString ToUint8_nan) by assumption.
    assert (Hid : map (fun b => ToUint8_nan (Some b)) bytes = bytes).
    { rewrite <- (map_id bytes) at 2. apply map_ext_in. intros b Hb.
      rewrite Forall_forall in Hbytes. specialize (Hbytes b Hb).
      cbn [ToUint8_nan]. apply Z.mod_small. exact Hbytes. }
    rewrite Hid.
    rewrite sliceFrom_app_exact by (rewrite byteString_length by assumption; lia).
    reflexivity. }
  split; [exact Hraw|]. unfold decode. rewrite Hraw. reflexivity.
Qed.

Lemma string_decode_any_bytes_witness :
  Forall isByte [255; 97] /\
  decode LeptonString (js "02ff61") = Ok (VStr [65533; 97]).
Proof.
  assert (Hb : Forall isByte [255; 97]) by (repeat constructor; unfold isByte; lia).
  split; [exact Hb|].
  exact (proj2 (string_decode_any_bytes [255; 97] [] Hb)).
Defined.

(* ================================================================== *)
(** * More on validation: wrappers and arrays *)
(* ================================================================== *)

Lemma Object_parseFields_object v : forall entries res v',
  Object_.parseFields entries v res = Ok v' -> exists props, v' = VObj props.
Proof.
  induction entries as [|[key m] entries IH]; intros res v' H; cbn [Object_.parseFields] in H.
  - inversion H. eexists. reflexivity.
  - destruct (negb (hasProperty key v) && negb (m_isOptional m)); [discriminate|].
    destruct (hasProperty key v); [|exact (IH _ _ H)].
    destruct (withPath key (m_parse m (getProperty v key))); [|discriminate].
    exact (IH _ _ H).
Qed.

(** Validation keeps the two markers apart from the values: what it returns
    is undefined (null) exactly when what it was given is. *)
Lemma parse_keeps_markers : forall t v v',
  parse t v = Ok v' ->
  (v' = VUndefined <-> v = VUndefined) /\ (v' = VNull <-> v = VNull).
Proof.
  induction t as [w|w|b| | | |values|shape isStrict IH|w IH|w IH|e IH| | |enumObject]
    using LeptonType_nested_ind;
    intros v v' Hparse; unfold parse in *; cbn [methodsOf m_parse] in *.
  - unfold SignedInt.parse in Hparse.
    destruct (asInteger v); [|discriminate]. destruct (_ || _); [discriminate|].
    inversion Hparse; subst. tauto.
  - unfold UnsignedInt.parse in Hparse.
    destruct (asInteger v); [|discriminate]. destruct (_ || _); [discriminate|].
    inversion Hparse; subst. tauto.
  - unfold Bits.parse in Hparse.
    destruct (asInteger v); [|discriminate]. destruct (_ || _); [discriminate|].
    inversion Hparse; subst. tauto.
  - destruct v; try discriminate. inversion Hparse; subst. tauto.
  - destruct v; try discriminate. inversion Hparse; subst.
    split; split; discriminate.
  - destruct v; try discriminate. inversion Hparse; subst. tauto.
  - unfold Enum.parse in Hparse. destruct (ToString v); [|discriminate].
    destruct (negb _); [discriminate|].
    inversion Hparse; subst. tauto.
  - unfold Object_.parse in Hparse.
    destruct (Object_.isObject v) eqn:Hobj; cbn [negb] in Hparse; [|discriminate].
    destruct (isStrict && _); [discriminate|].
    destruct (Object_parseFields_object _ _ _ _ Hparse) as (props & ->).
    destruct v; try discriminate; split; split; discriminate.
  - destruct v; cbn [Optional.parse] in Hparse;
      try (inversion Hparse; subst; tauto); exact (IH _ _ Hparse).
  - destruct v; cbn [Nullable.parse] in Hparse;
      try (inversion Hparse; subst; tauto); exact (IH _ _ Hparse).
  - destruct v as [| | | | | |elems|]; try discriminate.
    cbn [Array.parse] in Hparse.
    destruct (Array.parseFrom (methodsOf e) 0 elems); [|discriminate].
    inversion Hparse; subst. split; split; discriminate.
  - destruct v; try discriminate. inversion Hparse; subst. tauto.
  - destruct v as [| | |n| | | |]; try discriminate. cbn [Float.parse] in Hparse.
    destruct (roundToPrecision_number n) as (n' & Hn'). rewrite Hn' in Hparse.
    inversion Hparse; subst. split; split; discriminate.
  - unfold NativeEnum.parse in Hparse.
    destruct (existsb _ _); [|destruct (ToString _); discriminate].
    inversion Hparse; subst. unfold NativeEnum.coerce.
    destruct v; try tauto. destruct (_ && _); split; split; discriminate.
Qed.

(** X17.  A wrapper extends its inner schema: whatever the inner schema
    accepts, the optional and the nullable wrapper accept with the same
    result; and each accepts its own marker as it is. *)
Theorem wrappers_extend_inner (inner : LeptonType) (v v' : Value) :
  parse inner v = Ok v' ->
  parse (LeptonOptional inner) v = Ok v' /\
  parse (LeptonNullable inner) v = Ok v' /\
  parse (LeptonOptional inner) VUndefined = Ok VUndefined /\
  parse (LeptonNullable inner) VNull = Ok VNull.
Proof.
  intros Hparse. destruct (parse_keeps_markers inner v v' Hparse) as [Hundef Hnull].
  split; [|split; [|split; reflexivity]].
  - unfold parse. cbn [methodsOf m_parse].
    destruct v; try exact Hparse.
    cbn [Optional.parse]. f_equal. symmetry. now apply Hundef.
  - unfold parse. cbn [methodsOf m_parse].
    destruct v; try exact Hparse.
    cbn [Nullable.parse]. f_equal. symmetry. now apply Hnull.
Qed.

Lemma wrappers_extend_inner_witness :
  parse (LeptonEnum [js "undefined"]) VUndefined = Ok VUndefined /\
  parse (LeptonNullable (LeptonEnum [js "undefined"])) VUndefined = Ok VUndefined.
Proof.
  split; [reflexivity|].
  exact (proj1 (proj2 (wrappers_extend_inner (LeptonEnum [js "undefined"])
                         VUndefined VUndefined eq_refl))).
Defined.

Lemma printable_ToString : forall v, printable v = true -> exists s, ToString v = Some s.
Proof.
  fix IH 1. intros [| |[|]|n|z|s|elems|props] Hv; try (eexists; reflexivity).
  - cbn [printable] in Hv. cbn [ToString].
    assert (Hall : exists parts,
               allSome (map (fun e => match e with
                                      | VUndefined | VNull => Some []
                                      | _ => ToString e
                                      end) elems) = Some parts).
    { induction elems as [|x elems IHelems]; [exists []; reflexivity|].
      cbn [forallb] in Hv. apply andb_true_iff in Hv. destruct Hv as [Hx Hv].
      destruct (IHelems Hv) as (parts & Hparts).
      destruct (IH x Hx) as (s & Hs).
      cbn [map allSome]. rewrite Hparts.
      destruct x; try rewrite Hs; eexists; reflexivity. }
    destruct Hall as (parts & ->). eexists. reflexivity.
  - cbn [printable] in Hv. apply andb_true_iff in Hv. destruct Hv as [Hown _].
    cbn [ToString]. destruct (lookup (js "toString") props); [discriminate|].
    eexists. reflexivity.
Qed.

Lemma printable_lookupIndex key : forall (elems : list Value) i x,
  forallb printable elems = true -> lookupIndex key i elems = Some x -> printable x = true.
Proof.
  induction elems as [|e elems IH]; intros i x Hall H; [discriminate|].
  cbn [forallb] in Hall. apply andb_true_iff in Hall. destruct Hall as [He Hall].
  cbn [lookupIndex] in H. destruct (jsstring_eqb (indexKey i) key).
  - inversion H; subst. exact He.
  - exact (IH _ _ Hall H).
Qed.

Lemma printable_lookup key : forall (props : list (jsstring * Value)) x,
  forallb (fun e => let '(_, x) := e in printable x) props = true ->
  lookup key props = Some x -> printable x = true.
Proof.
  induction props as [|[k y] props IH]; intros x Hall H; [discriminate|].
  cbn [forallb] in Hall. apply andb_true_iff in Hall. destruct Hall as [Hy Hall].
  cbn [lookup] in H. destruct (jsstring_eqb k key).
  - inversion H; subst. exact Hy.
  - exact (IH _ Hall H).
Qed.

(** What is read from a printable value is printable. *)
Lemma printable_getProperty v key : printable v = true -> printable (getProperty v key) = true.
Proof.
  intros Hv. unfold getProperty.
  destruct (getOwnProperty v key) as [x|] eqn:Hx; [|reflexivity].
  destruct v as [| | | | |s|elems|props]; try discriminate; cbn [getOwnProperty] in Hx.
  - destruct (jsstring_eqb key (js "length")); [inversion Hx; reflexivity|].
    destruct (lookupIndex key 0 s); inversion Hx. reflexivity.
  - destruct (jsstring_eqb key (js "length")); [inversion Hx; reflexivity|].
    exact (printable_lookupIndex key elems 0 x Hv Hx).
  - cbn [printable] in Hv. apply andb_true_iff in Hv. destruct Hv as [_ Hv].
    exact (printable_lookup key props x Hv Hx).
Qed.

Lemma Object_parseFields_outcome v : forall entries res,
  Forall (fun e => forall x, printable x = true ->
                             (exists y, m_parse (snd e) x = Ok y) \/
                             (exists err, m_parse (snd e) x = Throw (LeptonErr err))) entries ->
  printable v = true ->
  (exists v', Object_.parseFields entries v res = Ok v') \/
  (exists err, Object_.parseFields entries v res = Throw (LeptonErr err)).
Proof.
  induction entries as [|[key m] entries IH]; intros res Hall Hv; cbn [Object_.parseFields].
  - left. eexists. reflexivity.
  - inversion Hall as [|? ? Hm Hrest]; subst. cbn [snd] in Hm.
    destruct (negb (hasProperty key v) && negb (m_isOptional m));
      [right; eexists; reflexivity|].
    destruct (hasProperty key v); [|exact (IH _ Hrest Hv)].
    destruct (Hm (getProperty v key) (printable_getProperty v key Hv)) as [[y Hy]|[err Herr]].
    + rewrite Hy. cbn [withPath bind]. exact (IH _ Hrest Hv).
    + rewrite Herr. right. eexists. reflexivity.
Qed.

Lemma Array_parseFrom_outcome m : forall elems i,
  (forall x, printable x = true ->
             (exists y, m_parse m x = Ok y) \/
             (exists err, m_parse m x = Throw (LeptonErr err))) ->
  forallb printable elems = true ->
  (exists vs, Array.parseFrom m i elems = Ok vs) \/
  (exists err, Array.parseFrom m i elems = Throw (LeptonErr err)).
Proof.
  induction elems as [|x elems IH]; intros i Hm Hall; cbn [Array.parseFrom].
  - left. eexists. reflexivity.
  - cbn [forallb] in Hall. apply andb_true_iff in Hall. destruct Hall as [Hx Hall].
    destruct (Hm x Hx) as [[y Hy]|[err Herr]].
    + rewrite Hy. cbn [withPath bind].
      destruct (IH (S i) Hm Hall) as [[vs Hvs]|[err Herr]]; rewrite ?Hvs, ?Herr.
      * left. eexists. reflexivity.
      * right. eexists. reflexivity.
    + rewrite Herr. right. eexists. reflexivity.
Qed.

(** X18.  On a value that [String] prints (no object in it has a property
    [toString] of its own), validation either returns a value or throws a
    [LeptonError]: under no schema does [parse] fail with an error of the
    platform.  On other values it can: an enum prints its input first. *)
Theorem parse_throws_only_lepton_errors : forall (t : LeptonType) (v : Value),
  printable v = true ->
  (exists v', parse t v = Ok v') \/ (exists err, parse t v = Throw (LeptonErr err)).
Proof.
  induction t as [w|w|b| | | |values|shape isStrict IH|w IH|w IH|e IH| | |enumObject]
    using LeptonType_nested_ind;
    intros v Hv; unfold parse in *; cbn [methodsOf m_parse] in *.
  - unfold SignedInt.parse. destruct (asInteger v); [destruct (_ || _)|];
      (left; eexists; reflexivity) || (right; eexists; reflexivity).
  - unfold UnsignedInt.parse. destruct (asInteger v); [destruct (_ || _)|];
      (left; eexists; reflexivity) || (right; eexists; reflexivity).
  - unfold Bits.parse. destruct (asInteger v); [destruct (_ || _)|];
      (left; eexists; reflexivity) || (right; eexists; reflexivity).
  - destruct v; (left; eexists; reflexivity) || (right; eexists; reflexivity).
  - destruct v; (left; eexists; reflexivity) || (right; eexists; reflexivity).
  - destruct v; (left; eexists; reflexivity) || (right; eexists; reflexivity).
  - unfold Enum.parse. destruct (printable_ToString v Hv) as (text & ->).
    destruct (negb _);
      (left; eexists; reflexivity) || (right; eexists; reflexivity).
  - unfold Object_.parse.
    destruct (negb (Object_.isObject v)); [right; eexists; reflexivity|].
    destruct (isStrict && _); [right; eexists; reflexivity|].
    apply Object_parseFields_outcome; [|exact Hv].
    apply Forall_forall. intros [k m] Hin x. cbn [snd].
    apply in_map_iff in Hin. destruct Hin as ([k0 s] & Heq & Hin). inversion Heq; subst.
    rewrite Forall_forall in IH. exact (IH (k, s) Hin x).
  - destruct v; cbn [Optional.parse]; try (apply IH; exact Hv). left. eexists. reflexivity.
  - destruct v; cbn [Nullable.parse]; try (apply IH; exact Hv). left. eexists. reflexivity.
  - destruct v as [| | | | | |elems|]; try (right; eexists; reflexivity).
    cbn [Array.parse]. cbn [printable] in Hv.
    destruct (Array_parseFrom_outcome (methodsOf e) elems 0 IH Hv) as [[vs Hvs]|[err Herr]].
    + rewrite Hvs. left. eexists. reflexivity.
    + rewrite Herr. right. eexists. reflexivity.
  - destruct v; (left; eexists; reflexivity) || (right; eexists; reflexivity).
  - destruct v as [| | |n| | | |]; try (right; eexists; reflexivity).
    cbn [Float.parse]. destruct (roundToPrecision_number n) as (n' & ->).
    left. eexists. reflexivity.
  - unfold NativeEnum.parse.
    destruct (existsb _ _); [left; eexists; reflexivity|].
    assert (Hc : printable (NativeEnum.coerce enumObject v) = true).
    { unfold NativeEnum.coerce. destruct v; try exact Hv. destruct (_ && _); reflexivity. }
    destruct (printable_ToString _ Hc) as (text & ->). right. eexists. reflexivity.
Qed.

Lemma parse_throws_only_lepton_errors_witness :
  printable (VObj [(js "a", VArr [VNull])]) = true /\
  parse (LeptonEnum [js "a"]) (VObj [(js "a", VArr [VNull])])
    = throwLepton (js "Invalid enum value. Expected one of: a, got: [object Object]") /\
  parse (LeptonEnum [js "a"]) (VObj [(js "toString", VNull)]) = Throw NativeError /\
  ((exists v', parse (LeptonEnum [js "a"]) (VObj [(js "a", VArr [VNull])]) = Ok v') \/
   (exists err, parse (LeptonEnum [js "a"]) (VObj [(js "a", VArr [VNull])])
                = Throw (LeptonErr err))).
Proof.
  split; [reflexivity|]. split; [reflexivity|]. split; [reflexivity|].
  exact (parse_throws_only_lepton_errors (LeptonEnum [js "a"])
           (VObj [(js "a", VArr [VNull])]) eq_refl).
Defined.

Lemma Array_parseFrom_first_failure m bad after e : forall good i,
  Forall (fun x => exists y, m_parse m x = Ok y) good ->
  m_parse m bad = Throw (LeptonErr e) ->
  Array.parseFrom m i (good ++ bad :: after)
    = Throw (LeptonErr (mkError (message e)
                          (indexKey (i + List.length good) :: path e) (issues e))).
Proof.
  induction good as [|x good IH]; intros i Hgood Hbad.
  - cbn [app Array.parseFrom List.length]. rewrite Hbad. cbn [withPath bind].
    now rewrite Nat.add_0_r.
  - inversion Hgood as [|? ? [y Hy] Hrest]; subst.
    cbn [app Array.parseFrom]. rewrite Hy. cbn [withPath bind].
    rewrite (IH (S i) Hrest Hbad). cbn [bind List.length].
    now replace (S i + List.length good)%nat with (i + S (List.length good))%nat by lia.
Qed.

(** X19.  An array is validated element by element and stops at the first
    element its element schema refuses: the error is that element's, with
    the element's index put in front of its path; the elements after it are
    not looked at. *)
Theorem array_first_failure (elementType : LeptonType) (good : list Value) (bad : Value)
  (after : list Value) (e : LeptonError) :
  Forall (fun x => exists y, parse elementType x = Ok y) good ->
  parse elementType bad = Throw (LeptonErr e) ->
  parse (LeptonArray elementType) (VArr (good ++ bad :: after))
    = Throw (LeptonErr (mkError (message e)
                          (indexKey (List.length good) :: path e) (issues e))).
Proof.
  intros Hgood Hbad. unfold parse. cbn [methodsOf m_parse Array.parse].
  rewrite (Array_parseFrom_first_failure _ bad after e good 0 Hgood Hbad). reflexivity.
Qed.

Lemma array_first_failure_witness :
  Forall (fun x => exists y, parse (LeptonArray uint8) x = Ok y)
         [VArr []; VArr [VNum (NInt 7)]] /\
  parse (LeptonArray uint8) (VArr [VNum (NInt 1); VStr (js "x")])
    = Throw (LeptonErr (mkError (js "Expected integer, got string") [js "1"]
                          [mkIssue [] (js "Expected integer, got string")])) /\
  parse (LeptonArray (LeptonArray uint8))
        (VArr [VArr []; VArr [VNum (NInt 7)]; VArr [VNum (NInt 1); VStr (js "x")]; VNull])
    = Throw (LeptonErr (mkError (js "Expected integer, got string") [js "2"; js "1"]
                          [mkIssue [] (js "Expected integer, got string")])).
Proof.
  assert (Hgood : Forall (fun x => exists y, parse (LeptonArray uint8) x = Ok y)
                         [VArr []; VArr [VNum (NInt 7)]]).
  { repeat constructor; eexists; reflexivity. }
  assert (Hbad : parse (LeptonArray uint8) (VArr [VNum (NInt 1); VStr (js "x")])
    = Throw (LeptonErr (mkError (js "Expected integer, got string") [js "1"]
                          [mkIssue [] (js "Expected integer, got string")])))
    by reflexivity.
  split; [exact Hgood|]. split; [exact Hbad|].
  exact (array_first_failure (LeptonArray uint8) _ _ [VNull] _ Hgood Hbad).
Defined.

Lemma Array_decodeElements_first_failure m e : forall k j i rest vs rest',
  Array.decodeElements m k i rest = Ok (vs, rest') ->
  m_rawDecode m rest' = Throw (LeptonErr e) ->
  Array.decodeElements m (k + S j) i rest
    = Throw (LeptonErr (mkError (message e) (indexKey (i + k) :: path e) (issues e))).
Proof.
  induction k as [|k IH]; intros j i rest vs rest' Hdec Hbad.
  - cbn [Array.decodeElements] in Hdec. inversion Hdec; subst.
    cbn [Nat.add Array.decodeElements]. rewrite Hbad. cbn [withPath bind].
    now rewrite Nat.add_0_r.
  - cbn [Array.decodeElements] in Hdec. cbn [Nat.add Array.decodeElements].
    destruct (withPath (indexKey i) (m_rawDecode m rest)) as [[element next]|] eqn:Hone;
      [|discriminate].
    cbn [bind] in Hdec |- *.
    destruct (Array.decodeElements m k (S i) next) as [[elements rest'']|] eqn:Hmore;
      [|discriminate].
    cbn [bind] in Hdec. inversion Hdec; subst.
    rewrite (IH j (S i) next elements rest' Hmore Hbad). cbn [bind].
    now replace (S i + k)%nat with (i + S k)%nat by lia.
Qed.

(** X20.  An array is decoded element by element, as many as its length
    prefix announces, and stops at the first that cannot be decoded: the
    error is that element's, with the element's index put in front of its
    path.  (The count is below 2^53, where [Number(length)] is the length,
    and the index below 2^32, the elements before it fitting an array.)
    Whether bytes that run out make an element fail is the matter of the
    element's codec: under [uint8] an array cut short is refused, under the
    big integer, which decodes no bytes as 0, it is filled up with zeros. *)
Theorem array_decode_first_failure (elementType : LeptonType) (count k : nat)
  (vs : list Value) (rest rest' : jsstring) (e : LeptonError) :
  (k < count)%nat -> Z.of_nat count < 2 ^ 53 -> Z.of_nat k < 2 ^ 32 ->
  Array.decodeElements (methodsOf elementType) k 0 rest = Ok (vs, rest') ->
  rawDecode elementType rest' = Throw (LeptonErr e) ->
  rawDecode (LeptonArray elementType) (encodeVarInt (Z.of_nat count) ++ rest)
    = Throw (LeptonErr (mkError (message e) (indexKey k :: path e) (issues e))).
Proof.
  intros Hk _ _ Hdec Hbad. unfold rawDecode. cbn [methodsOf m_rawDecode].
  unfold Array.rawDecode.
  rewrite decodeVarInt_encodeVarInt by lia. rewrite Nat2Z.id.
  replace count with (k + S (count - S k))%nat by lia.
  rewrite (Array_decodeElements_first_failure _ e k _ 0 rest vs rest' Hdec Hbad).
  reflexivity.
Qed.

Lemma array_decode_first_failure_witness :
  rawDecode (LeptonArray uint8) (js "030102")
    = Throw (LeptonErr (mkError (js "Not enough bytes to decode uint8") [js "2"]
                          [mkIssue [] (js "Not enough bytes to decode uint8")])) /\
  rawDecode (LeptonArray LeptonBigInt) (js "0301")
    = Ok (VArr [VBigInt 1; VBigInt 0; VBigInt 0], []).
Proof.
  split; [|reflexivity].
  exact (array_decode_first_failure uint8 3 2 [VNum (NInt 1); VNum (NInt 2)] (js "0102") []
           (mkError (js "Not enough bytes to decode uint8") []
                    [mkIssue [] (js "Not enough bytes to decode uint8")])
           ltac:(lia) ltac:(vm_compute; reflexivity) ltac:(vm_compute; reflexivity)
           eq_refl eq_refl).
Defined.

(* ================================================================== *)
(** * More on primitive/object.ts: validation of objects *)
(* ================================================================== *)

Lemma Object_extraKeys_entries {A B} (f : A -> B) (shape : list (jsstring * A)) v :
  Object_.extraKeys (map (fun e => let '(k, s) := e in (k, f s)) shape) v
    = Object_.extraKeys shape v.
Proof.
  unfold Object_.extraKeys, inShape. apply filter_ext. intros key.
  rewrite lookup_entries. destruct (lookup key shape); reflexivity.
Qed.

(** The fields before the first that fails do not change the outcome. *)
Lemma Object_parseFields_skip v (rest : list (jsstring * methods)) x : forall before res,
  Forall (fun e => if hasProperty (fst e) v
                   then exists y, m_parse (snd e) (getProperty v (fst e)) = Ok y
                   else m_isOptional (snd e) = true) before ->
  (forall res', Object_.parseFields rest v res' = Throw x) ->
  Object_.parseFields (before ++ rest) v res = Throw x.
Proof.
  induction before as [|[k m] before IH]; intros res Hall Hrest; [apply Hrest|].
  inversion Hall as [|? ? Hk Hbefore]; subst. cbn [fst snd] in Hk.
  cbn [app Object_.parseFields].
  destruct (hasProperty k v).
  - destruct Hk as [y Hy]. rewrite Hy. cbn [negb andb withPath bind].
    exact (IH _ Hbefore Hrest).
  - rewrite Hk. cbn [negb andb]. exact (IH _ Hbefore Hrest).
Qed.

(** X21.  A plain object is validated field by field, in the order of the
    shape, and validation stops at the first field that fails: a field that
    is absent and not optional gives the missing-property error; a field
    that is present and refused by its schema gives that schema's error,
    with the field name put in front of its path.  The fields up to the
    failing one have names that a plain object does not inherit, so that
    [key in input] is the test of an own property. *)
Theorem object_first_failure (before after : list (jsstring * LeptonType))
  (key : jsstring) (schema : LeptonType) (isStrict : bool)
  (props : list (jsstring * Value)) :
  plainKeys (before ++ [(key, schema)]) = true ->
  isStrict = false
  \/ Object_.extraKeys (before ++ (key, schema) :: after) (VObj props) = [] ->
  Forall (fun e => match lookup (fst e) props with
                   | Some x => exists y, parse (snd e) x = Ok y
                   | None => m_isOptional (methodsOf (snd e)) = true
                   end) before ->
  (lookup key props = None -> m_isOptional (methodsOf schema) = false ->
   parse (LeptonObject (before ++ (key, schema) :: after) isStrict) (VObj props)
     = throwLepton (js "Missing required property: " ++ key)) /\
  (forall x e, lookup key props = Some x ->
               parse schema x = Throw (LeptonErr e) ->
   parse (LeptonObject (before ++ (key, schema) :: after) isStrict) (VObj props)
     = Throw (LeptonErr (mkError (message e) (key :: path e) (issues e)))).
Proof.
  intros _ Hstrict Hbefore. set (v := VObj props) in *.
  assert (Hfields : forall x,
    (forall res', Object_.parseFields
                    ((key, methodsOf schema)
                       :: map (fun e => let '(k, s) := e in (k, methodsOf s)) after) v res'
                  = Throw x) ->
    parse (LeptonObject (before ++ (key, schema) :: after) isStrict) v = Throw x).
  { intros x Hx. unfold parse. cbn [methodsOf m_parse]. unfold Object_.parse.
    cbn [Object_.isObject v negb]. rewrite Object_extraKeys_entries.
    assert (Hno : isStrict
                  && negb (List.length (Object_.extraKeys (before ++ (key, schema) :: after) v)
                           =? 0)%nat = false).
    { destruct Hstrict as [-> | ->]; [reflexivity|apply andb_false_r]. }
    rewrite Hno, map_app. cbn [map].
    apply Object_parseFields_skip; [|exact Hx].
    rewrite Forall_forall in Hbefore. apply Forall_forall. intros [k m] Hin.
    apply in_map_iff in Hin. destruct Hin as ([k0 s] & Heq & Hin). inversion Heq; subst.
    specialize (Hbefore (k, s) Hin). cbn [fst snd] in *.
    unfold hasProperty, getProperty, v. cbn [getOwnProperty].
    destruct (lookup k props); exact Hbefore. }
  split.
  - intros Habsent Hrequired. apply Hfields. intros res'.
    cbn [Object_.parseFields]. unfold hasProperty, v. cbn [getOwnProperty].
    rewrite Habsent, Hrequired. reflexivity.
  - intros x e Hpresent Hrefused. apply Hfields. intros res'.
    cbn [Object_.parseFields]. unfold hasProperty, getProperty, v. cbn [getOwnProperty].
    rewrite Hpresent. cbn [negb andb].
    unfold parse in Hrefused. rewrite Hrefused. reflexivity.
Qed.

Lemma object_first_failure_witness :
  let v := VObj [(js "id", VNum (NInt 1)); (js "name", VNum (NInt 2))] in
  parse (object [(js "id", uint8); (js "name", LeptonString); (js "age", uint8)]) v
    = Throw (LeptonErr (mkError (js "Expected string, got number") [js "name"]
                          [mkIssue [] (js "Expected string, got number")])) /\
  parse (object [(js "id", uint8); (js "age", uint8); (js "name", LeptonString)]) v
    = throwLepton (js "Missing required property: age").
Proof.
  assert (Hb : Forall (fun e => match lookup (fst e)
                                        [(js "id", VNum (NInt 1)); (js "name", VNum (NInt 2))]
                                with
                                | Some x => exists y, parse (snd e) x = Ok y
                                | None => m_isOptional (methodsOf (snd e)) = true
                                end) [(js "id", uint8)]).
  { repeat constructor. cbn. eexists. reflexivity. }
  split.
  - exact (proj2 (object_first_failure [(js "id", uint8)] [(js "age", uint8)]
                    (js "name") LeptonString false
                    [(js "id", VNum (NInt 1)); (js "name", VNum (NInt 2))]
                    eq_refl (or_introl eq_refl) Hb)
                 (VNum (NInt 2))
                 (LeptonError_create (js "Expected string, got number")) eq_refl eq_refl).
  - exact (proj1 (object_first_failure [(js "id", uint8)] [(js "name", LeptonString)]
                    (js "age") uint8 false
                    [(js "id", VNum (NInt 1)); (js "name", VNum (NInt 2))]
                    eq_refl (or_introl eq_refl) Hb)
                 eq_refl eq_refl).
Defined.

(** X22.  Strictness is checked before any field: a strict object given a
    key its shape does not declare is refused with the list of those keys,
    whatever the declared fields hold, even when they are missing or
    invalid.  The keys are the own keys of the input, and a key counts as
    declared when [key in shape] holds, which it does also for the names
    the shape inherits from Object.prototype: a property [constructor] of
    the input passes the check. *)
Theorem strict_check_comes_first (shape : list (jsstring * LeptonType)) (v : Value) :
  Object_.isObject v = true ->
  Object_.extraKeys shape v <> [] ->
  parse (LeptonObject shape true) v
    = throwLepton (js "Unrecognized key(s) in object: "
                   ++ join (js ", ") (Object_.extraKeys shape v)).
Proof.
  intros Hobj Hextra. unfold parse. cbn [methodsOf m_parse]. unfold Object_.parse.
  rewrite Hobj. cbn [negb andb]. rewrite Object_extraKeys_entries.
  destruct (Object_.extraKeys shape v); [congruence|reflexivity].
Qed.

Lemma strict_check_comes_first_witness :
  parse (LeptonObject [(js "id", uint8); (js "name", LeptonString)] true)
        (VObj [(js "x", VNull); (js "id", VStr (js "one"));
               (js "constructor", VNull); (js "y", VNull)])
    = throwLepton (js "Unrecognized key(s) in object: x, y") /\
  parse (LeptonObject [(js "id", uint8)] true)
        (VObj [(js "id", VNum (NInt 1)); (js "constructor", VNull)])
    = Ok (VObj [(js "id", VNum (NInt 1))]).
Proof.
  split; [|reflexivity].
  apply (strict_check_comes_first [(js "id", uint8); (js "name", LeptonString)]
           (VObj [(js "x", VNull); (js "id", VStr (js "one"));
                  (js "constructor", VNull); (js "y", VNull)]));
    [reflexivity|discriminate].
Defined.

Lemma Object_parseFields_ext v1 v2 : forall (entries : list (jsstring * methods)) res,
  (forall k m, In (k, m) entries -> getOwnProperty v1 k = getOwnProperty v2 k) ->
  Object_.parseFields entries v1 res = Object_.parseFields entries v2 res.
Proof.
  induction entries as [|[k m] entries IH]; intros res Hsame; [reflexivity|].
  cbn [Object_.parseFields]. unfold hasProperty, getProperty.
  rewrite (Hsame k m (or_introl eq_refl)).
  assert (Htail : forall res', Object_.parseFields entries v1 res'
                               = Object_.parseFields entries v2 res').
  { intros res'. apply IH. intros k' m' Hin. apply (Hsame k' m'). now right. }
  destruct (getOwnProperty v2 k); cbn [negb andb].
  - destruct (withPath k (m_parse m v)); cbn [bind]; [apply Htail|reflexivity].
  - destruct (negb (m_isOptional m)); [reflexivity|apply Htail].
Qed.

Lemma lookup_filter_key {A} (f : jsstring -> bool) (props : list (jsstring * A)) key :
  f key = true -> lookup key (filter (fun p => f (fst p)) props) = lookup key props.
Proof.
  intros Hf. induction props as [|[k x] props IH]; [reflexivity|].
  cbn [filter fst]. destruct (f k) eqn:Hk.
  - cbn [lookup]. destruct (jsstring_eqb k key); [reflexivity|exact IH].
  - cbn [lookup]. destruct (jsstring_eqb k key) eqn:E; [|exact IH].
    apply jsstring_eqb_eq in E. congruence.
Qed.

(** X23.  An object that is not strict is validated on its declared keys
    only: the outcome is the same with the undeclared properties of the
    input removed. *)
Theorem nonstrict_ignores_undeclared (shape : list (jsstring * LeptonType))
  (props : list (jsstring * Value)) :
  parse (LeptonObject shape false) (VObj props)
    = parse (LeptonObject shape false)
        (VObj (filter (fun p => match lookup (fst p) shape with
                                | Some _ => true
                                | None => false
                                end) props)).
Proof.
  unfold parse. cbn [methodsOf m_parse]. unfold Object_.parse.
  cbn [Object_.isObject negb andb].
  apply Object_parseFields_ext. intros k m Hin. cbn [getOwnProperty].
  symmetry.
  apply (lookup_filter_key
           (fun key => match lookup key shape with Some _ => true | None => false end)).
  destruct (lookup k shape) eqn:Hl; [reflexivity|].
  exfalso. apply lookup_None_keys in Hl. apply Hl.
  rewrite <- (entries_keys methodsOf shape).
  change k with (fst (k, m)). now apply in_map.
Qed.

(** X24.  The object that validation returns for a plain object has the
    declared keys that the input has as own properties, and no other; under
    each it holds what the field's schema returned for the input's value.
    (The field names are distinct and none is a name that a plain object
    inherits.) *)
Theorem object_result_fields (shape : list (jsstring * LeptonType)) (isStrict : bool)
  (props : list (jsstring * Value)) (v' : Value) :
  uniqueKeys shape = true -> plainKeys shape = true ->
  parse (LeptonObject shape isStrict) (VObj props) = Ok v' ->
  exists props',
    v' = VObj props' /\
    (forall key, lookup key props' <> None
                 <-> lookup key shape <> None /\ lookup key props <> None) /\
    (forall key schema x,
        lookup key shape = Some schema -> lookup key props = Some x ->
        exists y, parse schema x = Ok y /\ lookup key props' = Some y).
Proof.
  intros Hu _ Hparse. unfold parse in Hparse. cbn [methodsOf m_parse] in Hparse.
  unfold Object_.parse in Hparse. cbn [Object_.isObject negb] in Hparse.
  destruct (isStrict && _); [discriminate|].
  set (entries := map (fun e => let '(key, schema) := e in (key, methodsOf schema)) shape)
    in *.
  assert (Hue : uniqueKeys entries = true).
  { eapply uniqueKeys_same_keys; [apply entries_keys|exact Hu]. }
  destruct (Object_parseFields_spec (VObj props) entries [] v' Hue Hparse)
    as ((props' & -> & Hlookup) & Hfields).
  exists props'. split; [reflexivity|]. split.
  - intros key. rewrite Hlookup. unfold entries. rewrite lookup_entries.
    unfold hasProperty. cbn [getOwnProperty lookup].
    destruct (lookup key shape); cbn [option_map];
      [destruct (lookup key props)|]; split; try tauto; try (intros [? ?]; congruence);
      intros _; split; discriminate.
  - intros key schema x Hkey Hx.
    assert (Hin : In (key, methodsOf schema) entries).
    { apply lookup_Some_In. unfold entries. rewrite lookup_entries, Hkey. reflexivity. }
    rewrite Forall_forall in Hfields. specialize (Hfields _ Hin). cbn [fst snd] in Hfields.
    unfold hasProperty, getProperty in Hfields. cbn [getOwnProperty] in Hfields.
    rewrite Hx in Hfields.
    destruct Hfields as [[_ [y Hy]]|[Habs _]]; [|discriminate].
    exists y. split; [exact Hy|].
    rewrite Hlookup. unfold entries. rewrite lookup_entries, Hkey. cbn [option_map].
    unfold hasProperty, fieldResult, getProperty. cbn [getOwnProperty].
    rewrite Hx, Hy. reflexivity.
Qed.

Lemma object_result_fields_witness :
  let shape := [(js "id", uint8); (js "on", LeptonOptional LeptonBoolean)] in
  let props := [(js "zz", VNull); (js "id", VNum (NInt 1))] in
  parse (LeptonObject shape false) (VObj props) = Ok (VObj [(js "id", VNum (NInt 1))]) /\
  exists props',
    VObj [(js "id", VNum (NInt 1))] = VObj props' /\
    (forall key, lookup key props' <> None
                 <-> lookup key shape <> None /\ lookup key props <> None) /\
    (forall key schema x,
        lookup key shape = Some schema -> lookup key props = Some x ->
        exists y, parse schema x = Ok y /\ lookup key props' = Some y).
Proof.
  cbv zeta. split; [reflexivity|].
  exact (object_result_fields
           [(js "id", uint8); (js "on", LeptonOptional LeptonBoolean)] false
           [(js "zz", VNull); (js "id", VNum (NInt 1))]
           (VObj [(js "id", VNum (NInt 1))]) eq_refl eq_refl eq_refl).
Defined.

Lemma Optional_parse_extends (s : LeptonType) x y :
  m_parse (methodsOf s) x = Ok y -> Optional.parse (methodsOf s) x = Ok y.
Proof.
  intros Hy. destruct (parse_keeps_markers s x y Hy) as [Hundef _].
  destruct x; try exact Hy. cbn [Optional.parse]. f_equal. symmetry. now apply Hundef.
Qed.

Lemma Object_parseFields_weaken v : forall (entries entries' : list (jsstring * methods)),
  Forall2 (fun e e' =>
             fst e' = fst e /\
             (forall x y, m_parse (snd e) x = Ok y -> m_parse (snd e') x = Ok y) /\
             (m_isOptional (snd e) = true -> m_isOptional (snd e') = true))
          entries entries' ->
  forall res v',
    Object_.parseFields entries v res = Ok v' ->
    Object_.parseFields entries' v res = Ok v'.
Proof.
  intros entries entries' Hrel.
  induction Hrel as [|[k m] [k' m'] entries entries' (Hk & Hparse & Hopt) _ IH];
    intros res v' H; [exact H|].
  cbn [fst snd] in *. subst k'. cbn [Object_.parseFields] in *.
  destruct (hasProperty k v); cbn [negb andb] in *.
  - destruct (m_parse m (getProperty v k)) as [y|[e|]] eqn:Hy; try discriminate.
    rewrite (Hparse _ _ Hy). cbn [withPath bind] in *. exact (IH _ _ H).
  - destruct (m_isOptional m); [|discriminate].
    rewrite (Hopt eq_refl). cbn [negb] in *. exact (IH _ _ H).
Qed.

Lemma partial_entries (shape : list (jsstring * LeptonType)) :
  Forall2 (fun e e' =>
             fst e' = fst e /\
             (forall x y, m_parse (snd e) x = Ok y -> m_parse (snd e') x = Ok y) /\
             (m_isOptional (snd e) = true -> m_isOptional (snd e') = true))
    (map (fun e => let '(key, schema) := e in (key, methodsOf schema)) shape)
    (map (fun e => let '(key, schema) := e in (key, methodsOf schema))
       (map (fun e => match snd e with
                      | LeptonOptional _ => e
                      | schema => (fst e, LeptonOptional schema)
                      end) shape)).
Proof.
  induction shape as [|[k s] shape IH]; [constructor|].
  cbn [map fst snd]. constructor; [|exact IH].
  destruct s; cbn [fst snd];
    (split; [reflexivity|split; [|reflexivity || tauto]]);
    intros x y Hy; try exact Hy;
    match goal with
    | |- m_parse (methodsOf (LeptonOptional ?s)) _ = _ =>
        exact (Optional_parse_extends s x y Hy)
    end.
Qed.

Lemma partial_all_optional (shape : list (jsstring * LeptonType)) :
  Forall (fun e => m_isOptional (snd e) = true)
    (map (fun e => let '(key, schema) := e in (key, methodsOf schema))
       (map (fun e => match snd e with
                      | LeptonOptional _ => e
                      | schema => (fst e, LeptonOptional schema)
                      end) shape)).
Proof.
  induction shape as [|[k s] shape IH]; [constructor|].
  cbn [map fst snd]. constructor; [|exact IH]. destruct s; reflexivity.
Qed.

Lemma Object_parseFields_absent : forall (entries : list (jsstring * methods)) res,
  Forall (fun e => m_isOptional (snd e) = true) entries ->
  Object_.parseFields entries (VObj []) res = Ok (VObj res).
Proof.
  induction entries as [|[k m] entries IH]; intros res Hall; [reflexivity|].
  inversion Hall as [|? ? Hm Hrest]; subst. cbn [snd] in Hm.
  cbn [Object_.parseFields]. rewrite Hm.
  change (hasProperty k (VObj [])) with false. cbn [negb andb]. exact (IH _ Hrest).
Qed.

Lemma partial_keys (shape : list (jsstring * LeptonType)) :
  map fst (map (fun e => match snd e with
                         | LeptonOptional _ => e
                         | schema => (fst e, LeptonOptional schema)
                         end) shape) = map fst shape.
Proof.
  induction shape as [|[k s] shape IH]; [reflexivity|].
  cbn [map fst snd]. f_equal; [destruct s; reflexivity|exact IH].
Qed.

Lemma Object_extraKeys_same_keys {A B} (shape : list (jsstring * A))
  (shape' : list (jsstring * B)) v :
  map fst shape' = map fst shape -> Object_.extraKeys shape' v = Object_.extraKeys shape v.
Proof.
  intros Hkeys. unfold Object_.extraKeys, inShape. apply filter_ext. intros key.
  destruct (lookup key shape') eqn:H'; destruct (lookup key shape) eqn:H; try reflexivity.
  - apply lookup_None_keys in H. exfalso. apply H. rewrite <- Hkeys.
    apply lookup_Some_In in H'. change key with (fst (key, b)). now apply in_map.
  - apply lookup_None_keys in H'. exfalso. apply H'. rewrite Hkeys.
    apply lookup_Some_In in H. change key with (fst (key, a)). now apply in_map.
Qed.

(** X25.  [partial] gives a schema that accepts every plain object that
    the receiver accepts, with the same result, and that accepts the empty
    object.  (No field name of the receiver is a name that a plain object
    inherits.) *)
Theorem partial_accepts_more (shape : list (jsstring * LeptonType)) (isStrict : bool)
  (props : list (jsstring * Value)) (v' : Value) :
  plainKeys shape = true ->
  parse (LeptonObject shape isStrict) (VObj props) = Ok v' ->
  parse (Object_.partial shape isStrict) (VObj props) = Ok v' /\
  parse (Object_.partial shape isStrict) (VObj []) = Ok (VObj []).
Proof.
  intros _ Hparse. unfold Object_.partial, parse in *. cbn [methodsOf m_parse] in *.
  unfold Object_.parse in *. split.
  - cbn [Object_.isObject negb] in *.
    rewrite Object_extraKeys_entries in *.
    rewrite (Object_extraKeys_same_keys shape _ (VObj props) (partial_keys shape)).
    destruct (isStrict && _); [discriminate|].
    exact (Object_parseFields_weaken (VObj props) _ _ (partial_entries shape) _ _ Hparse).
  - cbn [Object_.isObject negb]. unfold Object_.extraKeys.
    cbn [objectKeys map filter List.length Nat.eqb negb]. rewrite andb_false_r.
    apply Object_parseFields_absent, partial_all_optional.
Qed.

Lemma partial_accepts_more_witness :
  parse (LeptonObject [(js "id", uint8)] true) (VObj [(js "id", VNum (NInt 1))])
    = Ok (VObj [(js "id", VNum (NInt 1))]) /\
  parse (Object_.partial [(js "id", uint8)] true) (VObj [(js "id", VNum (NInt 1))])
    = Ok (VObj [(js "id", VNum (NInt 1))]) /\
  parse (Object_.partial [(js "id", uint8)] true) (VObj []) = Ok (VObj []).
Proof.
  split; [reflexivity|].
  exact (partial_accepts_more [(js "id", uint8)] true
           [(js "id", VNum (NInt 1))] (VObj [(js "id", VNum (NInt 1))]) eq_refl eq_refl).
Defined.

(* ================================================================== *)
(** * More on primitive/object.ts: the derived schemas *)
(* ================================================================== *)

Lemma jsstring_eqb_sym a b : jsstring_eqb a b = jsstring_eqb b a.
Proof.
  destruct (jsstring_eqb a b) eqn:E; symmetry.
  - apply jsstring_eqb_eq in E. subst. apply jsstring_eqb_refl.
  - apply jsstring_eqb_neq in E. apply jsstring_eqb_neq. congruence.
Qed.

Lemma uniqueKeys_assign {A} (props : list (jsstring * A)) k x :
  uniqueKeys props = true -> uniqueKeys (assign props k x) = true.
Proof.
  induction props as [|[k0 x0] props IH]; intros Hu; [reflexivity|].
  cbn [uniqueKeys] in Hu. destruct (lookup k0 props) eqn:Hl; [discriminate|].
  cbn [assign]. destruct (jsstring_eqb k0 k) eqn:E.
  - cbn [uniqueKeys]. rewrite Hl. exact Hu.
  - cbn [uniqueKeys]. rewrite lookup_assign, jsstring_eqb_sym, E, Hl. exact (IH Hu).
Qed.

Lemma uniqueKeys_insertIndexed {A} (props : list (jsstring * A)) i k x :
  lookup k props = None ->
  uniqueKeys props = true -> uniqueKeys (insertIndexed props i k x) = true.
Proof.
  induction props as [|[k0 x0] props IH]; intros Hnew Hu; [reflexivity|].
  assert (Hall : uniqueKeys ((k, x) :: (k0, x0) :: props) = true).
  { cbn [uniqueKeys] in *. cbn [lookup] in *.
    destruct (jsstring_eqb k0 k); [discriminate|]. now rewrite Hnew. }
  cbn [insertIndexed].
  destruct (asArrayIndex k0) as [j|]; [destruct (j <? i)|]; try exact Hall.
  cbn [lookup] in Hnew. destruct (jsstring_eqb k0 k) eqn:E; [discriminate|].
  cbn [uniqueKeys] in *. destruct (lookup k0 props) eqn:Hl; [discriminate|].
  rewrite lookup_insertIndexed by exact Hnew.
  rewrite jsstring_eqb_sym, E, Hl. exact (IH Hnew Hu).
Qed.

Lemma uniqueKeys_setProperty {A} (props : list (jsstring * A)) k x :
  uniqueKeys props = true -> uniqueKeys (setProperty props k x) = true.
Proof.
  intros Hu. unfold setProperty.
  destruct (asArrayIndex k) as [i|]; [destruct (lookup k props) eqn:Hk|];
    try (now apply uniqueKeys_assign).
  now apply uniqueKeys_insertIndexed.
Qed.

Lemma uniqueKeys_mergeShapes {A} (second : list (jsstring * A)) : forall first,
  uniqueKeys first = true -> uniqueKeys (Object_.mergeShapes first second) = true.
Proof.
  unfold Object_.mergeShapes.
  induction second as [|[k x] second IH]; intros first Hu; [exact Hu|].
  cbn [fold_left fst snd]. apply IH. now apply uniqueKeys_setProperty.
Qed.

(** A key that is not an array index goes to the end when it is new. *)
Lemma keys_assign_order {A} (props : list (jsstring * A)) k x :
  map fst (assign props k x)
    = map fst props ++ match lookup k props with Some _ => [] | None => [k] end.
Proof.
  induction props as [|[k0 x0] props IH]; [reflexivity|].
  cbn [assign lookup]. destruct (jsstring_eqb k0 k) eqn:E.
  - cbn [map fst]. now rewrite app_nil_r.
  - cbn [map fst app]. now rewrite IH.
Qed.

Lemma setProperty_named {A} (props : list (jsstring * A)) k x :
  asArrayIndex k = None -> setProperty props k x = assign props k x.
Proof. intros Hk. unfold setProperty. now rewrite Hk. Qed.

Lemma keys_mergeShapes_order {A} (second : list (jsstring * A)) : forall first,
  uniqueKeys second = true ->
  Forall (fun e => asArrayIndex (fst e) = None) second ->
  map fst (Object_.mergeShapes first second)
    = map fst first
      ++ filter (fun k => match lookup k first with Some _ => false | None => true end)
                (map fst second).
Proof.
  unfold Object_.mergeShapes.
  induction second as [|[k x] second IH]; intros first Hu Hnamed.
  - cbn [fold_left map filter]. now rewrite app_nil_r.
  - inversion Hnamed as [|? ? Hk Hrest]; subst. cbn [fst] in Hk.
    cbn [uniqueKeys] in Hu. destruct (lookup k second) eqn:Hnew; [discriminate|].
    cbn [fold_left fst snd map]. rewrite (IH _ Hu Hrest).
    rewrite setProperty_named by exact Hk. rewrite keys_assign_order.
    assert (Hsame : filter (fun k' => match lookup k' (assign first k x) with
                                      | Some _ => false
                                      | None => true
                                      end) (map fst second)
                    = filter (fun k' => match lookup k' first with
                                        | Some _ => false
                                        | None => true
                                        end) (map fst second)).
    { apply filter_ext_in. intros k' Hin. rewrite lookup_assign.
      destruct (jsstring_eqb k k') eqn:E; [|reflexivity].
      apply jsstring_eqb_eq in E. subst k'.
      apply lookup_None_keys in Hnew. contradiction. }
    rewrite Hsame. cbn [filter].
    destruct (lookup k first); cbn [app]; [now rewrite app_nil_r|].
    now rewrite <- app_assoc.
Qed.

(** X26.  [extend] and [merge] build the same shape, that of the spread
    [{...first, ...second}]: a field declared on both sides takes the schema
    of the argument and keeps its place, every other field keeps its own
    schema; field names stay distinct.  In the order of the fields, the new
    fields of the argument come after those of the receiver, in their
    order, when their names are not array indices; a new field whose name
    is an array index goes among the array indices, which an object
    enumerates first, in ascending order.  [extend] keeps the strictness
    of the receiver, [merge] is strict when either side is. *)
Theorem extend_merge_override (shape added : list (jsstring * LeptonType))
  (isStrict isStrict' : bool) (key : jsstring) :
  uniqueKeys added = true ->
  lookup key (shapeOf (Object_.extend shape isStrict added))
    = match lookup key added with
      | Some schema => Some schema
      | None => lookup key shape
      end /\
  shapeOf (Object_.merge shape isStrict added isStrict')
    = shapeOf (Object_.extend shape isStrict added) /\
  isStrictOf (Object_.extend shape isStrict added) = isStrict /\
  isStrictOf (Object_.merge shape isStrict added isStrict') = isStrict || isStrict' /\
  (uniqueKeys shape = true ->
   uniqueKeys (shapeOf (Object_.extend shape isStrict added)) = true) /\
  (Forall (fun e => asArrayIndex (fst e) = None) added ->
   map fst (shapeOf (Object_.extend shape isStrict added))
     = map fst shape
       ++ filter (fun k => match lookup k shape with Some _ => false | None => true end)
                 (map fst added)).
Proof.
  intros Hadded. cbn [Object_.extend Object_.merge shapeOf isStrictOf].
  split; [now apply lookup_mergeShapes|].
  split; [reflexivity|]. split; [reflexivity|]. split; [reflexivity|].
  split; [apply uniqueKeys_mergeShapes|].
  now apply keys_mergeShapes_order.
Qed.

Lemma extend_merge_override_witness :
  shapeOf (Object_.extend [(js "a", uint8); (js "b", uint8)] true
             [(js "b", LeptonString); (js "c", LeptonBoolean)])
    = [(js "a", uint8); (js "b", LeptonString); (js "c", LeptonBoolean)] /\
  lookup (js "b")
    (shapeOf (Object_.extend [(js "a", uint8); (js "b", uint8)] true
                [(js "b", LeptonString); (js "c", LeptonBoolean)]))
    = Some LeptonString /\
  map fst (shapeOf (Object_.extend [(js "10", uint8); (js "b", uint8)] true
                      [(js "c", LeptonBoolean); (js "2", LeptonString)]))
    = [js "2"; js "10"; js "b"; js "c"].
Proof.
  split; [reflexivity|]. split; [|reflexivity].
  exact (proj1 (extend_merge_override [(js "a", uint8); (js "b", uint8)]
                  [(js "b", LeptonString); (js "c", LeptonBoolean)] true false (js "b")
                  eq_refl)).
Defined.

Lemma pick_shape (shape : list (jsstring * LeptonType)) isStrict keys picked :
  Object_.pick shape isStrict keys = Some picked ->
  picked = LeptonObject
             (fold_left (fun newShape key =>
                           match lookup key shape with
                           | Some schema => setProperty newShape key schema
                           | None => newShape
                           end) keys [])
             isStrict.
Proof.
  unfold Object_.pick. destruct (existsb _ keys); [discriminate|]. congruence.
Qed.

Lemma lookup_pick (shape : list (jsstring * LeptonType)) key : forall keys newShape,
  lookup key
    (fold_left (fun newShape key =>
                  match lookup key shape with
                  | Some schema => setProperty newShape key schema
                  | None => newShape
                  end) keys newShape)
    = if existsb (jsstring_eqb key) keys
      then match lookup key shape with
           | Some schema => Some schema
           | None => lookup key newShape
           end
      else lookup key newShape.
Proof.
  induction keys as [|k keys IH]; intros newShape; [reflexivity|].
  cbn [fold_left existsb]. rewrite IH.
  destruct (jsstring_eqb key k) eqn:E; cbn [orb].
  - apply jsstring_eqb_eq in E. subst k.
    destruct (lookup key shape) eqn:Hl.
    + rewrite lookup_setProperty, jsstring_eqb_refl.
      destruct (existsb _ keys); reflexivity.
    + destruct (existsb _ keys); reflexivity.
  - assert (Hsame : lookup key match lookup k shape with
                               | Some schema => setProperty newShape k schema
                               | None => newShape
                               end = lookup key newShape).
    { destruct (lookup k shape); [|reflexivity].
      now rewrite lookup_setProperty, jsstring_eqb_sym, E. }
    rewrite Hsame. reflexivity.
Qed.

Lemma uniqueKeys_pick (shape : list (jsstring * LeptonType)) : forall keys newShape,
  uniqueKeys newShape = true ->
  uniqueKeys
    (fold_left (fun newShape key =>
                  match lookup key shape with
                  | Some schema => setProperty newShape key schema
                  | None => newShape
                  end) keys newShape) = true.
Proof.
  induction keys as [|k keys IH]; intros newShape Hu; [exact Hu|].
  cbn [fold_left]. apply IH.
  destruct (lookup k shape); [now apply uniqueKeys_setProperty|exact Hu].
Qed.

(** The fields [pick] keeps come in the order of the request. *)
Lemma keys_pick_order (shape : list (jsstring * LeptonType)) : forall keys newShape,
  NoDup keys -> Forall (fun key => asArrayIndex key = None) keys ->
  (forall key, In key keys -> lookup key newShape = None) ->
  map fst
    (fold_left (fun newShape key =>
                  match lookup key shape with
                  | Some schema => setProperty newShape key schema
                  | None => newShape
                  end) keys newShape)
    = map fst newShape
      ++ filter (fun key => match lookup key shape with Some _ => true | None => false end)
                keys.
Proof.
  induction keys as [|k keys IH]; intros newShape Hnodup Hnamed Hfresh.
  - cbn [fold_left filter]. now rewrite app_nil_r.
  - inversion Hnodup as [|? ? Hk Hnodup']; subst.
    inversion Hnamed as [|? ? Hname Hnamed']; subst.
    cbn [fold_left filter].
    destruct (lookup k shape) as [schema|] eqn:Hl.
    + rewrite IH; [|exact Hnodup'|exact Hnamed'|].
      * rewrite setProperty_named by exact Hname. rewrite keys_assign_order.
        rewrite (Hfresh k (or_introl eq_refl)). now rewrite <- app_assoc.
      * intros key Hin. rewrite lookup_setProperty.
        destruct (jsstring_eqb k key) eqn:E.
        -- apply jsstring_eqb_eq in E. subst key. contradiction.
        -- apply Hfresh. now right.
    + apply IH; [exact Hnodup'|exact Hnamed'|]. intros key Hin. apply Hfresh. now right.
Qed.

Lemma lookup_filter_out {A} (f : jsstring -> bool) (props : list (jsstring * A)) key :
  f key = false -> lookup key (filter (fun p => f (fst p)) props) = None.
Proof.
  intros Hf. induction props as [|[k x] props IH]; [reflexivity|].
  cbn [filter fst]. destruct (f k) eqn:Hk; [|exact IH].
  cbn [lookup]. destruct (jsstring_eqb k key) eqn:E; [|exact IH].
  apply jsstring_eqb_eq in E. congruence.
Qed.

Lemma lookup_filter_None {A} (g : jsstring * A -> bool) (props : list (jsstring * A)) key :
  lookup key props = None -> lookup key (filter g props) = None.
Proof.
  induction props as [|[k x] props IH]; [reflexivity|].
  cbn [lookup filter]. destruct (jsstring_eqb k key) eqn:E; [discriminate|].
  intros Hl. destruct (g (k, x)); [|exact (IH Hl)].
  cbn [lookup]. rewrite E. exact (IH Hl).
Qed.

Lemma uniqueKeys_filter {A} (g : jsstring * A -> bool) (props : list (jsstring * A)) :
  uniqueKeys props = true -> uniqueKeys (filter g props) = true.
Proof.
  induction props as [|[k x] props IH]; [reflexivity|].
  cbn [uniqueKeys filter]. destruct (lookup k props) eqn:Hl; [discriminate|].
  intros Hu. destruct (g (k, x)); [|exact (IH Hu)].
  cbn [uniqueKeys]. rewrite (lookup_filter_None g props k Hl). exact (IH Hu).
Qed.

Lemma keys_filter {A} (f : jsstring -> bool) (props : list (jsstring * A)) :
  map fst (filter (fun e => f (fst e)) props) = filter f (map fst props).
Proof.
  induction props as [|[k x] props IH]; [reflexivity|].
  cbn [filter map fst]. destruct (f k); cbn [map fst]; now rewrite IH.
Qed.

(** X27.  [pick] and [omit] split a shape whose field names no plain object
    inherits: when the request names no key that the shape only inherits,
    [pick] keeps the fields whose name is requested and that the receiver
    has, [omit] keeps the others; each kept field has the schema it had.
    Both keep the strictness of the receiver and distinct field names.
    [omit] keeps the order of the receiver; [pick] has its fields in the
    order of the request, when the request names no key twice and no array
    index. *)
Theorem pick_omit_split (shape : list (jsstring * LeptonType)) (isStrict : bool)
  (keys : list jsstring) (key : jsstring) (picked : LeptonType) :
  plainKeys shape = true ->
  Object_.pick shape isStrict keys = Some picked ->
  lookup key (shapeOf picked)
    = (if existsb (jsstring_eqb key) keys then lookup key shape else None) /\
  lookup key (shapeOf (Object_.omit shape isStrict keys))
    = (if existsb (jsstring_eqb key) keys then None else lookup key shape) /\
  isStrictOf picked = isStrict /\
  isStrictOf (Object_.omit shape isStrict keys) = isStrict /\
  uniqueKeys (shapeOf picked) = true /\
  (uniqueKeys shape = true ->
   uniqueKeys (shapeOf (Object_.omit shape isStrict keys)) = true) /\
  map fst (shapeOf (Object_.omit shape isStrict keys))
    = filter (fun k => negb (existsb (jsstring_eqb k) keys)) (map fst shape) /\
  (NoDup keys -> Forall (fun k => asArrayIndex k = None) keys ->
   map fst (shapeOf picked)
     = filter (fun k => match lookup k shape with Some _ => true | None => false end) keys).
Proof.
  intros _ Hpick. apply pick_shape in Hpick. subst picked.
  cbn [Object_.omit shapeOf isStrictOf].
  split; [|split; [|split; [reflexivity|split; [reflexivity|split; [|split; [|split]]]]]].
  - rewrite lookup_pick. cbn [lookup].
    destruct (existsb _ keys); [|reflexivity]. destruct (lookup key shape); reflexivity.
  - destruct (existsb (jsstring_eqb key) keys) eqn:E.
    + apply (lookup_filter_out (fun k => negb (existsb (jsstring_eqb k) keys))).
      now rewrite E.
    + apply (lookup_filter_key (fun k => negb (existsb (jsstring_eqb k) keys))).
      now rewrite E.
  - now apply uniqueKeys_pick.
  - apply uniqueKeys_filter.
  - apply (keys_filter (fun k => negb (existsb (jsstring_eqb k) keys))).
  - intros Hnodup Hnamed. rewrite keys_pick_order; try assumption; reflexivity.
Qed.

Lemma pick_omit_split_witness :
  let shape := [(js "id", uint8); (js "name", LeptonString); (js "on", LeptonBoolean)] in
  Object_.pick shape true [js "on"; js "zz"; js "id"]
    = Some (LeptonObject [(js "on", LeptonBoolean); (js "id", uint8)] true) /\
  Object_.omit shape true [js "on"; js "zz"; js "id"]
    = LeptonObject [(js "name", LeptonString)] true /\
  Object_.pick shape true [js "id"; js "toString"] = None /\
  lookup (js "id") [(js "on", LeptonBoolean); (js "id", uint8)] = Some uint8.
Proof.
  cbv zeta. split; [reflexivity|]. split; [reflexivity|]. split; [reflexivity|].
  exact (proj1 (pick_omit_split
                  [(js "id", uint8); (js "name", LeptonString); (js "on", LeptonBoolean)]
                  true [js "on"; js "zz"; js "id"] (js "id")
                  (LeptonObject [(js "on", LeptonBoolean); (js "id", uint8)] true)
                  eq_refl eq_refl)).
Defined.

(* ================================================================== *)
(** * Validation, encoding and decoding together *)
(* ================================================================== *)

Lemma Nullable_parse_extends (s : LeptonType) x y :
  m_parse (methodsOf s) x = Ok y -> Nullable.parse (methodsOf s) x = Ok y.
Proof.
  intros Hy. destruct (parse_keeps_markers s x y Hy) as [_ Hnull].
  destruct x; try exact Hy. cbn [Nullable.parse]. f_equal. symmetry. now apply Hnull.
Qed.

Lemma Object_parseFields_cong v1 v2 : forall (entries : list (jsstring * methods)) res,
  (forall k m, In (k, m) entries ->
     hasProperty k v2 = hasProperty k v1 /\
     (hasProperty k v1 = true ->
      m_parse m (getProperty v2 k) = m_parse m (getProperty v1 k))) ->
  Object_.parseFields entries v2 res = Object_.parseFields entries v1 res.
Proof.
  induction entries as [|[k m] entries IH]; intros res Hsame; [reflexivity|].
  cbn [Object_.parseFields].
  destruct (Hsame k m (or_introl eq_refl)) as [Hhas Hparse]. rewrite Hhas.
  assert (Htail : forall res', Object_.parseFields entries v2 res'
                               = Object_.parseFields entries v1 res').
  { intros res'. apply IH. intros k' m' Hin. apply (Hsame k' m'). now right. }
  destruct (hasProperty k v1); cbn [negb andb].
  - rewrite (Hparse eq_refl).
    destruct (withPath k (m_parse m (getProperty v1 k))); cbn [bind];
      [apply Htail|reflexivity].
  - destruct (negb (m_isOptional m)); [reflexivity|apply Htail].
Qed.

Lemma Array_parseFrom_fixed m : forall vs i,
  Forall (fun y => m_parse m y = Ok y) vs -> Array.parseFrom m i vs = Ok vs.
Proof.
  induction vs as [|y vs IH]; intros i Hall; [reflexivity|].
  inversion Hall as [|? ? Hy Hrest]; subst.
  cbn [Array.parseFrom]. rewrite Hy. cbn [withPath bind]. rewrite (IH _ Hrest). reflexivity.
Qed.

(** What validation returns for an object, field by field. *)
Lemma Object_parse_result (shape : list (jsstring * LeptonType)) isStrict v v' :
  uniqueKeys shape = true ->
  parse (LeptonObject shape isStrict) v = Ok v' ->
  Object_.isObject v = true /\
  exists props',
    v' = VObj props' /\
    (forall key, lookup key props' <> None -> lookup key shape <> None) /\
    forall k s, In (k, s) shape ->
      (hasProperty k v = true /\ hasProperty k v' = true /\
       parse s (getProperty v k) = Ok (getProperty v' k)) \/
      (hasProperty k v = false /\ hasProperty k v' = false /\
       m_isOptional (methodsOf s) = true).
Proof.
  intros Hu Hparse. unfold parse in Hparse. cbn [methodsOf m_parse] in Hparse.
  unfold Object_.parse in Hparse.
  destruct (Object_.isObject v); cbn [negb] in Hparse; [|discriminate].
  destruct (isStrict && _); [discriminate|].
  set (entries := map (fun e => let '(key, schema) := e in (key, methodsOf schema)) shape)
    in *.
  assert (Hue : uniqueKeys entries = true).
  { eapply uniqueKeys_same_keys; [apply entries_keys|exact Hu]. }
  destruct (Object_parseFields_spec v entries [] v' Hue Hparse)
    as ((props' & -> & Hlookup) & Hfields).
  split; [reflexivity|]. exists props'. split; [reflexivity|]. split.
  - intros key Hsome Hnone. apply Hsome. rewrite Hlookup.
    unfold entries. rewrite lookup_entries, Hnone. reflexivity.
  - intros k s Hin.
    assert (Hls : lookup k shape = Some s) by (now apply lookup_In_unique).
    assert (Hle : lookup k entries = Some (methodsOf s))
      by (unfold entries; rewrite lookup_entries, Hls; reflexivity).
    assert (Hine : In (k, methodsOf s) entries) by (now apply lookup_Some_In).
    rewrite Forall_forall in Hfields. specialize (Hfields _ Hine). cbn [fst snd] in Hfields.
    unfold hasProperty at 2 4. unfold getProperty at 2. cbn [getOwnProperty].
    rewrite Hlookup, Hle.
    destruct Hfields as [[Hhas [y Hy]]|[Habs Hopt]].
    + left. rewrite Hhas. split; [reflexivity|]. split; [reflexivity|].
      unfold parse, fieldResult. rewrite Hy. reflexivity.
    + right. rewrite Habs. cbn [lookup]. auto.
Qed.

Lemma forallNodes_impl (p q : LeptonType -> bool) :
  (forall node, p node = true -> q node = true) ->
  forall t, forallNodes p t = true -> forallNodes q t = true.
Proof.
  intros Hpq.
  induction t as [w|w|b| | | |values|shape isStrict IH|w IH|w IH|e IH| | |enumObject]
    using LeptonType_nested_ind;
    cbn [forallNodes]; intros H; apply andb_true_iff in H; destruct H as [Hp H];
    apply andb_true_iff; (split; [now apply Hpq|]); try reflexivity; try (now apply IH).
  rewrite forallb_forall in H. apply forallb_forall. intros [k s] Hin.
  rewrite Forall_forall in IH. exact (IH (k, s) Hin (H (k, s) Hin)).
Qed.

Lemma NativeEnum_coerce_idempotent enumObject v :
  NativeEnum.coerce enumObject (NativeEnum.coerce enumObject v)
    = NativeEnum.coerce enumObject v.
Proof.
  destruct v; try reflexivity. cbn [NativeEnum.coerce].
  destruct (_ && _) eqn:E; [reflexivity|]. cbn [NativeEnum.coerce]. now rewrite E.
Qed.

(** Validation is idempotent on the values as modelled. *)
Lemma parse_fixed : forall (t : LeptonType) (v v' : Value),
  distinctFields t = true ->
  forallNodes (fun node => negb (isFloat node)) t = true ->
  parse t v = Ok v' -> parse t v' = Ok v'.
Proof.
  induction t as [w|w|b| | | |values|shape isStrict IH|w IH|w IH|e IH| | |enumObject]
    using LeptonType_nested_ind;
    intros v v' Hd Hnodes Hparse; cbn [forallNodes isFloat negb andb] in Hnodes.
  - pose proof Hparse as H0. unfold parse in Hparse. cbn [methodsOf m_parse] in Hparse.
    unfold SignedInt.parse in Hparse.
    destruct (asInteger v); [|discriminate]. destruct (_ || _); [discriminate|].
    inversion Hparse; subst. exact H0.
  - pose proof Hparse as H0. unfold parse in Hparse. cbn [methodsOf m_parse] in Hparse.
    unfold UnsignedInt.parse in Hparse.
    destruct (asInteger v); [|discriminate]. destruct (_ || _); [discriminate|].
    inversion Hparse; subst. exact H0.
  - pose proof Hparse as H0. unfold parse in Hparse. cbn [methodsOf m_parse] in Hparse.
    unfold Bits.parse in Hparse.
    destruct (asInteger v); [|discriminate]. destruct (_ || _); [discriminate|].
    inversion Hparse; subst. exact H0.
  - destruct v; try discriminate. inversion Hparse; subst. reflexivity.
  - destruct v as [| |b| | | | |]; try discriminate.
    inversion Hparse; subst. destruct b; reflexivity.
  - destruct v; try discriminate. inversion Hparse; subst. reflexivity.
  - pose proof Hparse as H0. unfold parse in Hparse. cbn [methodsOf m_parse] in Hparse.
    unfold Enum.parse in Hparse. destruct (ToString v); [|discriminate].
    destruct (negb _); [discriminate|].
    inversion Hparse; subst. exact H0.
  - (* object *)
    cbn [distinctFields] in Hd. apply andb_true_iff in Hd. destruct Hd as [Hu Hds].
    destruct (Object_parse_result shape isStrict v v' Hu Hparse)
      as (Hobj & props' & -> & Hkeys & Hfields).
    pose proof Hparse as H0.
    unfold parse in Hparse |- *. cbn [methodsOf m_parse] in Hparse |- *.
    unfold Object_.parse in Hparse |- *.
    rewrite Hobj in Hparse. cbn [Object_.isObject negb] in Hparse |- *.
    rewrite Object_extraKeys_entries in Hparse |- *.
    assert (Hextra : Object_.extraKeys shape (VObj props') = []).
    { unfold Object_.extraKeys. apply filter_none. intros key Hin. cbn [objectKeys] in Hin.
      unfold inShape. destruct (lookup key shape) eqn:Hl; [reflexivity|].
      exfalso. apply (Hkeys key); [|exact Hl].
      intros Hnone. apply lookup_None_keys in Hnone. contradiction. }
    rewrite Hextra. cbn [List.length Nat.eqb negb]. rewrite andb_false_r.
    destruct (isStrict && _); [discriminate|].
    rewrite <- Hparse. apply Object_parseFields_cong.
    intros k m Hin. apply in_map_iff in Hin. destruct Hin as ([k0 s] & Heq & Hin).
    inversion Heq; subst.
    destruct (Hfields k s Hin) as [(Hhas & Hhas' & Hy)|(Habs & Habs' & _)].
    + split; [congruence|]. intros _.
      rewrite Forall_forall in IH. rewrite forallb_forall in Hds, Hnodes.
      pose proof (IH (k, s) Hin _ _ (Hds (k, s) Hin) (Hnodes (k, s) Hin) Hy) as Hfix.
      unfold parse in Hy, Hfix. cbn [snd] in Hfix. congruence.
    + split; [congruence|]. congruence.
  - (* optional *)
    unfold parse in *. cbn [methodsOf m_parse] in *. cbn [distinctFields] in Hd.
    destruct v; cbn [Optional.parse] in Hparse;
      try (inversion Hparse; subst; reflexivity);
      apply Optional_parse_extends; exact (IH _ _ Hd Hnodes Hparse).
  - (* nullable *)
    unfold parse in *. cbn [methodsOf m_parse] in *. cbn [distinctFields] in Hd.
    destruct v; cbn [Nullable.parse] in Hparse;
      try (inversion Hparse; subst; reflexivity);
      apply Nullable_parse_extends; exact (IH _ _ Hd Hnodes Hparse).
  - (* array *)
    unfold parse in *. cbn [methodsOf m_parse] in *. cbn [distinctFields] in Hd.
    destruct v as [| | | | | |elems|]; try discriminate.
    cbn [Array.parse] in Hparse.
    destruct (Array.parseFrom (methodsOf e) 0 elems) as [vs|] eqn:Hvs; [|discriminate].
    cbn [bind] in Hparse. inversion Hparse; subst.
    apply Array_parseFrom_Forall2 in Hvs.
    cbn [Array.parse]. rewrite Array_parseFrom_fixed; [reflexivity|].
    clear Hparse. induction Hvs as [|x y elems vs Hxy _ IHelems]; [constructor|].
    constructor; [exact (IH _ _ Hd Hnodes Hxy)|exact IHelems].
  - unfold parse in *. cbn [methodsOf m_parse] in *.
    destruct v; try discriminate. inversion Hparse; subst. reflexivity.
  - discriminate.
  - unfold parse in *. cbn [methodsOf m_parse] in *. unfold NativeEnum.parse in *.
    destruct (existsb _ _) eqn:Hex; [|destruct (ToString _); discriminate].
    inversion Hparse; subst. rewrite NativeEnum_coerce_idempotent, Hex. reflexivity.
Qed.

(** X28.  Validation is idempotent: what [parse] returns, [parse] accepts
    and returns unchanged.  This is for schemas without a Float32 node,
    whose object nodes have distinct field names, none of them a name that
    a plain object inherits, and for values with plain objects where the
    schema has object nodes. *)
Theorem parse_idempotent : forall (t : LeptonType) (v v' : Value),
  distinctFields t = true -> plainFields t = true ->
  forallNodes (fun node => negb (isFloat node)) t = true ->
  plainObjects t v = true ->
  parse t v = Ok v' -> parse t v' = Ok v'.
Proof.
  intros t v v' Hd _ Hnodes _ Hparse. exact (parse_fixed t v v' Hd Hnodes Hparse).
Qed.


Lemma parse_idempotent_witness :
  let t := object [(js "id", uint8); (js "on", LeptonOptional LeptonBoolean);
                   (js "state", LeptonNativeEnum [(js "0", EString (js "Active"));
                                                  (js "Active", ENumber (NInt 0))])] in
  parse t (VObj [(js "zz", VNull); (js "state", VStr (js "0")); (js "id", VNum (NInt 1))])
    = Ok (VObj [(js "id", VNum (NInt 1)); (js "state", VNum (NInt 0))]) /\
  parse t (VObj [(js "id", VNum (NInt 1)); (js "state", VNum (NInt 0))])
    = Ok (VObj [(js "id", VNum (NInt 1)); (js "state", VNum (NInt 0))]).
Proof.
  split; [reflexivity|].
  exact (parse_idempotent
           (object [(js "id", uint8); (js "on", LeptonOptional LeptonBoolean);
                    (js "state", LeptonNativeEnum [(js "0", EString (js "Active"));
                                                   (js "Active", ENumber (NInt 0))])])
           (VObj [(js "zz", VNull); (js "state", VStr (js "0")); (js "id", VNum (NInt 1))])
           (VObj [(js "id", VNum (NInt 1)); (js "state", VNum (NInt 0))])
           eq_refl eq_refl eq_refl eq_refl eq_refl).
Defined.

Lemma Object_encodeFields_cong v1 v2 : forall (entries : list (jsstring * methods)),
  Object_.isObject v1 = true -> Object_.isObject v2 = true ->
  (forall k m, In (k, m) entries ->
     m_encode m (getProperty v2 k) = m_encode m (getProperty v1 k)) ->
  Object_.encodeFields entries v2 = Object_.encodeFields entries v1.
Proof.
  intros entries H1 H2.
  induction entries as [|[k m] entries IH]; intros Hsame; [reflexivity|].
  cbn [Object_.encodeFields].
  rewrite (Hsame k m (or_introl eq_refl)).
  rewrite IH by (intros k' m' Hin; apply (Hsame k' m'); now right).
  destruct v1; try discriminate; destruct v2; try discriminate; reflexivity.
Qed.

Lemma Optional_encode_value m v :
  v <> VUndefined ->
  Optional.encode m v = let* inner := m_encode m v in Ok (js "01" ++ inner).
Proof. intros Hv. destruct v; try reflexivity. congruence. Qed.

Lemma Nullable_encode_value m v :
  v <> VNull ->
  Nullable.encode m v = let* inner := m_encode m v in Ok (js "00" ++ inner).
Proof. intros Hv. destruct v; try reflexivity. congruence. Qed.

(** Validation does not change what is encoded. *)
Lemma encode_parse_same : forall (t : LeptonType) (v v' : Value),
  distinctFields t = true ->
  forallNodes (fun node => negb (isFloat node || isNativeEnum node)) t = true ->
  parse t v = Ok v' -> encode t v' = encode t v.
Proof.
  induction t as [w|w|b| | | |values|shape isStrict IH|w IH|w IH|e IH| | |enumObject]
    using LeptonType_nested_ind;
    intros v v' Hd Hnodes Hparse;
    cbn [forallNodes isFloat isNativeEnum orb negb andb] in Hnodes.
  - unfold parse in Hparse. cbn [methodsOf m_parse] in Hparse.
    unfold SignedInt.parse in Hparse.
    destruct (asInteger v); [|discriminate]. destruct (_ || _); [discriminate|].
    inversion Hparse; subst. reflexivity.
  - unfold parse in Hparse. cbn [methodsOf m_parse] in Hparse.
    unfold UnsignedInt.parse in Hparse.
    destruct (asInteger v); [|discriminate]. destruct (_ || _); [discriminate|].
    inversion Hparse; subst. reflexivity.
  - unfold parse in Hparse. cbn [methodsOf m_parse] in Hparse.
    unfold Bits.parse in Hparse.
    destruct (asInteger v); [|discriminate]. destruct (_ || _); [discriminate|].
    inversion Hparse; subst. reflexivity.
  - destruct v; try discriminate. inversion Hparse; subst. reflexivity.
  - destruct v as [| |b| | | | |]; try discriminate.
    inversion Hparse; subst. destruct b; reflexivity.
  - destruct v; try discriminate. inversion Hparse; subst. reflexivity.
  - unfold parse in Hparse. cbn [methodsOf m_parse] in Hparse.
    unfold Enum.parse in Hparse. destruct (ToString v); [|discriminate].
    destruct (negb _); [discriminate|].
    inversion Hparse; subst. reflexivity.
  - (* object *)
    cbn [distinctFields] in Hd. apply andb_true_iff in Hd. destruct Hd as [Hu Hds].
    destruct (Object_parse_result shape isStrict v v' Hu Hparse)
      as (Hobj & props' & -> & _ & Hfields).
    unfold encode. cbn [methodsOf m_encode]. unfold Object_.encode.
    apply Object_encodeFields_cong; [exact Hobj|reflexivity|].
    intros k m Hin. apply in_map_iff in Hin. destruct Hin as ([k0 s] & Heq & Hin).
    inversion Heq; subst.
    destruct (Hfields k s Hin) as [(_ & _ & Hy)|(Habs & Habs' & _)].
    + rewrite Forall_forall in IH. rewrite forallb_forall in Hds, Hnodes.
      exact (IH (k, s) Hin _ _ (Hds (k, s) Hin) (Hnodes (k, s) Hin) Hy).
    + now rewrite (getProperty_absent _ _ Habs), (getProperty_absent _ _ Habs').
  - (* optional *)
    cbn [distinctFields] in Hd. unfold parse, encode in *.
    cbn [methodsOf m_parse m_encode] in *.
    destruct (parse_keeps_markers (LeptonOptional w) v v' Hparse) as [Hundef _].
    assert (Hcases : (v = VUndefined /\ v' = VUndefined) \/
                     (v <> VUndefined /\ v' <> VUndefined /\
                      m_parse (methodsOf w) v = Ok v')).
    { destruct v; cbn [Optional.parse] in Hparse;
        try (right; split; [discriminate|split; [|exact Hparse]];
             intros Hv'; apply Hundef in Hv'; discriminate).
      left. split; [reflexivity|]. now apply Hundef. }
    destruct Hcases as [[-> ->]|(Hv & Hv' & Hinner)]; [reflexivity|].
    rewrite !Optional_encode_value by assumption.
    now rewrite (IH _ _ Hd Hnodes Hinner).
  - (* nullable *)
    cbn [distinctFields] in Hd. unfold parse, encode in *.
    cbn [methodsOf m_parse m_encode] in *.
    destruct (parse_keeps_markers (LeptonNullable w) v v' Hparse) as [_ Hnull].
    assert (Hcases : (v = VNull /\ v' = VNull) \/
                     (v <> VNull /\ v' <> VNull /\ m_parse (methodsOf w) v = Ok v')).
    { destruct v; cbn [Nullable.parse] in Hparse;
        try (right; split; [discriminate|split; [|exact Hparse]];
             intros Hv'; apply Hnull in Hv'; discriminate).
      left. split; [reflexivity|]. now apply Hnull. }
    destruct Hcases as [[-> ->]|(Hv & Hv' & Hinner)]; [reflexivity|].
    rewrite !Nullable_encode_value by assumption.
    now rewrite (IH _ _ Hd Hnodes Hinner).
  - (* array *)
    cbn [distinctFields] in Hd. unfold parse, encode in *.
    cbn [methodsOf m_parse m_encode] in *.
    destruct v as [| | | | | |elems|]; try discriminate.
    cbn [Array.parse] in Hparse.
    destruct (Array.parseFrom (methodsOf e) 0 elems) as [vs|] eqn:Hvs; [|discriminate].
    cbn [bind] in Hparse. inversion Hparse; subst. clear Hparse.
    apply Array_parseFrom_Forall2 in Hvs.
    cbn [Array.encode]. rewrite <- (Forall2_length Hvs).
    assert (Hsame : Array.encodeElements (methodsOf e) vs
                    = Array.encodeElements (methodsOf e) elems).
    { induction Hvs as [|x y elems vs Hxy _ IHelems]; [reflexivity|].
      cbn [Array.encodeElements]. now rewrite (IH _ _ Hd Hnodes Hxy), IHelems. }
    now rewrite Hsame.
  - unfold parse in Hparse. cbn [methodsOf m_parse] in Hparse.
    destruct v; try discriminate. inversion Hparse; subst. reflexivity.
  - discriminate.
  - discriminate.
Qed.

(** X29.  Validation does not change what is encoded: a value the schema
    accepts is encoded, and the value [parse] returns for it is encoded to
    the same bytes.  The properties validation drops are those encoding
    never reads.  This is for schemas without a Float32 or a native enum
    node (a numeric native enum accepts the text of a member, returns the
    member, and encodes the member only), whose object nodes have distinct
    field names, none of them a name that a plain object inherits, and for
    values with plain objects where the schema has object nodes. *)
Theorem encode_after_parse (t : LeptonType) (v v' : Value) :
  distinctFields t = true -> plainFields t = true ->
  forallNodes (fun node => negb (isFloat node || isNativeEnum node)) t = true ->
  plainObjects t v = true ->
  parse t v = Ok v' ->
  exists bytes, encode t v = Ok bytes /\ encode t v' = Ok bytes.
Proof.
  intros Hd _ Hnodes _ Hparse.
  assert (Hnative : forallNodes (fun node => negb (isNativeEnum node)) t = true).
  { revert Hnodes. apply forallNodes_impl. intros node H.
    destruct (isFloat node); [discriminate|exact H]. }
  destruct (accepted_value_encodes t v v' Hnative Hparse) as (bytes & Hbytes).
  exists bytes. split; [exact Hbytes|].
  now rewrite (encode_parse_same t v v' Hd Hnodes Hparse).
Qed.

Lemma encode_after_parse_witness :
  let t := object [(js "id", uint8); (js "on", LeptonOptional LeptonBoolean)] in
  parse t (VObj [(js "zz", VNull); (js "id", VNum (NInt 1))])
    = Ok (VObj [(js "id", VNum (NInt 1))]) /\
  exists bytes,
    encode t (VObj [(js "zz", VNull); (js "id", VNum (NInt 1))]) = Ok bytes /\
    encode t (VObj [(js "id", VNum (NInt 1))]) = Ok bytes.
Proof.
  split; [reflexivity|].
  exact (encode_after_parse
           (object [(js "id", uint8); (js "on", LeptonOptional LeptonBoolean)])
           (VObj [(js "zz", VNull); (js "id", VNum (NInt 1))])
           (VObj [(js "id", VNum (NInt 1))]) eq_refl eq_refl eq_refl eq_refl eq_refl).
Defined.

Lemma sliceFrom_suffix n (s : jsstring) : exists consumed, s = consumed ++ sliceFrom n s.
Proof. exists (firstn n s). unfold sliceFrom. symmetry. apply firstn_skipn. Qed.

Lemma suffix_trans (a b c : jsstring) :
  (exists x, a = x ++ b) -> (exists y, b = y ++ c) -> exists z, a = z ++ c.
Proof. intros [x ->] [y ->]. exists (x ++ y). now rewrite app_assoc. Qed.

Lemma Object_decodeFields_suffix : forall (entries : list (jsstring * methods))
  res remaining v rest,
  Forall (fun e => forall bytes v rest,
            m_rawDecode (snd e) bytes = Ok (v, rest) -> exists c, bytes = c ++ rest)
         entries ->
  Object_.decodeFields entries res remaining = Ok (v, rest) ->
  exists consumed, remaining = consumed ++ rest.
Proof.
  induction entries as [|[k m] entries IH]; intros res remaining v rest Hall H;
    cbn [Object_.decodeFields] in H.
  - inversion H; subst. exists []. reflexivity.
  - inversion Hall as [|? ? Hm Hrest]; subst. cbn [snd] in Hm.
    destruct (m_rawDecode m remaining) as [[fieldValue next]|[err|]] eqn:Hfield;
      try discriminate.
    cbn [withPath bind] in H.
    eapply suffix_trans; [exact (Hm _ _ _ Hfield)|exact (IH _ _ _ _ Hrest H)].
Qed.

Lemma Array_decodeElements_suffix m : forall count i remaining vs rest,
  (forall bytes v rest, m_rawDecode m bytes = Ok (v, rest) -> exists c, bytes = c ++ rest) ->
  Array.decodeElements m count i remaining = Ok (vs, rest) ->
  exists consumed, remaining = consumed ++ rest.
Proof.
  induction count as [|count IH]; intros i remaining vs rest Hm H;
    cbn [Array.decodeElements] in H.
  - inversion H; subst. exists []. reflexivity.
  - destruct (m_rawDecode m remaining) as [[element next]|[err|]] eqn:Hone;
      try discriminate.
    cbn [withPath bind] in H.
    destruct (Array.decodeElements m count (S i) next) as [[elements rest'']|] eqn:Hmore;
      [|discriminate].
    cbn [bind] in H. inversion H; subst.
    eapply suffix_trans; [exact (Hm _ _ _ Hone)|exact (IH _ _ _ _ Hm Hmore)].
Qed.

(** The remainder in the result of a decoding step. *)
Ltac rest_of H :=
  match type of H with
  | Ok (_, ?r) = Ok (_, ?rest) =>
      let Hr := fresh "Hr" in
      assert (Hr : r = rest) by congruence; rewrite <- Hr in *; clear Hr
  end.

(** X30.  Decoding reads from the front: whatever a node decodes, the
    remainder it returns is a suffix of the bytes it was given. *)
Theorem rawDecode_returns_suffix : forall (t : LeptonType) (bytes : jsstring)
  (v : Value) (rest : jsstring),
  rawDecode t bytes = Ok (v, rest) -> exists consumed, bytes = consumed ++ rest.
Proof.
  induction t as [w|w|b| | | |values|shape isStrict IH|w IH|w IH|e IH| | |enumObject]
    using LeptonType_nested_ind;
    intros bytes v rest H; unfold rawDecode in *; cbn [methodsOf m_rawDecode] in *.
  - unfold SignedInt.rawDecode in H. destruct (len bytes <? _); [discriminate|].
    rest_of H. apply sliceFrom_suffix.
  - unfold UnsignedInt.rawDecode in H. destruct (len bytes <? _); [discriminate|].
    rest_of H. apply sliceFrom_suffix.
  - unfold Bits.rawDecode in H. destruct (len bytes <? _); [discriminate|].
    rest_of H. apply sliceFrom_suffix.
  - unfold BigInt.rawDecode, decodeVarInt in H. rest_of H. apply sliceFrom_suffix.
  - unfold Boolean.rawDecode in H. destruct (len bytes <? _); [discriminate|].
    rest_of H. apply sliceFrom_suffix.
  - unfold String_.rawDecode, decodeVarInt in H.
    destruct (len _ <? _); [discriminate|]. rest_of H.
    eapply suffix_trans; apply sliceFrom_suffix.
  - unfold Enum.rawDecode in H. destruct (len bytes <? _); [discriminate|].
    destruct (match parseInt16 _ with Some _ => _ | None => _ end); [discriminate|].
    rest_of H. apply sliceFrom_suffix.
  - unfold Object_.rawDecode in H.
    eapply Object_decodeFields_suffix; [|exact H].
    apply Forall_forall. intros [k m] Hin. cbn [snd].
    apply in_map_iff in Hin. destruct Hin as ([k0 s] & Heq & Hin). inversion Heq; subst.
    rewrite Forall_forall in IH. exact (IH (k, s) Hin).
  - unfold Optional.rawDecode in H. destruct (len bytes <? _); [discriminate|].
    destruct (parseInt16 (sliceTo 2 bytes)) as [[|p|p]|].
    + rest_of H. apply sliceFrom_suffix.
    + eapply suffix_trans; [apply sliceFrom_suffix|exact (IH _ _ _ H)].
    + eapply suffix_trans; [apply sliceFrom_suffix|exact (IH _ _ _ H)].
    + eapply suffix_trans; [apply sliceFrom_suffix|exact (IH _ _ _ H)].
  - unfold Nullable.rawDecode in H. destruct (len bytes <? _); [discriminate|].
    destruct (parseInt16 (sliceTo 2 bytes)) as [[|[p|p|]|p]|];
      try (eapply suffix_trans; [apply sliceFrom_suffix|exact (IH _ _ _ H)]).
    rest_of H. apply sliceFrom_suffix.
  - unfold Array.rawDecode, decodeVarInt in H.
    destruct (Array.decodeElements _ _ _ _) as [[res remaining]|] eqn:Hdec; [|discriminate].
    cbn [bind] in H. rest_of H.
    eapply suffix_trans; [apply sliceFrom_suffix|].
    exact (Array_decodeElements_suffix _ _ _ _ _ _ IH Hdec).
  - unfold Double.rawDecode in H. destruct (len bytes <? _); [discriminate|].
    rest_of H. apply sliceFrom_suffix.
  - unfold Float.rawDecode in H. destruct (len bytes <? _); [discriminate|].
    destruct (Float.roundToPrecision _ _); [|discriminate]. cbn [bind] in H.
    rest_of H. apply sliceFrom_suffix.
  - unfold NativeEnum.rawDecode in H. destruct (len bytes <? _); [discriminate|].
    destruct (match parseInt16 _ with Some _ => _ | None => _ end); [discriminate|].
    rest_of H. apply sliceFrom_suffix.
Qed.

Lemma rawDecode_returns_suffix_witness :
  rawDecode (LeptonArray uint8) (js "02010203") = Ok (VArr [VNum (NInt 1); VNum (NInt 2)], js "03") /\
  exists consumed, js "02010203" = consumed ++ js "03".
Proof.
  split; [reflexivity|].
  exact (rawDecode_returns_suffix (LeptonArray uint8) (js "02010203")
           (VArr [VNum (NInt 1); VNum (NInt 2)]) (js "03") eq_refl).
Defined.
